(** * candleChart indicator engines: CVD, RSI and Fixed-Range Volume Profile

    A shallow embedding of the numeric core of the chart's indicators
    (the CVD functions and [FRVPCalculator] of the indicator sources and
    [calculateRSI] of [indicators/rsi.js]) together with the properties the
    specification states about them.

    Numbers.  JavaScript numbers are modelled by exact rationals [Q]:
    [a > b] is [Qlt b a] decided by [Qltb], [a === b] on numbers is [Qeq]
    decided by [Qeq_bool], [Math.max]/[Math.min] are [Qmax]/[Qmin].  Rounding
    is therefore absent from the model; the places where the source would
    produce [NaN] or [Infinity] (a division by zero) are written out
    explicitly.  Timestamps and array positions are integers. *)

From Stdlib Require Import ZArith QArith Qminmax Qround Qabs List Bool String Lia Lqa.
From Stdlib Require Import Sorted Permutation.
Import ListNotations.

Local Open Scope Q_scope.

(** ** Number helpers *)

(** [a < b] on JavaScript numbers. *)
Definition Qltb (a b : Q) : bool := negb (Qle_bool b a).

(** An OHLCV bar; [time] is in Unix seconds. *)
Record Bar := mkBar {
  time : Z;
  open : Q;
  high : Q;
  low : Q;
  close : Q;
  volume : Q
}.

(** ** Cumulative Volume Delta *)

Module CVD.

(** The tail of [calculateDeltaForBar], reached when no comparison decided:
    [previousDelta !== undefined && previousDelta !== 0] selects the sign of
    the previous delta, and the default is the neutral 0. *)
Definition inheritDirection (volume : Q) (previousDelta : option Q) : Q :=
  match previousDelta with
  | Some d =>
      if negb (Qeq_bool d 0)
      then (if Qltb 0 d then volume else - volume)
      else 0
  | None => 0
  end.

(** [calculateDeltaForBar(bar, previousBar, previousDelta)].  [previousBar]
    may be [null] and [previousDelta] may be [undefined]; both are [None]. *)
Definition calculateDeltaForBar (bar : Bar) (previousBar : option Bar)
    (previousDelta : option Q) : Q :=
  if Qltb (open bar) (close bar) then volume bar
  else if Qltb (close bar) (open bar) then - volume bar
  else
    match previousBar with
    | Some p =>
        if Qltb (close p) (close bar) then volume bar
        else if Qltb (close bar) (close p) then - volume bar
        else inheritDirection (volume bar) previousDelta
    | None => inheritDirection (volume bar) previousDelta
    end.

Record DeltaPoint := mkDeltaPoint {
  dp_time : Z;
  delta : Q;
  cumulativeDelta : Q
}.

(** The loop of [calculate1MinuteDeltas], with its three running variables. *)
Fixpoint deltasLoop (bars : list Bar) (cumulative : Q) (previousBar : option Bar)
    (previousDelta : option Q) : list DeltaPoint :=
  match bars with
  | [] => []
  | bar :: rest =>
      let d := calculateDeltaForBar bar previousBar previousDelta in
      let cumulative' := cumulative + d in
      mkDeltaPoint (time bar) d cumulative'
        :: deltasLoop rest cumulative' (Some bar) (Some d)
  end.

Definition calculate1MinuteDeltas (oneMinCandles : list Bar) : list DeltaPoint :=
  deltasLoop oneMinCandles 0 None (Some 0).

Record CVDOHLC := mkCVDOHLC {
  openCVD : Q;
  highCVD : Q;
  lowCVD : Q;
  closeCVD : Q
}.

(** The [for (const deltaData of deltas)] loop of [calculateCVDForCandle];
    the state is (highCVD, lowCVD, runningCVD). *)
Definition trackStep (st : Q * Q * Q) (deltaData : DeltaPoint) : Q * Q * Q :=
  let '(highCVD, lowCVD, runningCVD) := st in
  let runningCVD' := runningCVD + delta deltaData in
  (Qmax highCVD runningCVD', Qmin lowCVD runningCVD', runningCVD').

Definition calculateCVDForCandle (targetCandle : Bar) (oneMinCandles : list Bar)
    (previousCloseCVD : Q) : CVDOHLC :=
  match oneMinCandles with
  | [] => mkCVDOHLC previousCloseCVD previousCloseCVD previousCloseCVD previousCloseCVD
  | _ =>
      let deltas := calculate1MinuteDeltas oneMinCandles in
      let openCVD := previousCloseCVD in
      let '(highCVD, lowCVD, runningCVD) :=
        fold_left trackStep deltas (openCVD, openCVD, openCVD) in
      mkCVDOHLC openCVD highCVD lowCVD runningCVD
  end.

Record Underlying := mkUnderlying {
  u_open : Q; u_high : Q; u_low : Q; u_close : Q; u_volume : Q
}.

Record CVDCandle := mkCVDCandle {
  c_time : Z;
  c_open : Q;
  c_high : Q;
  c_low : Q;
  c_close : Q;
  underlyingCandle : Underlying
}.

(** [options] of [calculateCVD]; an absent key is [None]. *)
Record Options := mkOptions {
  anchorPeriod : option string;
  chartTimeframe : option string
}.

Section Calculate.

(** [getAnchorPeriodStart] goes through [Date] and [Intl.DateTimeFormat]
    (and, for the weekly anchor, the host's local time zone); [parseInt] is
    the built-in, with [None] for [NaN].  Both are platform behaviour and are
    parameters of the embedding. *)
Variable getAnchorPeriodStart : Z -> string -> Z.
Variable parseInt : string -> option Z.

(** [options.chartTimeframe || '5']: an absent or empty string is falsy. *)
Definition timeframeString (options : Options) : string :=
  match chartTimeframe options with
  | Some s => if String.eqb s "" then "5"%string else s
  | None => "5"%string
  end.

Definition anchorOf (options : Options) : string :=
  match anchorPeriod options with
  | Some a => a
  | None => "1D"%string
  end.

(** [c.time >= candleStart && c.time < candleEnd]; a [NaN] end makes the
    second comparison false. *)
Definition inWindow (candleStart : Z) (candleEnd : option Z) (c : Bar) : bool :=
  match candleEnd with
  | Some e => (candleStart <=? time c)%Z && (time c <? e)%Z
  | None => false
  end.

Definition candleEndOf (options : Options) (candleTime : Z) : option Z :=
  match parseInt (timeframeString options) with
  | Some resolution => Some (candleTime + resolution * 60)%Z
  | None => None
  end.

Definition relevantOneMinCandles (oneMinCandles : list Bar) (options : Options)
    (candle : Bar) : list Bar :=
  filter (inWindow (time candle) (candleEndOf options (time candle))) oneMinCandles.

(** The reset test [currentAnchorStart === null || anchorStart !== currentAnchorStart]. *)
Definition needsReset (currentAnchorStart : option Z) (anchorStart : Z) : bool :=
  match currentAnchorStart with
  | None => true
  | Some a => negb (anchorStart =? a)%Z
  end.

(** The main loop of [calculateCVD] with its two running variables. *)
Fixpoint cvdLoop (candles oneMinCandles : list Bar) (options : Options)
    (cumulativeCVD : Q) (currentAnchorStart : option Z) : list CVDCandle :=
  match candles with
  | [] => []
  | candle :: rest =>
      let candleTime := time candle in
      let anchorStart := getAnchorPeriodStart candleTime (anchorOf options) in
      let reset := needsReset currentAnchorStart anchorStart in
      let currentAnchorStart' := if reset then Some anchorStart else currentAnchorStart in
      let cumulativeCVD' := if reset then 0 else cumulativeCVD in
      let cvdOHLC :=
        calculateCVDForCandle candle (relevantOneMinCandles oneMinCandles options candle)
          cumulativeCVD' in
      mkCVDCandle candleTime (openCVD cvdOHLC) (highCVD cvdOHLC) (lowCVD cvdOHLC)
          (closeCVD cvdOHLC)
          (mkUnderlying (open candle) (high candle) (low candle) (close candle)
             (volume candle))
        :: cvdLoop rest oneMinCandles options (closeCVD cvdOHLC) currentAnchorStart'
  end.

Definition calculateCVD (candles oneMinCandles : list Bar) (options : Options)
    : list CVDCandle :=
  cvdLoop candles oneMinCandles options 0 None.

End Calculate.

(** *** Vocabulary of the properties *)

(** The running extremes enclose the running total. *)
Definition enclosed (openCVD : Q) (st : Q * Q * Q) : Prop :=
  let '(highCVD, lowCVD, runningCVD) := st in
  lowCVD <= openCVD /\ openCVD <= highCVD
  /\ lowCVD <= runningCVD /\ runningCVD <= highCVD.




(** *** Example inputs *)

(** The scenario of the specification: a doji at 50 after a close of 48. *)
Definition dojiAt50 : Bar := mkBar 120 50 51 49 50 300.
Definition closedAt48 : Bar := mkBar 60 47 49 46 48 120.

(** A session of two 5-minute candles of one day and one of the next, with
    a day-granular anchor; the second candle has no 1-minute bar. *)
Definition dayAnchor (t : Z) (anchor : string) : Z := (t / 86400 * 86400)%Z.

Definition parseDigit5 (s : string) : option Z :=
  if String.eqb s "5" then Some 5%Z else None.

Definition sessionCandles : list Bar :=
  [mkBar 0 100 105 99 104 900; mkBar 300 104 104 104 104 0;
   mkBar 86400 104 106 103 105 500].

Definition sessionMinutes : list Bar :=
  [mkBar 0 100 102 99 101 400; mkBar 60 101 105 100 104 500;
   mkBar 86400 104 106 103 105 500].

End CVD.

(** ** Relative Strength Index *)

Module RSI.

Record Point := mkPoint {
  p_time : Z;
  value : Q
}.

(** The price-change loop: [gains] and [losses] of consecutive closes. *)
Fixpoint changes (data : list Bar) : list Q :=
  match data with
  | prev :: ((cur :: _) as rest) => (close cur - close prev) :: changes rest
  | _ => []
  end.

Definition gainOf (change : Q) : Q := if Qltb 0 change then change else 0.

(** [change < 0 ? Math.abs(change) : 0]. *)
Definition lossOf (change : Q) : Q := if Qltb change 0 then Qabs change else 0.

(** [arr.reduce((a, b) => a + b, 0)]. *)
Definition sum (l : list Q) : Q := fold_left Qplus l 0.

(** The RSI of a pair of averages, before clamping. *)
Definition rsiOf (avgGain avgLoss : Q) : Q :=
  if Qeq_bool avgLoss 0 then (if Qeq_bool avgGain 0 then 50 else 100)
  else
    let rs := avgGain / avgLoss in
    100 - 100 / (1 + rs).

(** [Math.max(0, Math.min(100, rsi))]. *)
Definition clamp (rsi : Q) : Q := Qmax 0 (Qmin 100 rsi).

(** [if (data[k]) rsiData.push({ time: data[k].time, value: rsi })]. *)
Definition pushAt (data : list Bar) (k : nat) (rsi : Q) : list Point :=
  match nth_error data k with
  | Some d => [mkPoint (time d) rsi]
  | None => []
  end.

Section Loop.

Variable data : list Bar.
Variable gains losses : list Q.
Variable period : Q.

(** The smoothing loop [for (let i = period; i < gains.length; i++)];
    [todo] is the number of iterations that remain. *)
Fixpoint smoothLoop (todo i : nat) (avgGain avgLoss : Q) : list Point :=
  match todo with
  | O => []
  | S todo' =>
      let avgGain' := (avgGain * (period - 1) + nth i gains 0) / period in
      let avgLoss' := (avgLoss * (period - 1) + nth i losses 0) / period in
      let rsi := clamp (rsiOf avgGain' avgLoss') in
      pushAt data (S i) rsi ++ smoothLoop todo' (S i) avgGain' avgLoss'
  end.

End Loop.

(** [calculateRSI(data, period)] for a positive integer period. *)
Definition calculateRSI (data : list Bar) (period : positive) : list Point :=
  let n := Pos.to_nat period in
  let periodQ := inject_Z (Zpos period) in
  if (List.length data <=? n)%nat then []
  else
    let gains := map gainOf (changes data) in
    let losses := map lossOf (changes data) in
    let avgGain := sum (firstn n gains) / periodQ in
    let avgLoss := sum (firstn n losses) / periodQ in
    let rsi := rsiOf avgGain avgLoss in
    pushAt data n rsi
      ++ smoothLoop data gains losses periodQ (List.length gains - n) n avgGain avgLoss.

(** *** Vocabulary of the properties *)

Definition inRange (p : Point) : Prop := 0 <= value p /\ value p <= 100.

(** A relation between the closes of consecutive bars. *)
Fixpoint consecutive (R : Q -> Q -> Prop) (data : list Bar) : Prop :=
  match data with
  | a :: (b :: _) as rest => R (close a) (close b) /\ consecutive R rest
  | _ => True
  end.

(** *** Example inputs *)

(** Twenty bars whose closes rise from 1 to 20. *)
Definition risingBars : list Bar :=
  map (fun i => let c := inject_Z (Z.of_nat (S i)) in
                mkBar (Z.of_nat i * 60) c c c c 10)
      (seq 0 20).

End RSI.

(** ** Fixed-Range Volume Profile *)

Module FRVP.

(** One price bucket.  Rows are JavaScript objects; two rows with different
    [index] fields are different objects, and [createPriceLevelRows] gives
    every row of an array its position as [index]. *)
Record Row := mkRow {
  index : Z;
  priceLow : Q;
  priceHigh : Q;
  priceLevel : Q;
  upVolume : Q;
  downVolume : Q;
  totalVolume : Q;
  delta : Q
}.

(** The configuration object; an absent key is [None]. *)
Record Config := mkConfig {
  rowSize : option Q;
  rowsLayout : option string;
  valueAreaVolume : option Q;
  developingPOC : option bool;
  developingVA : option bool
}.

Definition orElse {A : Type} (over base : option A) : option A :=
  match over with
  | Some _ => over
  | None => base
  end.

(** [{ ...base, ...over }]. *)
Definition merge (base over : Config) : Config :=
  mkConfig (orElse (rowSize over) (rowSize base))
           (orElse (rowsLayout over) (rowsLayout base))
           (orElse (valueAreaVolume over) (valueAreaVolume base))
           (orElse (developingPOC over) (developingPOC base))
           (orElse (developingVA over) (developingVA base)).

Definition emptyConfig : Config := mkConfig None None None None None.

(** Thrown values: [new Error(message)], and the [TypeError] of a property
    read on [undefined]. *)
Inductive Exn :=
| Error (message : string)
| TypeError (message : string).

(** What a call does: return, throw, loop forever, or (in the embedding
    only) exhaust the call-depth budget of the profile/developing recursion. *)
Inductive Outcome (A : Type) :=
| Returns (a : A)
| Throws (e : Exn)
| Diverges
| OutOfFuel.

Arguments Returns {A} a.
Arguments Throws {A} e.
Arguments Diverges {A}.
Arguments OutOfFuel {A}.

(** A number that may have left the rationals through a division by zero. *)
Inductive JsNum :=
| Finite (q : Q)
| PosInfinity
| NegInfinity
| NotANumber.

(** [a / b] where [b] may be zero. *)
Definition jsDiv (a b : Q) : JsNum :=
  if Qeq_bool b 0 then
    (if Qltb 0 a then PosInfinity else if Qltb a 0 then NegInfinity else NotANumber)
  else Finite (a / b).

Definition jsCeil (x : JsNum) : JsNum :=
  match x with
  | Finite q => Finite (inject_Z (Qceiling q))
  | _ => x
  end.

(** [Math.max(1, x)]. *)
Definition jsMax1 (x : JsNum) : JsNum :=
  match x with
  | Finite q => Finite (Qmax 1 q)
  | PosInfinity => PosInfinity
  | NegInfinity => Finite 1
  | NotANumber => NotANumber
  end.

(** The [switch (rowsLayout)] of [createPriceLevelRows]. *)
Definition numRowsOf (priceRange rowSize : Q) (rowsLayout : string) : JsNum :=
  if String.eqb rowsLayout "Number" then Finite rowSize
  else if String.eqb rowsLayout "Tick" then jsCeil (jsDiv priceRange rowSize)
  else if String.eqb rowsLayout "Percentage" then
    let rowHeight := (priceRange * rowSize) / 100 in
    jsCeil (jsDiv priceRange rowHeight)
  else Finite rowSize.

(** The row pushed at iteration [i]. *)
Definition makeRow (low high actualRowSize : Q) (i : nat) : Row :=
  let priceLow := low + inject_Z (Z.of_nat i) * actualRowSize in
  let priceHigh := Qmin (priceLow + actualRowSize) high in
  mkRow (Z.of_nat i) priceLow priceHigh ((priceLow + priceHigh) / 2) 0 0 0 0.

Definition rowSizeOf (settings : Config) : Q :=
  match rowSize settings with Some s => s | None => 200 end.

Definition rowsLayoutOf (settings : Config) : string :=
  match rowsLayout settings with Some l => l | None => "Number"%string end.

(** [createPriceLevelRows(low, high, settings)].  The loop
    [for (let i = 0; i < numRows; i++)] runs [ceil numRows] times for a finite
    [numRows], never for [NaN], and for ever for [Infinity]: [None]. *)
Definition createPriceLevelRows (low high : Q) (settings : Config) : option (list Row) :=
  let priceRange := high - low in
  match jsMax1 (numRowsOf priceRange (rowSizeOf settings) (rowsLayoutOf settings)) with
  | Finite numRows =>
      let actualRowSize := priceRange / numRows in
      Some (map (makeRow low high actualRowSize) (seq 0 (Z.to_nat (Qceiling numRows))))
  | PosInfinity => None
  | NegInfinity | NotANumber => Some []
  end.

Definition rangesOverlap (low1 high1 low2 high2 : Q) : bool :=
  Qle_bool low1 high2 && Qle_bool low2 high1.

Definition calculateOverlapRatio (low1 high1 low2 high2 : Q) : Q :=
  let overlapLow := Qmax low1 low2 in
  let overlapHigh := Qmin high1 high2 in
  let overlapRange := Qmax 0 (overlapHigh - overlapLow) in
  let totalRange := high1 - low1 in
  if Qltb 0 totalRange then overlapRange / totalRange else 0.

(** The body of the inner [rows.forEach] of [distributeVolume]: the row
    after the bar has been accounted for. *)
Definition addBarToRow (bar : Bar) (row : Row) : Row :=
  if rangesOverlap (low bar) (high bar) (priceLow row) (priceHigh row) then
    let overlapRatio :=
      calculateOverlapRatio (low bar) (high bar) (priceLow row) (priceHigh row) in
    let volumeForRow := volume bar * overlapRatio in
    let isUpBar := Qle_bool (open bar) (close bar) in
    let upVolume' := if isUpBar then upVolume row + volumeForRow else upVolume row in
    let downVolume' :=
      if isUpBar then downVolume row else downVolume row + volumeForRow in
    mkRow (index row) (priceLow row) (priceHigh row) (priceLevel row)
          upVolume' downVolume' (totalVolume row + volumeForRow)
          (upVolume' - downVolume')
  else row.

(** [distributeVolume(bars, rows)] updates the rows in place; the embedding
    returns the updated array. *)
Definition distributeVolume (bars : list Bar) (rows : list Row) : list Row :=
  fold_left (fun rows bar => map (addBarToRow bar) rows) bars rows.

(** [rows.reduce((sum, r) => sum + r.totalVolume, 0)]. *)
Definition sumTotalVolume (rows : list Row) : Q :=
  fold_left (fun sum r => sum + totalVolume r) rows 0.

Definition pickMax (maxRow currentRow : Row) : Row :=
  if Qltb (totalVolume maxRow) (totalVolume currentRow) then currentRow else maxRow.

Definition calculatePOC (rows : list Row) : Outcome Row :=
  match rows with
  | [] => Throws (Error "No rows provided for POC calculation")
  | first :: _ => Returns (fold_left pickMax rows first)
  end.

(** *** Value area *)

Definition Q_eq_dec (a b : Q) : {a = b} + {a <> b}.
Proof. decide equality; [apply Pos.eq_dec | apply Z.eq_dec]. Defined.

Definition Row_eq_dec (a b : Row) : {a = b} + {a <> b}.
Proof. decide equality; solve [apply Q_eq_dec | apply Z.eq_dec]. Defined.

(** [rows.indexOf(poc)], [-1] when absent.  JavaScript compares object
    identity; rows whose [index] fields differ are different objects, so on
    an array whose rows carry their positions the first structurally equal
    row is the object itself. *)
Fixpoint indexOfFrom (rows : list Row) (poc : Row) (i : Z) : Z :=
  match rows with
  | [] => -1
  | r :: rest => if Row_eq_dec r poc then i else indexOfFrom rest poc (i + 1)
  end%Z.

Definition indexOf (rows : list Row) (poc : Row) : Z := indexOfFrom rows poc 0.

(** [rows[i]] for an integer [i]; [None] is [undefined]. *)
Definition rowAt (rows : list Row) (i : Z) : option Row :=
  if (i <? 0)%Z then None else nth_error rows (Z.to_nat i).

(** [set.add(i)] on a [Set], kept in insertion order. *)
Definition setAdd (i : Z) (s : list Z) : list Z :=
  if existsb (Z.eqb i) s then s else s ++ [i].

Inductive Side := Above | Below.

(** Steps 5 and 8 of the loop body: the chosen candidate and its side, or
    [None] for the [break] taken when neither candidate exists. *)
Definition chooseRow (pocIndex aboveIndex belowIndex : Z)
    (aboveRow belowRow : option Row) : option (Row * Side) :=
  match aboveRow, belowRow with
  | None, None => None
  | Some a, None => Some (a, Above)
  | None, Some b => Some (b, Below)
  | Some a, Some b =>
      if Qltb (totalVolume b) (totalVolume a) then Some (a, Above)
      else if Qltb (totalVolume a) (totalVolume b) then Some (b, Below)
      else
        let aboveDist := (pocIndex - aboveIndex)%Z in
        let belowDist := (belowIndex - pocIndex)%Z in
        if (aboveDist <? belowDist)%Z then Some (a, Above)
        else if (belowDist <? aboveDist)%Z then Some (b, Below)
        else Some (a, Above)
  end.

(** The variables the expansion loop updates. *)
Record VAState := mkVAState {
  accumulatedVolume : Q;
  members : list Z;
  aboveIndex : Z;
  belowIndex : Z
}.

Section Expansion.

Variable rows : list Row.
Variable pocIndex : Z.
Variable targetVolume : Q.

Definition rowsLength : Z := Z.of_nat (List.length rows).

Definition aboveRowOf (st : VAState) : option Row :=
  if (0 <=? aboveIndex st)%Z then rowAt rows (aboveIndex st) else None.

Definition belowRowOf (st : VAState) : option Row :=
  if (belowIndex st <? rowsLength)%Z then rowAt rows (belowIndex st) else None.

(** The [while] condition. *)
Definition continues (st : VAState) : bool :=
  Qltb (accumulatedVolume st) targetVolume
  && ((0 <=? aboveIndex st)%Z || (belowIndex st <? rowsLength)%Z).

(** One pass through the [while] loop: [Some] of the next state, or [None]
    when the loop is left (the condition fails or a [break] is taken). *)
Definition expandStep (st : VAState) : option VAState :=
  if continues st then
    match chooseRow pocIndex (aboveIndex st) (belowIndex st)
            (aboveRowOf st) (belowRowOf st) with
    | None => None
    | Some (chosenRow, chosenSide) =>
        if Qltb targetVolume (accumulatedVolume st + totalVolume chosenRow) then None
        else
          Some (mkVAState
                  (accumulatedVolume st + totalVolume chosenRow)
                  (setAdd (index chosenRow) (members st))
                  (match chosenSide with
                   | Above => aboveIndex st - 1 | Below => aboveIndex st end)%Z
                  (match chosenSide with
                   | Above => belowIndex st | Below => belowIndex st + 1 end)%Z)
    end
  else None.

(** The state after at most [n] passes. *)
Fixpoint expandLoop (n : nat) (st : VAState) : VAState :=
  match n with
  | O => st
  | S n' =>
      match expandStep st with
      | Some st' => expandLoop n' st'
      | None => st
      end
  end.

End Expansion.

(** [rows.sort((a, b) => b.priceLevel - a.priceLevel)] on defined rows:
    descending by [priceLevel], equal keys keep their order. *)
Fixpoint insertDesc (x : Row) (l : list Row) : list Row :=
  match l with
  | [] => [x]
  | y :: l' =>
      if Qltb (priceLevel y) (priceLevel x) then x :: l else y :: insertDesc x l'
  end.

Definition sortDesc (l : list Row) : list Row :=
  fold_left (fun sorted x => insertDesc x sorted) l [].

Fixpoint definedRows (l : list (option Row)) : list Row :=
  match l with
  | [] => []
  | Some r :: l' => r :: definedRows l'
  | None :: l' => definedRows l'
  end.

Definition isUndefined (r : option Row) : bool :=
  match r with None => true | Some _ => false end.

(** [Array.prototype.sort] moves [undefined] entries to the end without
    calling the comparator on them. *)
Definition sortByPriceDesc (l : list (option Row)) : list (option Row) :=
  map Some (sortDesc (definedRows l)) ++ filter isUndefined l.

(** [arr[i]] on an array that may hold [undefined]. *)
Definition entryAt (l : list (option Row)) (i : nat) : option Row :=
  match nth_error l i with
  | Some r => r
  | None => None
  end.

Record ValueArea := mkValueArea {
  vah : option Row;
  val : option Row;
  valueAreaRows : list Z
}.

Definition targetVolumeOf (rows : list Row) (vaPercentage : Q) : Q :=
  sumTotalVolume rows * (vaPercentage / 100).

(** The state at the first test of the [while] condition. *)
Definition initialState (rows : list Row) (poc : Row) : VAState :=
  let pocIndex := indexOf rows poc in
  mkVAState (totalVolume poc) [index poc] (pocIndex - 1)%Z (pocIndex + 1)%Z.

(** The state when the loop is left.  Every pass that does not leave the
    loop moves one cursor one row outward, so [length rows] passes are
    enough (see [expandLoop_exits]). *)
Definition finalState (rows : list Row) (poc : Row) (vaPercentage : Q) : VAState :=
  expandLoop rows (indexOf rows poc) (targetVolumeOf rows vaPercentage)
    (List.length rows) (initialState rows poc).

Definition calculateValueArea (rows : list Row) (poc : Row) (vaPercentage : Q)
    : ValueArea :=
  if Qeq_bool (sumTotalVolume rows) 0 then
    mkValueArea (Some poc) (Some poc) [index poc]
  else
    let st := finalState rows poc vaPercentage in
    let vaRowsArray := sortByPriceDesc (map (rowAt rows) (members st)) in
    mkValueArea (entryAt vaRowsArray 0)
                (entryAt vaRowsArray (List.length vaRowsArray - 1))
                (members st).

(** *** Profile and developing samples *)

Record Metadata := mkMetadata {
  md_totalVolume : Q;
  md_totalBars : nat;
  md_priceRange : Q;
  md_rowCount : nat
}.

Record DevPoint := mkDevPoint {
  timestamp : Z;
  d_poc : Q;
  d_vah : Q;
  d_val : Q
}.

Record Profile := mkProfile {
  p_rows : list Row;
  p_poc : Row;
  p_vah : Row;
  p_val : Row;
  p_valueAreaRows : list Z;
  profileHigh : Q;
  profileLow : Q;
  developing : option (list DevPoint);
  metadata : Metadata
}.

(** [settings.valueAreaVolume || 70]: [undefined] and [0] are falsy. *)
Definition vaPercentageOf (settings : Config) : Q :=
  match valueAreaVolume settings with
  | Some v => if Qeq_bool v 0 then 70 else v
  | None => 70
  end.

(** [settings.developingPOC || settings.developingVA]. *)
Definition wantsDeveloping (settings : Config) : bool :=
  match developingPOC settings, developingVA settings with
  | Some true, _ => true
  | _, Some true => true
  | _, _ => false
  end.

(** [{ ...settings, developingPOC: false, developingVA: false }]. *)
Definition flagsOff (settings : Config) : Config :=
  mkConfig (rowSize settings) (rowsLayout settings) (valueAreaVolume settings)
           (Some false) (Some false).

Definition noData : Exn := Error "No data provided for FRVP calculation".

(** [Math.max(...minuteBars.map(b => b.high))] on a non-empty array. *)
Definition profileHighOf (b : Bar) (bs : list Bar) : Q :=
  fold_left Qmax (map high bs) (high b).

(** [Math.min(...minuteBars.map(b => b.low))] on a non-empty array. *)
Definition profileLowOf (b : Bar) (bs : list Bar) : Q :=
  fold_left Qmin (map low bs) (low b).

(** The body of [calculateProfile], with [this.calculateDeveloping] as a
    parameter.  [minuteBars] is [None] when the argument is missing. *)
Definition calculateProfileWith
    (calculateDeveloping : list Bar -> Config -> Outcome (list DevPoint))
    (self : Config) (minuteBars : option (list Bar)) (config : Config)
    : Outcome Profile :=
  match minuteBars with
  | None | Some [] => Throws noData
  | Some ((b :: bs) as bars) =>
      let settings := merge self config in
      let profileHigh := profileHighOf b bs in
      let profileLow := profileLowOf b bs in
      match createPriceLevelRows profileLow profileHigh settings with
      | None => Diverges
      | Some created =>
          let rows := distributeVolume bars created in
          match calculatePOC rows with
          | Returns poc =>
              let va := calculateValueArea rows poc (vaPercentageOf settings) in
              let developing :=
                if wantsDeveloping settings then
                  match calculateDeveloping bars settings with
                  | Returns d => Returns (Some d)
                  | Throws e => Throws e
                  | Diverges => Diverges
                  | OutOfFuel => OutOfFuel
                  end
                else Returns None in
              match developing with
              | Returns dev =>
                  let totalVolume := sumTotalVolume rows in
                  match vah va, val va with
                  | Some vah, Some val =>
                      Returns (mkProfile rows poc vah val (valueAreaRows va)
                                 profileHigh profileLow dev
                                 (mkMetadata totalVolume (List.length bars)
                                    (profileHigh - profileLow) (List.length rows)))
                  | _, _ => Throws (TypeError "Cannot read properties of undefined")
                  end
              | Throws e => Throws e
              | Diverges => Diverges
              | OutOfFuel => OutOfFuel
              end
          | Throws e => Throws e
          | Diverges => Diverges
          | OutOfFuel => OutOfFuel
          end
      end
  end.

(** [Math.max(1, Math.floor(n / 50))]. *)
Definition stepOf (n : nat) : nat := Nat.max 1 (n / 50).

Section Developing.

Variable calculateProfile : option (list Bar) -> Config -> Outcome Profile.
Variable minuteBars : list Bar.
Variable settings : Config.
Variable step : nat.

(** One sample: the [try] block and its [catch]. *)
Definition samplePrefix (i : nat) : Outcome (list DevPoint) :=
  let partialBars := firstn i minuteBars in
  match calculateProfile (Some partialBars) (flagsOff settings) with
  | Returns partialProfile =>
      match last (map Some partialBars) None with
      | Some lastBar =>
          Returns [mkDevPoint (time lastBar) (priceLevel (p_poc partialProfile))
                     (priceLevel (p_vah partialProfile))
                     (priceLevel (p_val partialProfile))]
      | None => Returns []
      end
  | Throws _ => Returns []
  | Diverges => Diverges
  | OutOfFuel => OutOfFuel
  end.

(** [for (let i = step; i <= minuteBars.length; i += step)], started at [i];
    [budget] bounds the number of passes of the embedding. *)
Fixpoint developingLoop (budget i : nat) : Outcome (list DevPoint) :=
  if (i <=? List.length minuteBars)%nat then
    match budget with
    | O => OutOfFuel
    | S budget' =>
        match samplePrefix i with
        | Returns pushed =>
            match developingLoop budget' (i + step) with
            | Returns more => Returns (pushed ++ more)
            | other => other
            end
        | Throws e => Throws e
        | Diverges => Diverges
        | OutOfFuel => OutOfFuel
        end
    end
  else Returns [].

End Developing.

(** [calculateDeveloping(minuteBars, settings)] with [this.calculateProfile]
    as a parameter.  The step is at least 1, so the loop makes at most
    [minuteBars.length] passes. *)
Definition calculateDevelopingWith
    (calculateProfile : option (list Bar) -> Config -> Outcome Profile)
    (minuteBars : list Bar) (settings : Config) : Outcome (list DevPoint) :=
  let step := stepOf (List.length minuteBars) in
  developingLoop calculateProfile minuteBars settings step
    (List.length minuteBars) step.

(** The two methods call each other; [depth] bounds the nesting of calls.
    A nested call has both flags off and goes no deeper, so depth 2 is
    always enough (see [calculateProfile_depth]). *)
Fixpoint calculateProfile (depth : nat) (self : Config)
    : option (list Bar) -> Config -> Outcome Profile :=
  match depth with
  | O => fun _ _ => OutOfFuel
  | S depth' =>
      calculateProfileWith (calculateDevelopingWith (calculateProfile depth' self)) self
  end.

Definition calculateDeveloping (depth : nat) (self : Config)
    : list Bar -> Config -> Outcome (list DevPoint) :=
  calculateDevelopingWith (calculateProfile depth self).

(** *** Vocabulary of the properties *)

(** The running maximum of the [reduce]: [m] is the first row of greatest
    volume among the rows [seen] so far. *)
Definition firstMaxOf (seen : list Row) (m : Row) (k : nat) : Prop :=
  nth_error seen k = Some m
  /\ (forall r, In r seen -> totalVolume r <= totalVolume m)
  /\ (forall j r, (j < k)%nat -> nth_error seen j = Some r ->
                  totalVolume r < totalVolume m).

(** Every row carries its position in the array as [index], as the rows
    pushed by [createPriceLevelRows] do. *)
Definition wellIndexed (rows : list Row) : Prop :=
  forall i r, nth_error rows i = Some r -> index r = Z.of_nat i.

(** Rows are in ascending price order. *)
Definition ascendingPrice (rows : list Row) : Prop :=
  forall i j ri rj,
    nth_error rows i = Some ri -> nth_error rows j = Some rj ->
    (i < j)%nat -> priceLevel ri < priceLevel rj.

(** Rows still outside the cursors. *)
Definition remaining (rows : list Row) (st : VAState) : Z :=
  (Z.max 0 (aboveIndex st + 1) + Z.max 0 (rowsLength rows - belowIndex st))%Z.

(** The members are exactly the positions strictly between the cursors,
    which stay on either side of the POC. *)
Definition spans (rows : list Row) (pocIndex : Z) (st : VAState) : Prop :=
  (-1 <= aboveIndex st < pocIndex)%Z
  /\ (pocIndex < belowIndex st <= rowsLength rows)%Z
  /\ (forall i, In i (members st) <-> (aboveIndex st < i < belowIndex st)%Z).

Definition descending : list Row -> Prop :=
  StronglySorted (fun a b => priceLevel b <= priceLevel a).

(** [x] clipped into the bar's range [l, h]. *)
Definition clip (l h x : Q) : Q := Qmin (Qmax x l) h.

(** The length of the overlap computed by [calculateOverlapRatio]. *)
Definition overlapRange (l h a b : Q) : Q := Qmax 0 (Qmin h b - Qmax l a).

Fixpoint sumOver (f : Row -> Q) (rows : list Row) : Q :=
  match rows with
  | [] => 0
  | r :: rest => f r + sumOver f rest
  end.

(** The volume a bar adds to a row. *)
Definition contribution (bar : Bar) (row : Row) : Q :=
  if rangesOverlap (low bar) (high bar) (priceLow row) (priceHigh row)
  then volume bar
       * calculateOverlapRatio (low bar) (high bar) (priceLow row) (priceHigh row)
  else 0.

(** Consecutive rows share a boundary, from [start] up to [finish]. *)
Fixpoint chained (start : Q) (rows : list Row) (finish : Q) : Prop :=
  match rows with
  | [] => start == finish
  | r :: rest =>
      priceLow r == start /\ priceLow r <= priceHigh r
      /\ chained (priceHigh r) rest finish
  end.

(** The volume of a bar that [distributeVolume] can place: a bar with
    [high <= low] has overlap ratio 0 in every row. *)
Definition rangedVolume (bar : Bar) : Q :=
  if Qltb (low bar) (high bar) then volume bar else 0.

Fixpoint totalRangedVolume (bars : list Bar) : Q :=
  match bars with
  | [] => 0
  | bar :: rest => rangedVolume bar + totalRangedVolume rest
  end.

(** The volume held by the rows at the positions [positions]. *)
Fixpoint memberVolume (rows : list Row) (positions : list Z) : Q :=
  match positions with
  | [] => 0
  | i :: rest =>
      match rowAt rows i with
      | Some r => totalVolume r
      | None => 0
      end + memberVolume rows rest
  end.


(** *** Example inputs *)

Definition volumeRow (i : Z) (v : Q) : Row := mkRow i 0 0 0 0 0 v 0.

Definition threeRows : list Row :=
  [mkRow 0 10 11 (21 # 2) 0 40 40 (-40);
   mkRow 1 11 12 (23 # 2) 60 0 60 60;
   mkRow 2 12 13 (25 # 2) 40 0 40 40].

Definition atPoc1 : VAState := mkVAState 60 [1%Z] 0 2.

(** A profile whose POC alone holds more than 70% of the volume. *)
Definition dominantPoc : Row := mkRow 0 10 11 (21 # 2) 100 0 100 100.

Definition dominantRows : list Row :=
  [dominantPoc; mkRow 1 11 12 (23 # 2) 10 0 10 10].

(** Volumes 30, 60, 40 around the POC at position 1. *)
Definition skewedPoc : Row := mkRow 1 11 12 (23 # 2) 60 0 60 60.

Definition skewedRows : list Row :=
  [mkRow 0 10 11 (21 # 2) 0 30 30 (-30); skewedPoc;
   mkRow 2 12 13 (25 # 2) 40 0 40 40].

(** A bar with extent followed by a flat bar at 11, over two rows. *)
Definition mixedBars : list Bar :=
  [mkBar 0 10 12 9 11 100; mkBar 60 11 11 11 11 50].

Definition twoRows : Config :=
  mkConfig (Some 2) (Some "Number"%string) None None None.

Definition rangeHead : Bar := mkBar 0 10 12 9 11 100.
Definition rangeTail : list Bar := [mkBar 60 11 11 8 9 200].

(** Fifty-one one-minute bars. *)
Definition fiftyOneBars : list Bar :=
  map (fun i => mkBar (Z.of_nat i * 60) 10 12 9 11 100) (seq 0 51).

Definition developingOn : Config :=
  mkConfig (Some 4) (Some "Number"%string) None (Some true) None.

End FRVP.

(** ** Moving averages *)

Module Smoothing.
Import RSI.

(** An entry of the series given to [calculateSMA]: [value] is [None] when
    it is [undefined], [null] or [NaN]. *)
Record Sample := mkSample {
  s_time : Z;
  s_value : option Q
}.

(** [data[k]?.value]. *)
Definition valueAt (data : list Sample) (k : nat) : option Q :=
  match nth_error data k with
  | Some d => s_value d
  | None => None
  end.

(** One pass of the inner loop [for (let j = 0; j < period; j++)] of
    [calculateSMA]; the state is (sum, count). *)
Definition windowStep (data : list Sample) (i : nat) (st : Q * nat) (j : nat)
    : Q * nat :=
  match valueAt data (i - j) with
  | Some val => (fst st + val, S (snd st))
  | None => st
  end.

(** What the outer loop pushes at position [i]. *)
Definition smaAt (data : list Sample) (period : positive) (i : nat) : list Point :=
  let n := Pos.to_nat period in
  if (i <? n - 1)%nat then []
  else
    let '(sum, count) := fold_left (windowStep data i) (seq 0 n) (0, 0%nat) in
    if (count =? n)%nat then
      match nth_error data i with
      | Some d => [mkPoint (s_time d) (sum / inject_Z (Zpos period))]
      | None => []
      end
    else [].

(** [calculateSMA(data, period)] for a positive integer period. *)
Definition calculateSMA (data : list Sample) (period : positive) : list Point :=
  flat_map (smaAt data period) (seq 0 (List.length data)).

(** The series [createRSIChart] passes to [calculateSMA]: the RSI points,
    whose values are all defined. *)
Definition samplesOf (points : list Point) : list Sample :=
  map (fun p => mkSample (p_time p) (Some (value p))) points.

(** The loop [for (let i = period; i < data.length; i++)] of [calculateEMA],
    over the bars from position [period] on. *)
Fixpoint emaLoop (k : Q) (rest : list Bar) (ema : Q) : list Point :=
  match rest with
  | [] => []
  | d :: rest' =>
      let ema' := close d * k + ema * (1 - k) in
      mkPoint (time d) ema' :: emaLoop k rest' ema'
  end.

(** [calculateEMA(data, period)] for a positive integer period. *)
Definition calculateEMA (data : list Bar) (period : positive) : list Point :=
  let n := Pos.to_nat period in
  let periodQ := inject_Z (Zpos period) in
  let k := 2 / (periodQ + 1) in
  if (List.length data <? n)%nat then []
  else
    let initialSum := fold_left (fun sum d => sum + close d) (firstn n data) 0 in
    let ema := initialSum / periodQ in
    match nth_error data (n - 1) with
    | Some d => mkPoint (time d) ema :: emaLoop k (skipn n data) ema
    | None => []
    end.

(** *** Vocabulary of the properties *)

Definition within (lo hi : Q) (p : Point) : Prop := lo <= value p /\ value p <= hi.

End Smoothing.

(** ** FRVP: rows formatted for rendering *)

Module Formatting.
Import FRVP.

(** [config.volumeProfile]; an absent key is [None]. *)
Record VolumeProfileStyle := mkVolumeProfileStyle {
  width : option Q;
  placement : option string
}.

Record FormattedRow := mkFormattedRow {
  row : Row;
  barWidth : Q;
  isPOC : bool;
  isVAH : bool;
  isVAL : bool;
  isInValueArea : bool;
  f_placement : string
}.

(** [Math.max(...rows.map(r => r.totalVolume))]; [None] is the [-Infinity]
    of an empty array. *)
Definition maxVolumeOf (rows : list Row) : option Q :=
  match rows with
  | [] => None
  | r :: rest => Some (fold_left Qmax (map totalVolume rest) (totalVolume r))
  end.

(** [maxVolume > 0 ? row.totalVolume / maxVolume : 0]. *)
Definition volumeRatio (maxVolume : option Q) (r : Row) : Q :=
  match maxVolume with
  | Some m => if Qltb 0 m then totalVolume r / m else 0
  | None => 0
  end.

(** [const { width = 30, placement = 'Left' } = config.volumeProfile || {}]. *)
Definition widthOf (volumeProfile : option VolumeProfileStyle) : Q :=
  match volumeProfile with
  | Some vp => match width vp with Some w => w | None => 30 end
  | None => 30
  end.

Definition placementOf (volumeProfile : option VolumeProfileStyle) : string :=
  match volumeProfile with
  | Some vp => match placement vp with Some pl => pl | None => "Left"%string end
  | None => "Left"%string
  end.

(** [getFormattedData(calculatedProfile, config)]; [volumeProfile] is
    [config.volumeProfile]. *)
Definition getFormattedData (calculatedProfile : Profile)
    (volumeProfile : option VolumeProfileStyle) : list FormattedRow :=
  let rows := p_rows calculatedProfile in
  let maxVolume := maxVolumeOf rows in
  map (fun r =>
         mkFormattedRow r (volumeRatio maxVolume r * widthOf volumeProfile)
           (index r =? index (p_poc calculatedProfile))%Z
           (index r =? index (p_vah calculatedProfile))%Z
           (index r =? index (p_val calculatedProfile))%Z
           (existsb (Z.eqb (index r)) (p_valueAreaRows calculatedProfile))
           (placementOf volumeProfile))
      rows.

End Formatting.

(** ** FRVP settings *)

Module Settings.
Import FRVP Formatting.

(** The settings object given to [validateFRVPConfig], with numbers in its
    numeric fields: the inputs the calculator reads, the style of the volume
    profile, and the opacity of every entry of [colors] and of [indicators]
    ([None] for an entry without opacity). *)
Record FRVPConfig := mkFRVPConfig {
  inputs : Config;
  volumeProfile : option VolumeProfileStyle;
  colors : option (list (string * option Q));
  indicators : option (list (string * option Q))
}.

Section Validate.

(** [parseInt] on a number reads the integer at the head of its decimal
    text; [None] is [NaN]. *)
Variable parseInt : Q -> option Z.

(** [parseInt(v) || fallback]: [NaN] and [0] are falsy. *)
Definition parsedOr (fallback : Z) (v : Q) : Z :=
  match parseInt v with
  | Some z => if (z =? 0)%Z then fallback else z
  | None => fallback
  end.

(** [Math.max(1, parseInt(v) || 200)]. *)
Definition validRowSize (v : Q) : Q := inject_Z (Z.max 1 (parsedOr 200 v)).

(** [Math.max(0, Math.min(100, parseInt(v) || fallback))]. *)
Definition validPercent (fallback : Z) (v : Q) : Q :=
  inject_Z (Z.max 0 (Z.min 100 (parsedOr fallback v))).

(** The [Object.keys(...).forEach] over the entries of [colors] or
    [indicators]. *)
Definition validOpacities (fallback : Z) (entries : list (string * option Q))
    : list (string * option Q) :=
  map (fun entry => (fst entry, option_map (validPercent fallback) (snd entry)))
      entries.

(** [validateFRVPConfig(config)].  The nested objects of the result are
    those of the argument, updated in place; the embedding returns the
    validated settings. *)
Definition validateFRVPConfig (config : FRVPConfig) : FRVPConfig :=
  mkFRVPConfig
    (mkConfig (option_map validRowSize (rowSize (inputs config)))
              (rowsLayout (inputs config))
              (option_map (validPercent 70) (valueAreaVolume (inputs config)))
              (developingPOC (inputs config))
              (developingVA (inputs config)))
    (option_map (fun vp => mkVolumeProfileStyle
                             (option_map (validPercent 30) (width vp))
                             (placement vp))
                (volumeProfile config))
    (option_map (validOpacities 80) (colors config))
    (option_map (validOpacities 50) (indicators config)).

End Validate.

(** *** Vocabulary of the properties *)

(** A whole number between [lo] and [hi]. *)
Definition wholeBetween (lo hi : Z) (q : Q) : Prop :=
  exists z, q = inject_Z z /\ (lo <= z <= hi)%Z.

(** *** Example inputs *)

(** [parseInt] on whole numbers. *)
Definition parseWhole (q : Q) : option Z :=
  if (Zpos (Qden q) =? 1)%Z then Some (Qnum q) else None.

Definition rawSettings : FRVPConfig :=
  mkFRVPConfig (mkConfig (Some 0) (Some "Tick"%string) (Some (-5)) None None)
    (Some (mkVolumeProfileStyle (Some 250) None))
    (Some [("upVolume"%string, Some 80); ("downVolume"%string, None)])
    None.

End Settings.

(** * Properties *)

(** ** Comparisons *)

Lemma Qltb_lt (a b : Q) : Qltb a b = true <-> a < b.
Proof.
  unfold Qltb. rewrite negb_true_iff.
  split; intro H.
  - apply Qnot_le_lt. intro Hle. apply Qle_bool_iff in Hle. congruence.
  - destruct (Qle_bool b a) eqn:E; [|reflexivity].
    apply Qle_bool_iff in E. exfalso. exact (Qlt_not_le _ _ H E).
Qed.

Lemma Qltb_ge (a b : Q) : Qltb a b = false <-> b <= a.
Proof.
  unfold Qltb. rewrite negb_false_iff. apply Qle_bool_iff.
Qed.

Lemma Qltb_irrefl_eq (a b : Q) : a == b -> Qltb a b = false.
Proof. intro E. apply Qltb_ge. rewrite E. apply Qle_refl. Qed.

Lemma Qeq_bool_false (a b : Q) : Qeq_bool a b = false <-> ~ a == b.
Proof.
  split; intro H.
  - intro E. apply Qeq_bool_iff in E. congruence.
  - destruct (Qeq_bool a b) eqn:E; [|reflexivity].
    apply Qeq_bool_iff in E. contradiction.
Qed.

(** ** CVD *)

Module CVDProps.
Import CVD.

(** C8.  For a doji bar ([close == open]): a previous bar with a lower close
    gives [+volume], one with a higher close gives [-volume]; otherwise (no
    previous bar, or equal closes) the result takes the sign of a non-zero
    previous delta, and is 0 when the previous delta is undefined or zero. *)
Theorem calculateDeltaForBar_doji (bar : Bar) (previousBar : option Bar)
    (previousDelta : option Q) :
  close bar == open bar ->
  let result := calculateDeltaForBar bar previousBar previousDelta in
  (forall p, previousBar = Some p -> close p < close bar -> result = volume bar)
  /\ (forall p, previousBar = Some p -> close bar < close p -> result = - volume bar)
  /\ ((previousBar = None
       \/ exists p, previousBar = Some p /\ close bar == close p) ->
      (forall d, previousDelta = Some d -> 0 < d -> result = volume bar)
      /\ (forall d, previousDelta = Some d -> d < 0 -> result = - volume bar)
      /\ (previousDelta = None
          \/ (exists d, previousDelta = Some d /\ d == 0) -> result = 0)).
Proof.
  intros Hdoji result. subst result. unfold calculateDeltaForBar.
  rewrite (Qltb_irrefl_eq (open bar) (close bar)) by (symmetry; exact Hdoji).
  rewrite (Qltb_irrefl_eq (close bar) (open bar)) by exact Hdoji.
  assert (Hinherit :
    (forall d, previousDelta = Some d -> 0 < d ->
       inheritDirection (volume bar) previousDelta = volume bar)
    /\ (forall d, previousDelta = Some d -> d < 0 ->
       inheritDirection (volume bar) previousDelta = - volume bar)
    /\ (previousDelta = None \/ (exists d, previousDelta = Some d /\ d == 0) ->
       inheritDirection (volume bar) previousDelta = 0)).
  { unfold inheritDirection. repeat split.
    - intros d -> Hd.
      assert (Hne : Qeq_bool d 0 = false)
        by (apply Qeq_bool_false; intro E; rewrite E in Hd; exact (Qlt_irrefl _ Hd)).
      rewrite Hne. simpl. apply Qltb_lt in Hd. rewrite Hd. reflexivity.
    - intros d -> Hd.
      assert (Hne : Qeq_bool d 0 = false)
        by (apply Qeq_bool_false; intro E; rewrite E in Hd; exact (Qlt_irrefl _ Hd)).
      rewrite Hne. simpl.
      assert (Hge : Qltb 0 d = false) by (apply Qltb_ge; apply Qlt_le_weak; exact Hd).
      rewrite Hge. reflexivity.
    - intros [-> | [d [-> Hd]]]; [reflexivity|].
      apply Qeq_bool_iff in Hd. rewrite Hd. reflexivity. }
  repeat split.
  - intros p -> Hp. apply Qltb_lt in Hp. rewrite Hp. reflexivity.
  - intros p -> Hp.
    assert (Hge : Qltb (close p) (close bar) = false)
      by (apply Qltb_ge; apply Qlt_le_weak; exact Hp).
    rewrite Hge. apply Qltb_lt in Hp. rewrite Hp. reflexivity.
  - intros d Hd Hpos. destruct H as [-> | [p [-> Hp]]].
    + apply (proj1 Hinherit d Hd Hpos).
    + rewrite (Qltb_irrefl_eq (close p) (close bar)) by (symmetry; exact Hp).
      rewrite (Qltb_irrefl_eq (close bar) (close p)) by exact Hp.
      apply (proj1 Hinherit d Hd Hpos).
  - intros d Hd Hneg. destruct H as [-> | [p [-> Hp]]].
    + apply (proj1 (proj2 Hinherit) d Hd Hneg).
    + rewrite (Qltb_irrefl_eq (close p) (close bar)) by (symmetry; exact Hp).
      rewrite (Qltb_irrefl_eq (close bar) (close p)) by exact Hp.
      apply (proj1 (proj2 Hinherit) d Hd Hneg).
  - intros Hnone. destruct H as [-> | [p [-> Hp]]].
    + apply (proj2 (proj2 Hinherit) Hnone).
    + rewrite (Qltb_irrefl_eq (close p) (close bar)) by (symmetry; exact Hp).
      rewrite (Qltb_irrefl_eq (close bar) (close p)) by exact Hp.
      apply (proj2 (proj2 Hinherit) Hnone).
Qed.

Lemma calculateDeltaForBar_doji_witness :
  close dojiAt50 == open dojiAt50
  /\ calculateDeltaForBar dojiAt50 (Some closedAt48) (Some 120) = 300.
Proof.
  split; [reflexivity|].
  apply (proj1 (calculateDeltaForBar_doji dojiAt50 (Some closedAt48) (Some 120)
                  (Qeq_refl _)) closedAt48 eq_refl).
  reflexivity.
Defined.

Section Continuity.

Variable getAnchorPeriodStart : Z -> string -> Z.
Variable parseInt : string -> option Z.

Let anchorStartOf (options : Options) (candle : Bar) : Z :=
  getAnchorPeriodStart (time candle) (anchorOf options).

Lemma openCVD_inherited (candle : Bar) (oneMin : list Bar) (previousCloseCVD : Q) :
  openCVD (calculateCVDForCandle candle oneMin previousCloseCVD) = previousCloseCVD.
Proof.
  unfold calculateCVDForCandle. destruct oneMin as [|m ms]; [reflexivity|].
  destruct (fold_left trackStep _ _) as [[h l] r]. reflexivity.
Qed.

Lemma flat_without_bars (candle : Bar) (previousCloseCVD : Q) :
  calculateCVDForCandle candle [] previousCloseCVD
  = mkCVDOHLC previousCloseCVD previousCloseCVD previousCloseCVD previousCloseCVD.
Proof. reflexivity. Qed.

(** After a pass of the loop, [currentAnchorStart] is the anchor start of
    the candle just processed. *)
Lemma anchor_after_pass (currentAnchorStart : option Z) (anchorStart : Z) :
  (if needsReset currentAnchorStart anchorStart
   then Some anchorStart else currentAnchorStart) = Some anchorStart.
Proof.
  destruct currentAnchorStart as [a|]; simpl; [|reflexivity].
  destruct (Z.eqb_spec anchorStart a); simpl; congruence.
Qed.

Lemma cvdLoop_length (candles oneMin : list Bar) (options : Options) :
  forall cumulativeCVD currentAnchorStart,
    List.length (cvdLoop getAnchorPeriodStart parseInt candles oneMin options
                   cumulativeCVD currentAnchorStart)
    = List.length candles.
Proof.
  induction candles as [|c rest IH]; intros; simpl; [reflexivity|].
  rewrite IH. reflexivity.
Qed.

(** One pass of the loop, with the state it leaves. *)
Lemma cvdLoop_cons (c : Bar) (rest oneMin : list Bar) (options : Options)
    (cumulativeCVD : Q) (currentAnchorStart : option Z) :
  let reset := needsReset currentAnchorStart (anchorStartOf options c) in
  let cvdOHLC :=
    calculateCVDForCandle c (relevantOneMinCandles parseInt oneMin options c)
      (if reset then 0 else cumulativeCVD) in
  cvdLoop getAnchorPeriodStart parseInt (c :: rest) oneMin options
    cumulativeCVD currentAnchorStart
  = mkCVDCandle (time c) (openCVD cvdOHLC) (highCVD cvdOHLC) (lowCVD cvdOHLC)
      (closeCVD cvdOHLC)
      (mkUnderlying (open c) (high c) (low c) (close c) (volume c))
    :: cvdLoop getAnchorPeriodStart parseInt rest oneMin options
         (closeCVD cvdOHLC) (Some (anchorStartOf options c)).
Proof.
  intros reset cvdOHLC. subst reset cvdOHLC. unfold anchorStartOf.
  cbn [cvdLoop]. rewrite anchor_after_pass. reflexivity.
Qed.

(** The first candle produced from a given loop state. *)
Lemma cvdLoop_first (c : Bar) (rest oneMin : list Bar) (options : Options)
    (cumulativeCVD : Q) (currentAnchorStart : option Z) (o : CVDCandle) :
  nth_error (cvdLoop getAnchorPeriodStart parseInt (c :: rest) oneMin options
               cumulativeCVD currentAnchorStart) 0 = Some o ->
  c_open o = (if needsReset currentAnchorStart (anchorStartOf options c)
              then 0 else cumulativeCVD).
Proof.
  rewrite cvdLoop_cons. cbn [nth_error]. intros [= <-]. cbn [c_open].
  apply openCVD_inherited.
Qed.

Lemma cvdLoop_consecutive (oneMin : list Bar) (options : Options) :
  forall candles cumulativeCVD currentAnchorStart i c1 c2 o1 o2,
    nth_error candles i = Some c1 ->
    nth_error candles (S i) = Some c2 ->
    nth_error (cvdLoop getAnchorPeriodStart parseInt candles oneMin options
                 cumulativeCVD currentAnchorStart) i = Some o1 ->
    nth_error (cvdLoop getAnchorPeriodStart parseInt candles oneMin options
                 cumulativeCVD currentAnchorStart) (S i) = Some o2 ->
    c_open o2 = (if (anchorStartOf options c2 =? anchorStartOf options c1)%Z
                 then c_close o1 else 0).
Proof.
  induction candles as [|c rest IH]; intros cum cur i c1 c2 o1 o2 H1 H2 Ho1 Ho2.
  - destruct i; discriminate.
  - destruct i as [|i].
    + simpl in H1. injection H1 as ->.
      destruct rest as [|c' rest']; [discriminate|].
      simpl in H2. injection H2 as ->.
      rewrite cvdLoop_cons in Ho1, Ho2. cbn [nth_error] in Ho1, Ho2.
      injection Ho1 as <-.
      apply (cvdLoop_first c2 rest' oneMin options _ _ o2) in Ho2.
      rewrite Ho2. cbn [needsReset c_close].
      destruct (anchorStartOf options c2 =? anchorStartOf options c1)%Z;
        reflexivity.
    + rewrite cvdLoop_cons in Ho1, Ho2. cbn [nth_error] in Ho1, Ho2.
      simpl in H1, H2.
      exact (IH _ _ i c1 c2 o1 o2 H1 H2 Ho1 Ho2).
Qed.

Lemma cvdLoop_flat (oneMin : list Bar) (options : Options) :
  forall candles cumulativeCVD currentAnchorStart i c o,
    nth_error candles i = Some c ->
    nth_error (cvdLoop getAnchorPeriodStart parseInt candles oneMin options
                 cumulativeCVD currentAnchorStart) i = Some o ->
    relevantOneMinCandles parseInt oneMin options c = [] ->
    c_high o = c_open o /\ c_low o = c_open o /\ c_close o = c_open o.
Proof.
  induction candles as [|c0 rest IH]; intros cum cur i c o Hc Ho Hrel.
  - destruct i; discriminate.
  - destruct i as [|i].
    + simpl in Hc. injection Hc as ->.
      rewrite cvdLoop_cons in Ho. cbn [nth_error] in Ho. injection Ho as <-.
      rewrite Hrel. cbn. repeat split; reflexivity.
    + rewrite cvdLoop_cons in Ho. cbn [nth_error] in Ho. simpl in Hc.
      exact (IH _ _ i c o Hc Ho Hrel).
Qed.

(** C4.  [calculateCVD] returns one candle per target candle.  The first
    candle opens at 0; a candle in the same anchor period as its predecessor
    opens at the predecessor's close; a candle whose anchor start differs
    from its predecessor's opens at 0; and a candle whose window holds no
    1-minute bar has high, low and close equal to its (inherited) open. *)
Theorem calculateCVD_continuity (candles oneMin : list Bar) (options : Options) :
  let out := calculateCVD getAnchorPeriodStart parseInt candles oneMin options in
  List.length out = List.length candles
  /\ (forall o, nth_error out 0 = Some o -> c_open o = 0)
  /\ (forall i c1 c2 o1 o2,
        nth_error candles i = Some c1 -> nth_error candles (S i) = Some c2 ->
        nth_error out i = Some o1 -> nth_error out (S i) = Some o2 ->
        (anchorStartOf options c2 = anchorStartOf options c1 ->
         c_open o2 = c_close o1)
        /\ (anchorStartOf options c2 <> anchorStartOf options c1 ->
            c_open o2 = 0))
  /\ (forall i c o,
        nth_error candles i = Some c -> nth_error out i = Some o ->
        relevantOneMinCandles parseInt oneMin options c = [] ->
        c_high o = c_open o /\ c_low o = c_open o /\ c_close o = c_open o).
Proof.
  intro out. subst out. unfold calculateCVD.
  split; [apply cvdLoop_length|].
  split.
  { intros o Ho. destruct candles as [|c rest]; [discriminate|].
    apply cvdLoop_first in Ho. exact Ho. }
  split.
  { intros i c1 c2 o1 o2 H1 H2 Ho1 Ho2.
    pose proof (cvdLoop_consecutive oneMin options candles 0 None i c1 c2 o1 o2
                  H1 H2 Ho1 Ho2) as E.
    split; intro Ha.
    - rewrite Ha, Z.eqb_refl in E. exact E.
    - apply Z.eqb_neq in Ha. rewrite Ha in E. exact E. }
  intros i c o Hc Ho Hrel.
  exact (cvdLoop_flat oneMin options candles 0 None i c o Hc Ho Hrel).
Qed.

End Continuity.

Lemma calculateCVD_continuity_witness :
  let out := calculateCVD dayAnchor parseDigit5 sessionCandles sessionMinutes
               (mkOptions None None) in
  exists o1 o2 o3,
    nth_error out 0 = Some o1 /\ nth_error out 1 = Some o2
    /\ nth_error out 2 = Some o3
    /\ c_open o1 = 0 /\ c_open o2 = c_close o1 /\ c_open o3 = 0
    /\ c_high o2 = c_open o2 /\ c_low o2 = c_open o2 /\ c_close o2 = c_open o2.
Proof.
  intro out.
  destruct (calculateCVD_continuity dayAnchor parseDigit5 sessionCandles
              sessionMinutes (mkOptions None None))
    as [_ [Hfirst [Hnext Hflat]]].
  fold out in Hfirst, Hnext, Hflat.
  eexists. eexists. eexists.
  split; [reflexivity|]. split; [reflexivity|]. split; [reflexivity|].
  split; [exact (Hfirst _ eq_refl)|].
  split; [exact (proj1 (Hnext 0%nat _ _ _ _ eq_refl eq_refl eq_refl eq_refl) eq_refl)|].
  split.
  { apply (proj2 (Hnext 1%nat _ _ _ _ eq_refl eq_refl eq_refl eq_refl)).
    discriminate. }
  exact (Hflat 1%nat _ _ eq_refl eq_refl eq_refl).
Defined.

End CVDProps.

(** ** RSI *)

Module RSIProps.
Import RSI.

Lemma gainOf_nonneg (change : Q) : 0 <= gainOf change.
Proof.
  unfold gainOf. destruct (Qltb 0 change) eqn:E.
  - apply Qltb_lt in E. apply Qlt_le_weak. exact E.
  - apply Qle_refl.
Qed.

Lemma lossOf_nonneg (change : Q) : 0 <= lossOf change.
Proof.
  unfold lossOf. destruct (Qltb change 0); [apply Qabs_nonneg | apply Qle_refl].
Qed.

Lemma fold_plus_nonneg (l : list Q) :
  Forall (fun x => 0 <= x) l -> forall acc, 0 <= acc -> 0 <= fold_left Qplus l acc.
Proof.
  induction 1 as [|x l Hx _ IH]; intros acc Hacc; simpl; [exact Hacc|].
  apply IH. rewrite <- (Qplus_0_r 0). apply Qplus_le_compat; assumption.
Qed.

Lemma sum_firstn_nonneg (n : nat) (l : list Q) :
  Forall (fun x => 0 <= x) l -> 0 <= sum (firstn n l).
Proof.
  intro H. unfold sum. apply fold_plus_nonneg; [|apply Qle_refl].
  rewrite Forall_forall in *. intros x Hx. apply H.
  rewrite <- (firstn_skipn n l). apply in_or_app. left. exact Hx.
Qed.

Lemma average_nonneg (s : Q) (period : positive) :
  0 <= s -> 0 <= s / inject_Z (Zpos period).
Proof.
  intro Hs. apply Qle_shift_div_l.
  - reflexivity.
  - rewrite Qmult_0_l. exact Hs.
Qed.

(** The unclamped formula already lies in [0, 100] for non-negative averages. *)
Lemma rsiOf_bounds (avgGain avgLoss : Q) :
  0 <= avgGain -> 0 <= avgLoss ->
  0 <= rsiOf avgGain avgLoss /\ rsiOf avgGain avgLoss <= 100.
Proof.
  intros Hg Hl. unfold rsiOf.
  destruct (Qeq_bool avgLoss 0) eqn:El.
  - destruct (Qeq_bool avgGain 0); split; discriminate.
  - apply Qeq_bool_false in El.
    assert (Hlpos : 0 < avgLoss).
    { apply Qle_lt_or_eq in Hl. destruct Hl as [Hl | Hl]; [exact Hl|].
      exfalso. apply El. symmetry. exact Hl. }
    assert (Hrs : 0 <= avgGain / avgLoss).
    { apply Qle_shift_div_l; [exact Hlpos|]. rewrite Qmult_0_l. exact Hg. }
    set (rs := avgGain / avgLoss) in *.
    assert (Hden : 0 < 1 + rs) by lra.
    assert (Hq1 : 0 <= 100 / (1 + rs)).
    { apply Qle_shift_div_l; [exact Hden|]. lra. }
    assert (Hq2 : 100 / (1 + rs) <= 100).
    { apply Qle_shift_div_r; [exact Hden|]. lra. }
    split; lra.
Qed.

Lemma clamp_bounds (rsi : Q) : 0 <= clamp rsi /\ clamp rsi <= 100.
Proof.
  unfold clamp. split.
  - apply Q.le_max_l.
  - apply Q.max_lub; [discriminate | apply Q.le_min_l].
Qed.

Lemma pushAt_inRange (data : list Bar) (k : nat) (rsi : Q) :
  0 <= rsi /\ rsi <= 100 -> Forall inRange (pushAt data k rsi).
Proof.
  intro H. unfold pushAt. destruct (nth_error data k); constructor.
  - exact H.
  - constructor.
Qed.

Lemma smoothLoop_inRange (data : list Bar) (gains losses : list Q) (period : Q) :
  forall todo i avgGain avgLoss,
    Forall inRange (smoothLoop data gains losses period todo i avgGain avgLoss).
Proof.
  induction todo as [|todo IH]; intros i avgGain avgLoss; simpl.
  - constructor.
  - apply Forall_app. split; [|apply IH].
    apply pushAt_inRange. apply clamp_bounds.
Qed.

(** C5.  Every value of the series returned by [calculateRSI], the first
    (unclamped) one included, lies between 0 and 100. *)
Theorem calculateRSI_bounds (data : list Bar) (period : positive) :
  Forall (fun p => 0 <= value p /\ value p <= 100) (calculateRSI data period).
Proof.
  change (Forall inRange (calculateRSI data period)).
  unfold calculateRSI.
  destruct (List.length data <=? Pos.to_nat period)%nat; [constructor|].
  apply Forall_app. split; [|apply smoothLoop_inRange].
  apply pushAt_inRange. apply rsiOf_bounds.
  - apply average_nonneg. apply sum_firstn_nonneg.
    apply Forall_forall. intros x Hx. apply in_map_iff in Hx.
    destruct Hx as [c [<- _]]. apply gainOf_nonneg.
  - apply average_nonneg. apply sum_firstn_nonneg.
    apply Forall_forall. intros x Hx. apply in_map_iff in Hx.
    destruct Hx as [c [<- _]]. apply lossOf_nonneg.
Qed.

(** On a strictly rising series the average loss stays 0: six values, one
    per bar after the warm-up of 14, all equal to 100. *)
Example calculateRSI_rising :
  map value (calculateRSI risingBars 14) = [100; 100; 100; 100; 100; 100]
  /\ map p_time (calculateRSI risingBars 14) = [840; 900; 960; 1020; 1080; 1140]%Z.
Proof. split; vm_compute; reflexivity. Qed.

End RSIProps.

(** ** FRVP: point of control and errors *)

Module POCProps.
Import FRVP.

Lemma pickMax_self (r : Row) : pickMax r r = r.
Proof. unfold pickMax. destruct (Qltb _ _); reflexivity. Qed.

Lemma firstMaxOf_step (seen : list Row) (m x : Row) (k : nat) :
  firstMaxOf seen m k ->
  exists k', firstMaxOf (seen ++ [x]) (pickMax m x) k'.
Proof.
  intros [Hk [Hmax Hfirst]]. unfold pickMax.
  destruct (Qltb (totalVolume m) (totalVolume x)) eqn:E.
  - apply Qltb_lt in E. exists (List.length seen). repeat split.
    + rewrite nth_error_app2 by lia. rewrite Nat.sub_diag. reflexivity.
    + intros r Hr. apply in_app_or in Hr. destruct Hr as [Hr | [<- | []]].
      * apply Qle_trans with (totalVolume m); [apply Hmax; exact Hr|].
        apply Qlt_le_weak. exact E.
      * apply Qle_refl.
    + intros j r Hj Hr. rewrite nth_error_app1 in Hr by exact Hj.
      apply Qle_lt_trans with (totalVolume m); [|exact E].
      apply Hmax. eapply nth_error_In. exact Hr.
  - apply Qltb_ge in E. exists k.
    assert (Hlt : (k < List.length seen)%nat)
      by (apply nth_error_Some; congruence).
    repeat split.
    + rewrite nth_error_app1 by exact Hlt. exact Hk.
    + intros r Hr. apply in_app_or in Hr. destruct Hr as [Hr | [<- | []]].
      * apply Hmax. exact Hr.
      * exact E.
    + intros j r Hj Hr. rewrite nth_error_app1 in Hr by lia.
      exact (Hfirst j r Hj Hr).
Qed.

Lemma fold_pickMax_firstMax (rest : list Row) :
  forall seen m k,
    firstMaxOf seen m k ->
    exists k', firstMaxOf (seen ++ rest) (fold_left pickMax rest m) k'.
Proof.
  induction rest as [|x rest IH]; intros seen m k H; simpl.
  - rewrite app_nil_r. exists k. exact H.
  - destruct (firstMaxOf_step seen m x k H) as [k1 H1].
    destruct (IH _ _ _ H1) as [k2 H2].
    exists k2. rewrite <- app_assoc in H2. exact H2.
Qed.

Lemma calculatePOC_member (rows : list Row) (poc : Row) :
  calculatePOC rows = Returns poc -> In poc rows.
Proof.
  destruct rows as [|first rest]; [discriminate|].
  unfold calculatePOC. cbn [fold_left]. rewrite pickMax_self. intros [= <-].
  assert (H0 : firstMaxOf [first] first 0).
  { repeat split.
    - intros r [<- | []]. apply Qle_refl.
    - intros j r Hj. lia. }
  destruct (fold_pickMax_firstMax rest [first] first 0%nat H0) as [k [Hk _]].
  eapply nth_error_In. exact Hk.
Qed.

(** C6.  On a non-empty row array [calculatePOC] returns a row of maximum
    [totalVolume], and among the rows of maximum volume the one at the
    smallest position: every earlier row has strictly less volume. *)
Theorem calculatePOC_first_maximum (rows : list Row) :
  rows <> [] ->
  exists poc k,
    calculatePOC rows = Returns poc
    /\ nth_error rows k = Some poc
    /\ (forall r, In r rows -> totalVolume r <= totalVolume poc)
    /\ (forall j r, (j < k)%nat -> nth_error rows j = Some r ->
                    totalVolume r < totalVolume poc).
Proof.
  destruct rows as [|first rest]; [congruence|]. intros _.
  assert (H0 : firstMaxOf [first] first 0).
  { repeat split.
    - intros r [<- | []]. apply Qle_refl.
    - intros j r Hj. lia. }
  destruct (fold_pickMax_firstMax rest [first] first 0%nat H0) as [k [Hk [Hmax Hfirst]]].
  exists (fold_left pickMax rest first), k.
  split; [|repeat split; assumption].
  unfold calculatePOC. cbn [fold_left]. rewrite pickMax_self. reflexivity.
Qed.

Lemma calculatePOC_first_maximum_witness :
  [volumeRow 0 5; volumeRow 1 9; volumeRow 2 9] <> []
  /\ calculatePOC [volumeRow 0 5; volumeRow 1 9; volumeRow 2 9]
     = Returns (volumeRow 1 9).
Proof.
  split; [discriminate|].
  destruct (calculatePOC_first_maximum
              [volumeRow 0 5; volumeRow 1 9; volumeRow 2 9])
    as [poc [k [Hpoc _]]]; [discriminate|].
  rewrite Hpoc. injection Hpoc as <-. reflexivity.
Defined.

(** The developing loop swallows every exception of a prefix computation. *)
Lemma developingLoop_never_throws
    (cp : option (list Bar) -> Config -> Outcome Profile)
    (bars : list Bar) (settings : Config) (step : nat) :
  forall budget i e, developingLoop cp bars settings step budget i <> Throws e.
Proof.
  induction budget as [|budget IH]; intros i e; simpl.
  - destruct (i <=? List.length bars)%nat; discriminate.
  - destruct (i <=? List.length bars)%nat; [|discriminate].
    unfold samplePrefix.
    destruct (cp _ _) as [p | e' | |]; try discriminate.
    + destruct (last _ _);
        (destruct (developingLoop cp bars settings step budget (i + step)) eqn:E;
         [discriminate | exfalso; exact (IH _ _ E) | discriminate | discriminate]).
    + destruct (developingLoop cp bars settings step budget (i + step)) eqn:E;
        [discriminate | exfalso; exact (IH _ _ E) | discriminate | discriminate].
Qed.

(** C7.  [calculateProfile] throws its "no data" [Error] (the
    specification's EmptyInputError) for a missing or empty bar array, and
    [calculatePOC] throws its "no rows" [Error] for an empty row array; a
    non-empty bar array never meets the "no data" throw and a non-empty row
    array makes [calculatePOC] return. *)
Theorem empty_input_throws (depth : nat) (self config : Config) :
  calculateProfile (S depth) self None config
    = Throws (Error "No data provided for FRVP calculation")
  /\ calculateProfile (S depth) self (Some []) config
    = Throws (Error "No data provided for FRVP calculation")
  /\ calculatePOC [] = Throws (Error "No rows provided for POC calculation")
  /\ (forall b bs,
        calculateProfile (S depth) self (Some (b :: bs)) config
        <> Throws (Error "No data provided for FRVP calculation"))
  /\ (forall r rows, exists poc, calculatePOC (r :: rows) = Returns poc).
Proof.
  split; [reflexivity|]. split; [reflexivity|]. split; [reflexivity|].
  split.
  - intros b bs. cbn [calculateProfile]. unfold calculateProfileWith. cbv zeta.
    destruct (createPriceLevelRows _ _ _) as [created|]; [|discriminate].
    destruct (calculatePOC _) as [poc | e | |] eqn:Epoc; try discriminate.
    + destruct (wantsDeveloping _).
      * destruct (calculateDevelopingWith _ _ _) as [d | e | |] eqn:Edev;
          try discriminate.
        -- destruct (calculateValueArea _ _ _) as [[h|] [l|] m]; discriminate.
        -- exfalso. unfold calculateDevelopingWith in Edev.
           exact (developingLoop_never_throws _ _ _ _ _ _ _ Edev).
      * destruct (calculateValueArea _ _ _) as [[h|] [l|] m]; discriminate.
    + unfold calculatePOC in Epoc.
      destruct (distributeVolume _ _); [|discriminate].
      injection Epoc as <-. discriminate.
  - intros r rows. eexists. reflexivity.
Qed.

End POCProps.

(** ** FRVP: value area *)

Module ValueAreaProps.
Import FRVP.

(** *** The choice between the two candidates *)

Lemma chooseRow_side (pocIndex aboveIndex belowIndex : Z)
    (aboveRow belowRow : option Row) (r : Row) (side : Side) :
  chooseRow pocIndex aboveIndex belowIndex aboveRow belowRow = Some (r, side) ->
  match side with
  | Above => aboveRow = Some r
  | Below => belowRow = Some r
  end.
Proof.
  unfold chooseRow.
  destruct aboveRow as [a|], belowRow as [b|]; try discriminate.
  - destruct (Qltb (totalVolume b) (totalVolume a)); [intros [= <- <-]; reflexivity|].
    destruct (Qltb (totalVolume a) (totalVolume b)); [intros [= <- <-]; reflexivity|].
    destruct (_ <? _)%Z; [intros [= <- <-]; reflexivity|].
    destruct (_ <? _)%Z; intros [= <- <-]; reflexivity.
  - intros [= <- <-]. reflexivity.
  - intros [= <- <-]. reflexivity.
Qed.

(** What a pass that stays in the loop does to the state. *)
Lemma expandStep_inv (rows : list Row) (pocIndex : Z) (targetVolume : Q)
    (st st' : VAState) :
  expandStep rows pocIndex targetVolume st = Some st' ->
  exists r side,
    chooseRow pocIndex (aboveIndex st) (belowIndex st)
      (aboveRowOf rows st) (belowRowOf rows st) = Some (r, side)
    /\ accumulatedVolume st < targetVolume
    /\ accumulatedVolume st + totalVolume r <= targetVolume
    /\ st' = mkVAState (accumulatedVolume st + totalVolume r)
               (setAdd (index r) (members st))
               (match side with
                | Above => aboveIndex st - 1 | Below => aboveIndex st end)%Z
               (match side with
                | Above => belowIndex st | Below => belowIndex st + 1 end)%Z.
Proof.
  unfold expandStep. destruct (continues rows targetVolume st) eqn:Ec; [|discriminate].
  destruct (chooseRow _ _ _ _ _) as [[r side]|]; [|discriminate].
  destruct (Qltb targetVolume _) eqn:Eo; [discriminate|].
  intros [= <-]. exists r, side.
  unfold continues in Ec. apply andb_true_iff in Ec. destruct Ec as [Ec _].
  apply Qltb_lt in Ec. apply Qltb_ge in Eo.
  repeat split; assumption.
Qed.

(** C2.  In a pass of the expansion loop the candidate is chosen thus: a
    lone candidate is taken; of two, the one of strictly greater
    [totalVolume]; at equal volume the one nearer the POC by index distance;
    at equal distance the above-side one (cursor [pocIndex - 1] downwards).
    A pass that stays in the loop adds exactly that row and advances the
    cursor of its side. *)
Theorem expansion_choice (rows : list Row) (pocIndex : Z) (targetVolume : Q)
    (st : VAState) :
  let chosen :=
    chooseRow pocIndex (aboveIndex st) (belowIndex st)
      (aboveRowOf rows st) (belowRowOf rows st) in
  (forall a, aboveRowOf rows st = Some a -> belowRowOf rows st = None ->
             chosen = Some (a, Above))
  /\ (forall b, aboveRowOf rows st = None -> belowRowOf rows st = Some b ->
                chosen = Some (b, Below))
  /\ (forall a b, aboveRowOf rows st = Some a -> belowRowOf rows st = Some b ->
        (totalVolume b < totalVolume a -> chosen = Some (a, Above))
        /\ (totalVolume a < totalVolume b -> chosen = Some (b, Below))
        /\ (totalVolume a == totalVolume b ->
            (pocIndex - aboveIndex st < belowIndex st - pocIndex ->
             chosen = Some (a, Above))
            /\ (belowIndex st - pocIndex < pocIndex - aboveIndex st ->
                chosen = Some (b, Below))
            /\ (pocIndex - aboveIndex st = belowIndex st - pocIndex ->
                chosen = Some (a, Above)))%Z)
  /\ (forall st', expandStep rows pocIndex targetVolume st = Some st' ->
        exists r side,
          chosen = Some (r, side)
          /\ accumulatedVolume st' = accumulatedVolume st + totalVolume r
          /\ members st' = setAdd (index r) (members st)
          /\ match side with
             | Above => aboveIndex st' = aboveIndex st - 1
                        /\ belowIndex st' = belowIndex st
             | Below => aboveIndex st' = aboveIndex st
                        /\ belowIndex st' = belowIndex st + 1
             end%Z).
Proof.
  intro chosen. subst chosen.
  split; [intros a -> ->; reflexivity|].
  split; [intros b -> ->; reflexivity|].
  split.
  - intros a b -> ->. unfold chooseRow. split; [|split].
    + intro H. apply Qltb_lt in H. rewrite H. reflexivity.
    + intro H.
      assert (Hge : Qltb (totalVolume b) (totalVolume a) = false)
        by (apply Qltb_ge; apply Qlt_le_weak; exact H).
      rewrite Hge. apply Qltb_lt in H. rewrite H. reflexivity.
    + intro H.
      rewrite (Qltb_irrefl_eq (totalVolume b) (totalVolume a)) by (symmetry; exact H).
      rewrite (Qltb_irrefl_eq (totalVolume a) (totalVolume b)) by exact H.
      split; [|split]; intro Hd.
      * apply Z.ltb_lt in Hd. rewrite Hd. reflexivity.
      * assert (Hn : (pocIndex - aboveIndex st <? belowIndex st - pocIndex)%Z = false)
          by (apply Z.ltb_ge; lia).
        rewrite Hn. apply Z.ltb_lt in Hd. rewrite Hd. reflexivity.
      * rewrite Hd, Z.ltb_irrefl. reflexivity.
  - intros st' Hstep. apply expandStep_inv in Hstep.
    destruct Hstep as [r [side [Hc [_ [_ ->]]]]].
    exists r, side. split; [exact Hc|]. cbn.
    destruct side; repeat split; reflexivity.
Qed.

Lemma expansion_choice_witness :
  aboveRowOf threeRows atPoc1 = nth_error threeRows 0
  /\ belowRowOf threeRows atPoc1 = nth_error threeRows 2
  /\ chooseRow 1 (aboveIndex atPoc1) (belowIndex atPoc1)
       (aboveRowOf threeRows atPoc1) (belowRowOf threeRows atPoc1)
     = Some (mkRow 0 10 11 (21 # 2) 0 40 40 (-40), Above).
Proof.
  split; [reflexivity|]. split; [reflexivity|].
  destruct (expansion_choice threeRows 1 98 atPoc1) as [_ [_ [Hboth _]]].
  apply (proj2 (proj2 (Hboth _ _ eq_refl eq_refl))); reflexivity.
Defined.

(** *** Sets, positions and candidates *)

Lemma setAdd_In (i j : Z) (s : list Z) : In i (setAdd j s) <-> i = j \/ In i s.
Proof.
  unfold setAdd. destruct (existsb (Z.eqb j) s) eqn:E.
  - split; [intro H; right; exact H|]. intros [-> | H]; [|exact H].
    apply existsb_exists in E. destruct E as [x [Hx Hjx]].
    apply Z.eqb_eq in Hjx. subst. exact Hx.
  - rewrite in_app_iff. simpl. split.
    + intros [H | [H | []]]; [right; exact H | left; symmetry; exact H].
    + intros [-> | H]; [right; left; reflexivity | left; exact H].
Qed.

Lemma indexOfFrom_found (rows : list Row) (poc : Row) :
  In poc rows ->
  forall i, exists j,
    nth_error rows j = Some poc /\ indexOfFrom rows poc i = (i + Z.of_nat j)%Z.
Proof.
  induction rows as [|a rows IH]; intros Hin i; [destruct Hin|].
  simpl. destruct (Row_eq_dec a poc) as [-> | Hne].
  - exists 0%nat. split; [reflexivity | lia].
  - destruct Hin as [-> | Hin]; [congruence|].
    destruct (IH Hin (i + 1)%Z) as [j [Hj Hv]].
    exists (S j). split; [exact Hj | rewrite Hv; lia].
Qed.

Lemma indexOfFrom_range (rows : list Row) (poc : Row) :
  forall i, (0 <= i)%Z ->
    (indexOfFrom rows poc i = -1
     \/ i <= indexOfFrom rows poc i < i + Z.of_nat (List.length rows))%Z.
Proof.
  induction rows as [|a rows IH]; intros i Hi; simpl; [left; reflexivity|].
  destruct (Row_eq_dec a poc); [right; lia|].
  destruct (IH (i + 1)%Z ltac:(lia)) as [H | H]; [left; exact H | right; lia].
Qed.

Lemma indexOf_range (rows : list Row) (poc : Row) :
  (-1 <= indexOf rows poc < rowsLength rows)%Z.
Proof.
  unfold indexOf, rowsLength.
  destruct (indexOfFrom_range rows poc 0 ltac:(lia)) as [H | H]; lia.
Qed.

Lemma rowAt_Some (rows : list Row) (i : Z) (r : Row) :
  rowAt rows i = Some r ->
  (0 <= i < rowsLength rows)%Z /\ nth_error rows (Z.to_nat i) = Some r.
Proof.
  unfold rowAt, rowsLength. destruct (Z.ltb_spec i 0) as [Hneg | Hpos];
    [discriminate|].
  intro Hnth. split; [|exact Hnth].
  assert (Z.to_nat i < List.length rows)%nat by (apply nth_error_Some; congruence).
  lia.
Qed.

Lemma rowAt_in_range (rows : list Row) (i : Z) :
  (0 <= i < rowsLength rows)%Z -> exists r, rowAt rows i = Some r.
Proof.
  unfold rowAt, rowsLength. intro Hi. destruct (Z.ltb_spec i 0); [lia|].
  destruct (nth_error rows (Z.to_nat i)) as [r|] eqn:E; [exists r; reflexivity|].
  apply nth_error_None in E. lia.
Qed.

Lemma rowAt_index (rows : list Row) (i : Z) (r : Row) :
  wellIndexed rows -> rowAt rows i = Some r -> index r = i.
Proof.
  intros Hwi H. apply rowAt_Some in H. destruct H as [Hi H].
  rewrite (Hwi _ _ H). lia.
Qed.

(** On an array of rows carrying their positions, [indexOf] finds a row of
    the array at the position its [index] field names. *)
Lemma indexOf_poc (rows : list Row) (poc : Row) :
  wellIndexed rows -> In poc rows ->
  rowAt rows (indexOf rows poc) = Some poc /\ index poc = indexOf rows poc.
Proof.
  intros Hwi Hin. unfold indexOf.
  destruct (indexOfFrom_found rows poc Hin 0) as [j [Hj ->]].
  assert (Hr : rowAt rows (0 + Z.of_nat j) = Some poc).
  { unfold rowAt. destruct (Z.ltb_spec (0 + Z.of_nat j) 0); [lia|].
    replace (Z.to_nat (0 + Z.of_nat j)) with j by lia. exact Hj. }
  split; [exact Hr | exact (rowAt_index _ _ _ Hwi Hr)].
Qed.

Lemma aboveRowOf_Some (rows : list Row) (st : VAState) (r : Row) :
  aboveRowOf rows st = Some r ->
  (0 <= aboveIndex st)%Z /\ rowAt rows (aboveIndex st) = Some r.
Proof.
  unfold aboveRowOf. destruct (Z.leb_spec 0 (aboveIndex st)) as [Hle | Hgt];
    [|discriminate].
  intro Hr. split; assumption.
Qed.

Lemma belowRowOf_Some (rows : list Row) (st : VAState) (r : Row) :
  belowRowOf rows st = Some r ->
  (belowIndex st < rowsLength rows)%Z /\ rowAt rows (belowIndex st) = Some r.
Proof.
  unfold belowRowOf.
  destruct (Z.ltb_spec (belowIndex st) (rowsLength rows)) as [Hlt | Hge];
    [|discriminate].
  intro Hr. split; assumption.
Qed.

(** The cursor of the chosen side pointed at the chosen row. *)
Lemma expandStep_cursor (rows : list Row) (pocIndex : Z) (targetVolume : Q)
    (st st' : VAState) :
  expandStep rows pocIndex targetVolume st = Some st' ->
  exists r,
    accumulatedVolume st' = accumulatedVolume st + totalVolume r
    /\ members st' = setAdd (index r) (members st)
    /\ ((rowAt rows (aboveIndex st) = Some r /\ (0 <= aboveIndex st)%Z
         /\ aboveIndex st' = (aboveIndex st - 1)%Z
         /\ belowIndex st' = belowIndex st)
        \/ (rowAt rows (belowIndex st) = Some r
            /\ (belowIndex st < rowsLength rows)%Z
            /\ aboveIndex st' = aboveIndex st
            /\ belowIndex st' = (belowIndex st + 1)%Z)).
Proof.
  intro H. apply expandStep_inv in H.
  destruct H as [r [side [Hc [_ [_ ->]]]]].
  apply chooseRow_side in Hc. exists r. cbn.
  split; [reflexivity|]. split; [reflexivity|].
  destruct side.
  - apply aboveRowOf_Some in Hc. left. intuition.
  - apply belowRowOf_Some in Hc. right. intuition.
Qed.

(** *** The loop: termination and invariants *)

Section Loop.

Variable rows : list Row.
Variable pocIndex : Z.
Variable targetVolume : Q.

Lemma remaining_step (st st' : VAState) :
  expandStep rows pocIndex targetVolume st = Some st' ->
  remaining rows st' = (remaining rows st - 1)%Z.
Proof.
  intro H. apply expandStep_cursor in H.
  destruct H as [r [_ [_ [[_ [Ha [E1 E2]]] | [_ [Hb [E1 E2]]]]]]];
    unfold remaining; rewrite E1, E2; lia.
Qed.

Lemma remaining_zero (st : VAState) :
  (remaining rows st <= 0)%Z -> expandStep rows pocIndex targetVolume st = None.
Proof.
  unfold remaining. intro H. unfold expandStep, continues.
  destruct (Z.leb_spec 0 (aboveIndex st)); [lia|].
  destruct (Z.ltb_spec (belowIndex st) (rowsLength rows)); [lia|].
  rewrite andb_false_r. reflexivity.
Qed.

(** With as many passes allowed as rows remain, the loop has been left. *)
Lemma expandLoop_exits_from (n : nat) :
  forall st, (remaining rows st <= Z.of_nat n)%Z ->
    expandStep rows pocIndex targetVolume
      (expandLoop rows pocIndex targetVolume n st) = None.
Proof.
  induction n as [|n IH]; intros st Hm; simpl.
  - apply remaining_zero. lia.
  - destruct (expandStep rows pocIndex targetVolume st) as [st'|] eqn:E; [|exact E].
    apply IH. rewrite (remaining_step _ _ E). lia.
Qed.

(** Properties kept by every pass are kept by the loop. *)
Lemma expandLoop_ind (P : VAState -> Prop) :
  (forall st st', P st -> expandStep rows pocIndex targetVolume st = Some st' -> P st') ->
  forall n st, P st -> P (expandLoop rows pocIndex targetVolume n st).
Proof.
  intros Hstep. induction n as [|n IH]; intros st HP; simpl; [exact HP|].
  destruct (expandStep rows pocIndex targetVolume st) as [st'|] eqn:E; [|exact HP].
  apply IH. exact (Hstep _ _ HP E).
Qed.

Lemma spans_step (st st' : VAState) :
  wellIndexed rows ->
  spans rows pocIndex st ->
  expandStep rows pocIndex targetVolume st = Some st' ->
  spans rows pocIndex st'.
Proof.
  intros Hwi [Ha [Hb Hm]] H. apply expandStep_cursor in H.
  destruct H as [r [_ [Hmem [[Hr [H0 [E1 E2]]] | [Hr [H0 [E1 E2]]]]]]];
    pose proof (rowAt_index _ _ _ Hwi Hr) as Hidx;
    unfold spans; rewrite E1, E2, Hmem, Hidx;
    (split; [lia|]); (split; [lia|]);
    intro i; rewrite setAdd_In, Hm; lia.
Qed.

End Loop.

Lemma remaining_initial (rows : list Row) (poc : Row) :
  (remaining rows (initialState rows poc) <= Z.of_nat (List.length rows))%Z.
Proof.
  unfold remaining, initialState. cbn.
  pose proof (indexOf_range rows poc) as H. unfold rowsLength in *. lia.
Qed.

(** The state [calculateValueArea] reads after the loop is a state in which
    the loop has indeed been left. *)
Lemma expandLoop_exits (rows : list Row) (poc : Row) (vaPercentage : Q) :
  expandStep rows (indexOf rows poc) (targetVolumeOf rows vaPercentage)
    (finalState rows poc vaPercentage) = None.
Proof.
  unfold finalState. apply expandLoop_exits_from. apply remaining_initial.
Qed.

Lemma spans_initial (rows : list Row) (poc : Row) :
  wellIndexed rows -> In poc rows ->
  spans rows (indexOf rows poc) (initialState rows poc).
Proof.
  intros Hwi Hin. destruct (indexOf_poc rows poc Hwi Hin) as [Hr Hidx].
  pose proof (indexOf_range rows poc) as Hrange.
  apply rowAt_Some in Hr. destruct Hr as [Hr _].
  unfold spans, initialState. cbn. rewrite Hidx.
  split; [lia|]. split; [lia|].
  intro i. split; [intros [<- | []]; lia | intro; left; lia].
Qed.

Lemma spans_final (rows : list Row) (poc : Row) (vaPercentage : Q) :
  wellIndexed rows -> In poc rows ->
  spans rows (indexOf rows poc) (finalState rows poc vaPercentage).
Proof.
  intros Hwi Hin. unfold finalState. apply expandLoop_ind.
  - intros st st' Hs Hstep. exact (spans_step _ _ _ _ _ Hwi Hs Hstep).
  - apply spans_initial; assumption.
Qed.

(** Members are only ever added. *)
Lemma members_kept (rows : list Row) (pocIndex : Z) (targetVolume : Q) (i : Z) :
  forall n st, In i (members st) ->
    In i (members (expandLoop rows pocIndex targetVolume n st)).
Proof.
  apply (expandLoop_ind rows pocIndex targetVolume (fun st => In i (members st))).
  intros st st' Hi Hstep. apply expandStep_cursor in Hstep.
  destruct Hstep as [r [_ [-> _]]]. apply setAdd_In. right. exact Hi.
Qed.

(** *** Sorting by price *)

Lemma insertDesc_perm (x : Row) (l : list Row) :
  Permutation (x :: l) (insertDesc x l).
Proof.
  induction l as [|y l IH]; simpl; [apply Permutation_refl|].
  destruct (Qltb (priceLevel y) (priceLevel x)); [apply Permutation_refl|].
  eapply perm_trans; [apply perm_swap | apply perm_skip; exact IH].
Qed.

Lemma insertDesc_sorted (x : Row) (l : list Row) :
  descending l -> descending (insertDesc x l).
Proof.
  induction 1 as [|y l Hs IH Hall]; simpl.
  - constructor; constructor.
  - destruct (Qltb (priceLevel y) (priceLevel x)) eqn:E.
    + apply Qltb_lt in E. constructor.
      * constructor; assumption.
      * constructor; [apply Qlt_le_weak; exact E|].
        eapply Forall_impl; [|exact Hall]. cbn. intros z Hz.
        apply Qle_trans with (priceLevel y); [exact Hz | apply Qlt_le_weak; exact E].
    + apply Qltb_ge in E. constructor; [exact IH|].
      apply Forall_forall. intros z Hz.
      apply (Permutation_in _ (Permutation_sym (insertDesc_perm x l))) in Hz.
      destruct Hz as [<- | Hz]; [exact E|].
      rewrite Forall_forall in Hall. exact (Hall z Hz).
Qed.

Lemma sortDesc_from_sorted (l : list Row) :
  forall sorted, descending sorted ->
    descending (fold_left (fun sorted x => insertDesc x sorted) l sorted).
Proof.
  induction l as [|x l IH]; intros sorted H; simpl; [exact H|].
  apply IH. apply insertDesc_sorted. exact H.
Qed.

Lemma sortDesc_from_perm (l : list Row) :
  forall sorted,
    Permutation (sorted ++ l)
      (fold_left (fun sorted x => insertDesc x sorted) l sorted).
Proof.
  induction l as [|x l IH]; intros sorted; simpl.
  - rewrite app_nil_r. apply Permutation_refl.
  - eapply perm_trans; [|apply IH].
    eapply perm_trans; [apply Permutation_sym, Permutation_middle|].
    apply (Permutation_app_tail l (insertDesc_perm x sorted)).
Qed.

Lemma sortDesc_sorted (l : list Row) : descending (sortDesc l).
Proof. apply sortDesc_from_sorted. constructor. Qed.

Lemma sortDesc_perm (l : list Row) : Permutation l (sortDesc l).
Proof. exact (sortDesc_from_perm l []). Qed.

Lemma descending_head (h : Row) (t : list Row) :
  descending (h :: t) -> forall r, In r (h :: t) -> priceLevel r <= priceLevel h.
Proof.
  intros H r [<- | Hr]; [apply Qle_refl|].
  apply StronglySorted_inv in H. destruct H as [_ Hall].
  rewrite Forall_forall in Hall. exact (Hall r Hr).
Qed.

Lemma last_In (l : list Row) (d : Row) : l <> [] -> In (last l d) l.
Proof.
  induction l as [|y l IH]; [congruence|]. intros _.
  destruct l as [|z l]; [left; reflexivity|].
  right. apply IH. discriminate.
Qed.

Lemma descending_last (l : list Row) (d : Row) :
  descending l -> forall r, In r l -> priceLevel (last l d) <= priceLevel r.
Proof.
  induction 1 as [|y l Hs IH Hall]; intros r Hr; [destruct Hr|].
  destruct l as [|z l].
  - destruct Hr as [<- | []]. apply Qle_refl.
  - change (last (y :: z :: l) d) with (last (z :: l) d).
    destruct Hr as [<- | Hr]; [|exact (IH r Hr)].
    rewrite Forall_forall in Hall. apply Hall. apply last_In. discriminate.
Qed.

Lemma nth_error_last (l : list Row) (d : Row) :
  l <> [] -> nth_error l (List.length l - 1) = Some (last l d).
Proof.
  induction l as [|y l IH]; [congruence|]. intros _.
  destruct l as [|z l]; [reflexivity|].
  change (last (y :: z :: l) d) with (last (z :: l) d).
  rewrite <- IH by discriminate. cbn [List.length].
  replace (S (S (List.length l)) - 1)%nat with (S (S (List.length l) - 1)) by lia.
  reflexivity.
Qed.

Lemma entryAt_map_Some (l : list Row) (i : nat) :
  entryAt (map Some l) i = nth_error l i.
Proof.
  unfold entryAt. rewrite nth_error_map. destruct (nth_error l i); reflexivity.
Qed.

Lemma In_definedRows (l : list (option Row)) (r : Row) :
  In r (definedRows l) <-> In (Some r) l.
Proof.
  induction l as [|[x|] l IH]; simpl.
  - tauto.
  - rewrite IH. split; (intros [H | H]; [left; congruence | right; exact H]).
  - rewrite IH. split; [intro H; right; exact H|].
    intros [H | H]; [discriminate | exact H].
Qed.

Lemma filter_isUndefined_none (l : list (option Row)) :
  (forall x, In x l -> x <> None) -> filter isUndefined l = [].
Proof.
  induction l as [|[x|] l IH]; intro H; simpl.
  - reflexivity.
  - apply IH. intros y Hy. apply H. right. exact Hy.
  - exfalso. apply (H None); [left|]; reflexivity.
Qed.

(** The first and the last entry of the sorted array of an all-defined,
    non-empty array bound the prices of its rows. *)
Lemma sortByPriceDesc_extremes (l : list (option Row)) :
  l <> [] -> (forall x, In x l -> x <> None) ->
  exists h lo,
    entryAt (sortByPriceDesc l) 0 = Some h
    /\ entryAt (sortByPriceDesc l) (List.length (sortByPriceDesc l) - 1) = Some lo
    /\ In (Some h) l /\ In (Some lo) l
    /\ (forall r, In (Some r) l ->
          priceLevel lo <= priceLevel r /\ priceLevel r <= priceLevel h).
Proof.
  intros Hne Hdef. unfold sortByPriceDesc.
  rewrite (filter_isUndefined_none l Hdef), app_nil_r, length_map.
  rewrite !entryAt_map_Some.
  pose proof (sortDesc_sorted (definedRows l)) as Hsorted.
  pose proof (sortDesc_perm (definedRows l)) as Hperm.
  assert (Hin : forall r, In r (sortDesc (definedRows l)) <-> In (Some r) l).
  { intro r. rewrite <- In_definedRows. split; intro H.
    - exact (Permutation_in _ (Permutation_sym Hperm) H).
    - exact (Permutation_in _ Hperm H). }
  destruct (sortDesc (definedRows l)) as [|h t] eqn:Es.
  - exfalso. destruct l as [|[x|] l]; [congruence | |].
    + apply (proj2 (Hin x)). left. reflexivity.
    + apply (Hdef None); [left|]; reflexivity.
  - assert (Hnn : h :: t <> []) by discriminate.
    exists h, (last (h :: t) h).
    split; [reflexivity|].
    split; [apply nth_error_last; exact Hnn|].
    split; [apply Hin; left; reflexivity|].
    split; [apply Hin; apply last_In; exact Hnn|].
    intros r Hr. apply Hin in Hr. split.
    + apply descending_last; assumption.
    + apply (descending_head h t Hsorted). exact Hr.
Qed.

(** *** The result of [calculateValueArea] *)

(** VAH and VAL are rows of the value area whose prices bound the prices of
    all its rows. *)
Lemma value_area_extremes (rows : list Row) (poc : Row) (vaPercentage : Q) :
  wellIndexed rows -> In poc rows ->
  let va := calculateValueArea rows poc vaPercentage in
  exists h l ih il,
    vah va = Some h /\ val va = Some l
    /\ In ih (valueAreaRows va) /\ rowAt rows ih = Some h
    /\ In il (valueAreaRows va) /\ rowAt rows il = Some l
    /\ (forall i r, In i (valueAreaRows va) -> rowAt rows i = Some r ->
          priceLevel l <= priceLevel r /\ priceLevel r <= priceLevel h).
Proof.
  intros Hwi Hin va. subst va. unfold calculateValueArea.
  destruct (indexOf_poc rows poc Hwi Hin) as [Hpoc Hidx].
  destruct (Qeq_bool (sumTotalVolume rows) 0).
  - exists poc, poc, (index poc), (index poc). cbn.
    rewrite Hidx.
    repeat split; try (left; reflexivity); try exact Hpoc;
      destruct H as [<- | []]; rewrite Hpoc in H0; injection H0 as <-;
      apply Qle_refl.
  - cbn [vah val valueAreaRows].
    pose proof (spans_final rows poc vaPercentage Hwi Hin) as [Ha [Hb Hm]].
    set (st := finalState rows poc vaPercentage) in *.
    assert (Hdef : forall x, In x (map (rowAt rows) (members st)) -> x <> None).
    { intros x Hx. apply in_map_iff in Hx. destruct Hx as [i [<- Hi]].
      apply Hm in Hi.
      destruct (rowAt_in_range rows i ltac:(lia)) as [r ->]. discriminate. }
    assert (Hne : map (rowAt rows) (members st) <> []).
    { assert (Hp : In (indexOf rows poc) (members st)) by (apply Hm; lia).
      destruct (members st); [destruct Hp | discriminate]. }
    destruct (sortByPriceDesc_extremes _ Hne Hdef)
      as [h [l [Hh [Hl [Hhin [Hlin Hbound]]]]]].
    apply in_map_iff in Hhin. destruct Hhin as [ih [Hih Hihm]].
    apply in_map_iff in Hlin. destruct Hlin as [il [Hil Hilm]].
    exists h, l, ih, il. repeat split; try assumption;
      apply Hbound; apply in_map_iff; exists i; split; assumption.
Qed.

(** The value area is an interval of positions around the POC. *)
Lemma value_area_interval (rows : list Row) (poc : Row) (vaPercentage : Q) :
  wellIndexed rows -> In poc rows ->
  exists lo hi,
    (0 <= lo <= index poc /\ index poc <= hi < rowsLength rows)%Z
    /\ (forall i, In i (valueAreaRows (calculateValueArea rows poc vaPercentage))
                  <-> (lo <= i <= hi)%Z).
Proof.
  intros Hwi Hin. unfold calculateValueArea.
  destruct (indexOf_poc rows poc Hwi Hin) as [Hpoc Hidx].
  apply rowAt_Some in Hpoc. destruct Hpoc as [Hrange _].
  destruct (Qeq_bool (sumTotalVolume rows) 0).
  - exists (index poc), (index poc). cbn. split; [lia|].
    intro i. split; [intros [<- | []]; lia | intro; left; lia].
  - cbn [valueAreaRows].
    pose proof (spans_final rows poc vaPercentage Hwi Hin) as [Ha [Hb Hm]].
    set (st := finalState rows poc vaPercentage) in *.
    exists (aboveIndex st + 1)%Z, (belowIndex st - 1)%Z. split; [lia|].
    intro i. rewrite Hm. lia.
Qed.

Lemma poc_is_member (rows : list Row) (poc : Row) (vaPercentage : Q) :
  In (index poc) (valueAreaRows (calculateValueArea rows poc vaPercentage)).
Proof.
  unfold calculateValueArea.
  destruct (Qeq_bool (sumTotalVolume rows) 0); cbn; [left; reflexivity|].
  unfold finalState. apply members_kept. left. reflexivity.
Qed.

(** A state of the loop is within the target unless no row was added. *)
Lemma expandLoop_within (rows : list Row) (pocIndex : Z) (targetVolume : Q) :
  forall n st0,
    accumulatedVolume (expandLoop rows pocIndex targetVolume n st0) <= targetVolume
    \/ expandLoop rows pocIndex targetVolume n st0 = st0.
Proof.
  induction n as [|n IH]; intro st0; simpl; [right; reflexivity|].
  destruct (expandStep rows pocIndex targetVolume st0) as [st'|] eqn:E;
    [|right; reflexivity].
  left. destruct (IH st') as [H | ->]; [exact H|].
  apply expandStep_inv in E. destruct E as [r [side [_ [_ [Hle ->]]]]]. exact Hle.
Qed.

(** C1 (amended).  No pass of the expansion loop adds a row that would push
    the accumulated volume past the target: after every added row the
    accumulation is at most the target, a candidate that would overshoot
    leaves the loop, and so every state of the loop either has an
    accumulation within the target or is still the initial state, whose
    accumulation is the POC's own volume; when that volume is within the
    target the accumulation is within the target throughout.  On return the
    POC's index is in [valueAreaRows], and for rows carrying their positions
    with the POC among them VAH's price is at least VAL's. *)
Theorem value_area_containment (rows : list Row) (poc : Row) (vaPercentage : Q) :
  let target := targetVolumeOf rows vaPercentage in
  let pocIndex := indexOf rows poc in
  let loop n := expandLoop rows pocIndex target n (initialState rows poc) in
  (forall st st', expandStep rows pocIndex target st = Some st' ->
                  accumulatedVolume st' <= target)
  /\ (forall st r side,
        chooseRow pocIndex (aboveIndex st) (belowIndex st)
          (aboveRowOf rows st) (belowRowOf rows st) = Some (r, side) ->
        target < accumulatedVolume st + totalVolume r ->
        expandStep rows pocIndex target st = None)
  /\ (forall n, accumulatedVolume (loop n) <= target
                \/ loop n = initialState rows poc)
  /\ (totalVolume poc <= target ->
      forall n, accumulatedVolume (loop n) <= target)
  /\ In (index poc) (valueAreaRows (calculateValueArea rows poc vaPercentage))
  /\ (wellIndexed rows -> In poc rows ->
      exists h l,
        vah (calculateValueArea rows poc vaPercentage) = Some h
        /\ val (calculateValueArea rows poc vaPercentage) = Some l
        /\ priceLevel l <= priceLevel h).
Proof.
  intros target pocIndex loop.
  assert (Hstep : forall st st', expandStep rows pocIndex target st = Some st' ->
                                 accumulatedVolume st' <= target).
  { intros st st' H. apply expandStep_inv in H.
    destruct H as [r [side [_ [_ [Hle ->]]]]]. exact Hle. }
  split; [exact Hstep|].
  split.
  { intros st r side Hc Hover. unfold expandStep.
    destruct (continues rows target st); [|reflexivity].
    rewrite Hc. apply Qltb_lt in Hover. rewrite Hover. reflexivity. }
  assert (Hloop : forall n, accumulatedVolume (loop n) <= target
                            \/ loop n = initialState rows poc)
    by (intro n; apply expandLoop_within).
  split; [exact Hloop|].
  split.
  { intros Hpoc n. destruct (Hloop n) as [H | ->]; [exact H | exact Hpoc]. }
  split; [apply poc_is_member|].
  intros Hwi Hin.
  destruct (value_area_extremes rows poc vaPercentage Hwi Hin)
    as [h [l [ih [il [Hh [Hl [Hih [Hrh [_ [_ Hbound]]]]]]]]]].
  exists h, l. split; [exact Hh|]. split; [exact Hl|].
  exact (proj1 (Hbound ih h Hih Hrh)).
Qed.

(** C1 as stated fails: with volumes 100 and 10 and a 70% value area the
    target is 77, the accumulation starts at the POC's 100 and the loop
    condition is false at once, so the accumulation read after the loop
    exceeds the target. *)
Lemma accumulation_exceeds_target :
  calculatePOC dominantRows = Returns dominantPoc
  /\ targetVolumeOf dominantRows 70 == 77
  /\ finalState dominantRows dominantPoc 70 = initialState dominantRows dominantPoc
  /\ accumulatedVolume (finalState dominantRows dominantPoc 70) == 100
  /\ ~ (accumulatedVolume (finalState dominantRows dominantPoc 70)
        <= targetVolumeOf dominantRows 70).
Proof.
  split; [vm_compute; reflexivity|]. split; [vm_compute; reflexivity|].
  split; [vm_compute; reflexivity|]. split; [vm_compute; reflexivity|].
  vm_compute. intro H. apply H. reflexivity.
Qed.

Lemma skewedRows_wellIndexed : wellIndexed skewedRows.
Proof.
  intros [|[|[|i]]] r H; cbn in H;
    try (injection H as <-; reflexivity); destruct i; discriminate.
Qed.

Lemma skewedRows_ascending : ascendingPrice skewedRows.
Proof.
  intros i j ri rj Hi Hj Hlt.
  destruct i as [|[|[|i]]], j as [|[|[|j]]]; cbn in Hi, Hj;
    try lia; try discriminate;
    try (injection Hi as <-; injection Hj as <-; reflexivity);
    try (destruct i; discriminate); destruct j; discriminate.
Qed.

Lemma value_area_containment_witness :
  wellIndexed skewedRows /\ In skewedPoc skewedRows
  /\ totalVolume skewedPoc <= targetVolumeOf skewedRows 80
  /\ accumulatedVolume (finalState skewedRows skewedPoc 80)
     <= targetVolumeOf skewedRows 80
  /\ exists h l,
       vah (calculateValueArea skewedRows skewedPoc 80) = Some h
       /\ val (calculateValueArea skewedRows skewedPoc 80) = Some l
       /\ priceLevel l <= priceLevel h.
Proof.
  assert (Hin : In skewedPoc skewedRows) by (right; left; reflexivity).
  assert (Hpoc : totalVolume skewedPoc <= targetVolumeOf skewedRows 80)
    by (vm_compute; discriminate).
  destruct (value_area_containment skewedRows skewedPoc 80)
    as [_ [_ [_ [Hwithin [_ Hprice]]]]].
  split; [exact skewedRows_wellIndexed|]. split; [exact Hin|].
  split; [exact Hpoc|].
  split; [exact (Hwithin Hpoc (List.length skewedRows))|].
  exact (Hprice skewedRows_wellIndexed Hin).
Defined.

(** When prices ascend with the position, or no volume was distributed,
    the extreme rows of an interval value area are its edges. *)
Lemma value_area_edges (rows : list Row) (poc : Row) (vaPercentage : Q)
    (lo hi : Z) :
  wellIndexed rows -> In poc rows ->
  (0 <= lo <= index poc /\ index poc <= hi < rowsLength rows)%Z ->
  (forall i, In i (valueAreaRows (calculateValueArea rows poc vaPercentage))
             <-> (lo <= i <= hi)%Z) ->
  ascendingPrice rows \/ sumTotalVolume rows == 0 ->
  vah (calculateValueArea rows poc vaPercentage) = rowAt rows hi
  /\ val (calculateValueArea rows poc vaPercentage) = rowAt rows lo.
Proof.
  intros Hwi Hin Hr Hiff [Hasc | Hzero].
  2:{ assert (Hva : calculateValueArea rows poc vaPercentage
                    = mkValueArea (Some poc) (Some poc) [index poc]).
      { unfold calculateValueArea. apply Qeq_bool_iff in Hzero. rewrite Hzero.
        reflexivity. }
      rewrite Hva in *. cbn [vah val valueAreaRows] in *.
      assert (Elo : lo = index poc)
        by (destruct (proj2 (Hiff lo) ltac:(lia)) as [E | []]; lia).
      assert (Ehi : hi = index poc)
        by (destruct (proj2 (Hiff hi) ltac:(lia)) as [E | []]; lia).
      destruct (indexOf_poc rows poc Hwi Hin) as [Hp Hidx].
      rewrite Elo, Ehi, Hidx, Hp. split; reflexivity. }
  destruct (value_area_extremes rows poc vaPercentage Hwi Hin)
    as [h [l [ih [il [Hh [Hl [Hih [Hrh [Hil [Hrl Hbound]]]]]]]]]].
  apply Hiff in Hih. apply Hiff in Hil.
  destruct (rowAt_in_range rows hi ltac:(lia)) as [rhi Hrhi].
  destruct (rowAt_in_range rows lo ltac:(lia)) as [rlo Hrlo].
  assert (Hhi : In hi (valueAreaRows (calculateValueArea rows poc vaPercentage)))
    by (apply Hiff; lia).
  assert (Hlo : In lo (valueAreaRows (calculateValueArea rows poc vaPercentage)))
    by (apply Hiff; lia).
  pose proof (proj2 (Hbound hi rhi Hhi Hrhi)) as Htop.
  pose proof (proj1 (Hbound lo rlo Hlo Hrlo)) as Hbot.
  pose proof (rowAt_Some _ _ _ Hrh) as [_ Nh].
  pose proof (rowAt_Some _ _ _ Hrl) as [_ Nl].
  pose proof (rowAt_Some _ _ _ Hrhi) as [_ Nhi].
  pose proof (rowAt_Some _ _ _ Hrlo) as [_ Nlo].
  split.
  - rewrite Hh, <- Hrh.
    destruct (Z.eq_dec ih hi) as [-> | Hne]; [reflexivity|]. exfalso.
    assert (Hlt : (Z.to_nat ih < Z.to_nat hi)%nat) by lia.
    pose proof (Hasc _ _ _ _ Nh Nhi Hlt) as Hstrict.
    exact (Qlt_not_le _ _ Hstrict Htop).
  - rewrite Hl, <- Hrl.
    destruct (Z.eq_dec il lo) as [-> | Hne]; [reflexivity|]. exfalso.
    assert (Hlt : (Z.to_nat lo < Z.to_nat il)%nat) by lia.
    pose proof (Hasc _ _ _ _ Nlo Nl Hlt) as Hstrict.
    exact (Qlt_not_le _ _ Hstrict Hbot).
Qed.

(** C10.  For rows carrying their positions and a POC among them, every
    pass that stays in the loop moves exactly one cursor one step away from
    the POC, and the returned [valueAreaRows] are exactly the positions of
    an interval [lo..hi] that contains the POC's index; when prices ascend
    with the position (or no volume was distributed at all), VAH is the row
    at [hi] and VAL the row at [lo]. *)
Theorem value_area_contiguous (rows : list Row) (poc : Row) (vaPercentage : Q) :
  wellIndexed rows -> In poc rows ->
  let va := calculateValueArea rows poc vaPercentage in
  (forall st st',
      expandStep rows (indexOf rows poc) (targetVolumeOf rows vaPercentage) st
        = Some st' ->
      (aboveIndex st' = aboveIndex st - 1 /\ belowIndex st' = belowIndex st
       \/ aboveIndex st' = aboveIndex st /\ belowIndex st' = belowIndex st + 1)%Z)
  /\ exists lo hi,
      (0 <= lo <= index poc /\ index poc <= hi < rowsLength rows)%Z
      /\ (forall i, In i (valueAreaRows va) <-> (lo <= i <= hi)%Z)
      /\ (ascendingPrice rows \/ sumTotalVolume rows == 0 ->
          vah va = rowAt rows hi /\ val va = rowAt rows lo).
Proof.
  intros Hwi Hin va. split.
  { intros st st' H. apply expandStep_cursor in H.
    destruct H as [r [_ [_ [[_ [_ [E1 E2]]] | [_ [_ [E1 E2]]]]]]]; [left | right];
      split; assumption. }
  destruct (value_area_interval rows poc vaPercentage Hwi Hin) as [lo [hi [Hr Hiff]]].
  fold va in Hiff.
  exists lo, hi. split; [exact Hr|]. split; [exact Hiff|].
  exact (value_area_edges rows poc vaPercentage lo hi Hwi Hin Hr Hiff).
Qed.

Lemma value_area_contiguous_witness :
  wellIndexed skewedRows /\ In skewedPoc skewedRows /\ ascendingPrice skewedRows
  /\ exists lo hi,
      (0 <= lo <= index skewedPoc /\ index skewedPoc <= hi < rowsLength skewedRows)%Z
      /\ (forall i, In i (valueAreaRows (calculateValueArea skewedRows skewedPoc 80))
                    <-> (lo <= i <= hi)%Z)
      /\ vah (calculateValueArea skewedRows skewedPoc 80) = rowAt skewedRows hi
      /\ val (calculateValueArea skewedRows skewedPoc 80) = rowAt skewedRows lo.
Proof.
  assert (Hin : In skewedPoc skewedRows) by (right; left; reflexivity).
  split; [exact skewedRows_wellIndexed|]. split; [exact Hin|].
  split; [exact skewedRows_ascending|].
  destruct (value_area_contiguous skewedRows skewedPoc 80
              skewedRows_wellIndexed Hin)
    as [_ [lo [hi [Hr [Hiff Hedge]]]]].
  exists lo, hi. split; [exact Hr|]. split; [exact Hiff|].
  exact (Hedge (or_introl skewedRows_ascending)).
Defined.

End ValueAreaProps.

(** ** FRVP: volume distribution *)

Module VolumeProps.
Import FRVP.

(** Case analysis on every [Qmax] and [Qmin] in sight, then linear
    arithmetic. *)
Ltac minmax_lra :=
  repeat match goal with
  | |- context [Qmax ?x ?y] =>
      let S := fresh "S" in let m := fresh "m" in
      pose proof (Q.max_spec x y) as S; set (m := Qmax x y) in *; clearbody m;
      destruct S as [[? ?] | [? ?]]
  | |- context [Qmin ?x ?y] =>
      let S := fresh "S" in let m := fresh "m" in
      pose proof (Q.min_spec x y) as S; set (m := Qmin x y) in *; clearbody m;
      destruct S as [[? ?] | [? ?]]
  | H : context [Qmax ?x ?y] |- _ =>
      let S := fresh "S" in let m := fresh "m" in
      pose proof (Q.max_spec x y) as S; set (m := Qmax x y) in *; clearbody m;
      destruct S as [[? ?] | [? ?]]
  | H : context [Qmin ?x ?y] |- _ =>
      let S := fresh "S" in let m := fresh "m" in
      pose proof (Q.min_spec x y) as S; set (m := Qmin x y) in *; clearbody m;
      destruct S as [[? ?] | [? ?]]
  end; lra.

Lemma overlapRange_clip (l h a b : Q) :
  l <= h -> a <= b -> overlapRange l h a b == clip l h b - clip l h a.
Proof. unfold overlapRange, clip. intros Hlh Hab. minmax_lra. Qed.

Lemma clip_proper (l h x y : Q) : x == y -> clip l h x == clip l h y.
Proof. unfold clip. intro E. minmax_lra. Qed.

Lemma clip_outer (l h L H : Q) :
  L <= l -> l <= h -> h <= H -> clip l h H - clip l h L == h - l.
Proof. unfold clip. intros H1 H2 H3. minmax_lra. Qed.

(** *** Sums over rows *)

Lemma fold_sum_from (rows : list Row) :
  forall acc,
    fold_left (fun sum r => sum + totalVolume r) rows acc
    == acc + sumOver totalVolume rows.
Proof.
  induction rows as [|r rows IH]; intro acc; simpl.
  - lra.
  - rewrite IH. lra.
Qed.

Lemma sumTotalVolume_sumOver (rows : list Row) :
  sumTotalVolume rows == sumOver totalVolume rows.
Proof. unfold sumTotalVolume. rewrite fold_sum_from. lra. Qed.

Lemma sumOver_ext (f g : Row -> Q) (rows : list Row) :
  (forall r, In r rows -> f r == g r) -> sumOver f rows == sumOver g rows.
Proof.
  induction rows as [|r rows IH]; intro H; simpl; [reflexivity|].
  rewrite (H r (or_introl eq_refl)), IH; [reflexivity|].
  intros r' Hr'. apply H. right. exact Hr'.
Qed.

Lemma sumOver_scaled (volume d : Q) (w : Row -> Q) (rows : list Row) :
  ~ d == 0 ->
  sumOver (fun r => volume * (w r / d)) rows == volume * (sumOver w rows / d).
Proof.
  intro Hd. induction rows as [|r rows IH]; simpl.
  - field. exact Hd.
  - rewrite IH. field. exact Hd.
Qed.

Lemma addBarToRow_total (bar : Bar) (row : Row) :
  totalVolume (addBarToRow bar row) == totalVolume row + contribution bar row.
Proof.
  unfold addBarToRow, contribution.
  destruct (rangesOverlap _ _ _ _); cbn; lra.
Qed.

Lemma addBarToRow_bounds (bar : Bar) (row : Row) :
  priceLow (addBarToRow bar row) = priceLow row
  /\ priceHigh (addBarToRow bar row) = priceHigh row
  /\ index (addBarToRow bar row) = index row
  /\ priceLevel (addBarToRow bar row) = priceLevel row.
Proof.
  unfold addBarToRow. destruct (rangesOverlap _ _ _ _); cbn; repeat split.
Qed.

Lemma sumOver_addBar (bar : Bar) (rows : list Row) :
  sumOver totalVolume (map (addBarToRow bar) rows)
  == sumOver totalVolume rows + sumOver (contribution bar) rows.
Proof.
  induction rows as [|r rows IH]; simpl; [lra|].
  rewrite IH, addBarToRow_total. lra.
Qed.

(** *** Rows that tile a price range *)

Lemma chained_start (rows : list Row) :
  forall start start' finish,
    start == start' -> chained start rows finish -> chained start' rows finish.
Proof.
  destruct rows as [|r rows]; intros start start' finish E H; simpl in *.
  - rewrite <- E. exact H.
  - destruct H as [H1 H2]. split; [rewrite <- E; exact H1 | exact H2].
Qed.

Lemma chained_addBar (bar : Bar) (rows : list Row) :
  forall start finish,
    chained start rows finish ->
    chained start (map (addBarToRow bar) rows) finish.
Proof.
  induction rows as [|r rows IH]; intros start finish H; simpl in *; [exact H|].
  destruct (addBarToRow_bounds bar r) as [-> [-> _]].
  destruct H as [H1 [H2 H3]]. repeat split; try assumption. apply IH. exact H3.
Qed.

Lemma chained_wellformed (rows : list Row) :
  forall start finish,
    chained start rows finish ->
    forall r, In r rows -> priceLow r <= priceHigh r.
Proof.
  induction rows as [|r0 rows IH]; intros start finish H r Hr; [destruct Hr|].
  destruct H as [_ [H2 H3]]. destruct Hr as [<- | Hr]; [exact H2|].
  exact (IH _ _ H3 r Hr).
Qed.

(** The clipped widths of chained rows telescope. *)
Lemma chained_widths (l h : Q) (rows : list Row) :
  forall start finish,
    chained start rows finish ->
    sumOver (fun r => clip l h (priceHigh r) - clip l h (priceLow r)) rows
    == clip l h finish - clip l h start.
Proof.
  induction rows as [|r rows IH]; intros start finish H; simpl in *.
  - rewrite (clip_proper l h _ _ H). lra.
  - destruct H as [H1 [_ H3]]. rewrite (IH _ _ H3).
    rewrite (clip_proper l h _ _ H1). lra.
Qed.

(** *** What one bar distributes *)

Lemma contribution_width (bar : Bar) (r : Row) :
  low bar < high bar -> priceLow r <= priceHigh r ->
  contribution bar r
  == volume bar
     * ((clip (low bar) (high bar) (priceHigh r)
         - clip (low bar) (high bar) (priceLow r))
        / (high bar - low bar)).
Proof.
  intros Hlh Hab. unfold contribution, calculateOverlapRatio.
  assert (Hpos : Qltb 0 (high bar - low bar) = true) by (apply Qltb_lt; lra).
  rewrite Hpos.
  assert (Hd : ~ high bar - low bar == 0) by lra.
  destruct (rangesOverlap _ _ _ _) eqn:Eo.
  - change (Qmax 0 (Qmin (high bar) (priceHigh r) - Qmax (low bar) (priceLow r)))
      with (overlapRange (low bar) (high bar) (priceLow r) (priceHigh r)).
    rewrite overlapRange_clip by lra. reflexivity.
  - assert (Hw : clip (low bar) (high bar) (priceHigh r)
                 - clip (low bar) (high bar) (priceLow r) == 0).
    { unfold rangesOverlap in Eo. apply andb_false_iff in Eo.
      unfold clip.
      destruct Eo as [Eo | Eo];
        (assert (Hn : ~ _ <= _)
           by (intro Hle; apply Qle_bool_iff in Hle; rewrite Hle in Eo; discriminate Eo));
        apply Qnot_le_lt in Hn; minmax_lra. }
    rewrite Hw. field. exact Hd.
Qed.

Lemma contribution_degenerate (bar : Bar) (r : Row) :
  ~ low bar < high bar -> contribution bar r == 0.
Proof.
  intro Hn. unfold contribution, calculateOverlapRatio.
  assert (Hz : Qltb 0 (high bar - low bar) = false) by (apply Qltb_ge; lra).
  rewrite Hz. destruct (rangesOverlap _ _ _ _); lra.
Qed.

(** Over rows that tile a range containing the bar, the bar's whole
    volume is distributed, unless the bar has no extent. *)
Lemma contribution_sum (bar : Bar) (rows : list Row) (L H : Q) :
  chained L rows H ->
  (low bar < high bar -> L <= low bar /\ high bar <= H) ->
  sumOver (contribution bar) rows == rangedVolume bar.
Proof.
  intros Hch Hin. unfold rangedVolume.
  destruct (Qltb (low bar) (high bar)) eqn:E.
  - apply Qltb_lt in E. destruct (Hin E) as [HL HH].
    assert (Hd : ~ high bar - low bar == 0) by lra.
    rewrite (sumOver_ext _
               (fun r => volume bar
                         * ((clip (low bar) (high bar) (priceHigh r)
                             - clip (low bar) (high bar) (priceLow r))
                            / (high bar - low bar)))).
    + rewrite (sumOver_scaled (volume bar) (high bar - low bar)
                 (fun r => clip (low bar) (high bar) (priceHigh r)
                           - clip (low bar) (high bar) (priceLow r)) rows Hd).
      rewrite (chained_widths _ _ _ _ _ Hch).
      rewrite clip_outer by lra. field. exact Hd.
    + intros r Hr. apply contribution_width; [exact E|].
      exact (chained_wellformed _ _ _ Hch r Hr).
  - apply Qltb_ge in E.
    rewrite (sumOver_ext _ (fun _ => 0)).
    + clear. induction rows as [|r rows IH]; simpl; [reflexivity | rewrite IH; lra].
    + intros r _. apply contribution_degenerate. lra.
Qed.

(** [distributeVolume] over rows that tile a range containing every bar. *)
Lemma distributeVolume_total (L H : Q) (bars : list Bar) :
  (forall bar, In bar bars -> low bar < high bar -> L <= low bar /\ high bar <= H) ->
  forall rows,
    chained L rows H ->
    sumOver totalVolume (distributeVolume bars rows)
    == sumOver totalVolume rows + totalRangedVolume bars.
Proof.
  unfold distributeVolume.
  induction bars as [|bar bars IH]; intros Hin rows Hch; simpl; [lra|].
  rewrite IH.
  - rewrite sumOver_addBar.
    rewrite (contribution_sum bar rows L H Hch (Hin bar (or_introl eq_refl))).
    lra.
  - intros b Hb. apply Hin. right. exact Hb.
  - apply chained_addBar. exact Hch.
Qed.

(** *** The rows of [createPriceLevelRows] tile the profile range *)

Section Tiling.

Variables low high numRows : Q.
Hypothesis range_positive : low < high.
Hypothesis at_least_one : 1 <= numRows.

Let actualRowSize : Q := (high - low) / numRows.
Let count : nat := Z.to_nat (Qceiling numRows).

Lemma numRows_nonzero : ~ numRows == 0.
Proof. lra. Qed.

Lemma rows_span : numRows * actualRowSize == high - low.
Proof. unfold actualRowSize. apply Qmult_div_r. exact numRows_nonzero. Qed.

Lemma actualRowSize_positive : 0 < actualRowSize.
Proof.
  unfold actualRowSize. apply Qlt_shift_div_l; [lra|]. rewrite Qmult_0_l. lra.
Qed.

Lemma count_ceiling : Z.of_nat count = Qceiling numRows.
Proof.
  unfold count. apply Z2Nat.id.
  pose proof (Qle_ceiling numRows) as Hc.
  assert (H0 : 0 <= inject_Z (Qceiling numRows)) by lra.
  change 0 with (inject_Z 0) in H0. rewrite <- Zle_Qle in H0. exact H0.
Qed.

(** Positions below [count - 1] lie strictly inside the range. *)
Lemma inner_boundary (j : nat) :
  (S j <= count)%nat -> low + inject_Z (Z.of_nat j) * actualRowSize < high.
Proof.
  intro Hj.
  assert (Hlt : inject_Z (Z.of_nat j) < numRows).
  { apply Qle_lt_trans with (inject_Z (Qceiling numRows - 1)).
    - rewrite <- Zle_Qle. rewrite <- count_ceiling. lia.
    - apply Qceiling_lt. }
  pose proof (Qmult_lt_compat_r _ _ _ actualRowSize_positive Hlt) as Hm.
  rewrite rows_span in Hm. lra.
Qed.

(** The boundary after the last row reaches the top of the range. *)
Lemma outer_boundary :
  high <= low + inject_Z (Z.of_nat count) * actualRowSize.
Proof.
  assert (Hle : numRows <= inject_Z (Z.of_nat count))
    by (rewrite count_ceiling; apply Qle_ceiling).
  pose proof (Qmult_le_compat_r _ _ actualRowSize Hle
                (Qlt_le_weak _ _ actualRowSize_positive)) as Hm.
  rewrite rows_span in Hm. lra.
Qed.

Lemma inject_succ (i : nat) :
  inject_Z (Z.of_nat (S i)) == inject_Z (Z.of_nat i) + 1.
Proof. rewrite Nat2Z.inj_succ. unfold Z.succ. rewrite inject_Z_plus. reflexivity. Qed.

Lemma makeRows_chained :
  forall k i, (i + k = count)%nat ->
    chained (match k with
             | O => high
             | S _ => low + inject_Z (Z.of_nat i) * actualRowSize
             end)
      (map (makeRow low high actualRowSize) (seq i k)) high.
Proof.
  induction k as [|k IH]; intros i Hik; [reflexivity|].
  cbn [seq map chained]. unfold makeRow at 1 2 3. cbn [priceLow priceHigh].
  pose proof actualRowSize_positive as Hs.
  assert (Hin : low + inject_Z (Z.of_nat i) * actualRowSize < high)
    by (apply inner_boundary; lia).
  split; [reflexivity|]. split; [minmax_lra|].
  eapply chained_start; [|apply (IH (S i)); lia].
  unfold makeRow. cbn [priceHigh].
  destruct k as [|k].
  - assert (Hout : high <= low + inject_Z (Z.of_nat (S i)) * actualRowSize).
    { replace (S i) with count by lia. apply outer_boundary. }
    rewrite inject_succ in Hout. minmax_lra.
  - assert (Hnext : low + inject_Z (Z.of_nat (S i)) * actualRowSize < high)
      by (apply inner_boundary; lia).
    rewrite inject_succ in *. minmax_lra.
Qed.

End Tiling.

Lemma jsMax1_finite (x : JsNum) (q : Q) : jsMax1 x = Finite q -> 1 <= q.
Proof.
  destruct x as [q0| | |]; simpl; try discriminate.
  - intros [= <-]. apply Q.le_max_l.
  - intros [= <-]. apply Qle_refl.
Qed.

Lemma jsDiv_defined (a b : Q) : 0 < a -> jsCeil (jsDiv a b) <> NotANumber.
Proof.
  intro Ha. unfold jsDiv. destruct (Qeq_bool b 0); [|discriminate].
  apply Qltb_lt in Ha. rewrite Ha. discriminate.
Qed.

Lemma numRowsOf_defined (priceRange rowSize : Q) (rowsLayout : string) :
  0 < priceRange -> numRowsOf priceRange rowSize rowsLayout <> NotANumber.
Proof.
  intro Hp. unfold numRowsOf.
  destruct (String.eqb rowsLayout "Number"); [discriminate|].
  destruct (String.eqb rowsLayout "Tick"); [apply jsDiv_defined; exact Hp|].
  destruct (String.eqb rowsLayout "Percentage"); [|discriminate].
  apply jsDiv_defined. exact Hp.
Qed.

Lemma makeRows_empty (low high size : Q) (positions : list nat) :
  sumOver totalVolume (map (makeRow low high size) positions) == 0.
Proof.
  induction positions as [|i positions IH]; simpl; [reflexivity|].
  rewrite IH. lra.
Qed.

(** Freshly created rows hold no volume, and over a non-degenerate range
    they tile it from [low] to [high]. *)
Lemma createPriceLevelRows_tiles (low high : Q) (settings : Config)
    (rows : list Row) :
  createPriceLevelRows low high settings = Some rows ->
  sumOver totalVolume rows == 0 /\ (low < high -> chained low rows high).
Proof.
  unfold createPriceLevelRows.
  destruct (jsMax1 _) as [numRows| | |] eqn:E; try discriminate.
  - intros [= <-]. split; [apply makeRows_empty|]. intro Hlh.
    apply jsMax1_finite in E.
    pose proof (makeRows_chained low high numRows Hlh E
                  (Z.to_nat (Qceiling numRows)) 0%nat eq_refl) as Hch.
    eapply chained_start; [|exact Hch].
    destruct (Z.to_nat (Qceiling numRows)) eqn:En.
    + exfalso.
      pose proof (count_ceiling numRows E) as Hc. rewrite En in Hc.
      pose proof (Qle_ceiling numRows) as Hle. rewrite <- Hc in Hle.
      change (inject_Z (Z.of_nat 0)) with 0 in Hle. lra.
    + change (inject_Z (Z.of_nat 0)) with 0. lra.
  - intros [= <-]. split; [reflexivity|]. intro Hlh. exfalso.
    destruct (numRowsOf _ _ _); discriminate.
  - intros [= <-]. split; [reflexivity|]. intro Hlh. exfalso.
    destruct (numRowsOf (high - low) (rowSizeOf settings) (rowsLayoutOf settings))
      eqn:En; try discriminate.
    apply (numRowsOf_defined (high - low) (rowSizeOf settings)
             (rowsLayoutOf settings)); [lra | exact En].
Qed.

(** *** The profile range contains every bar *)

Lemma fold_max_ge (l : list Q) :
  forall a, a <= fold_left Qmax l a /\ (forall x, In x l -> x <= fold_left Qmax l a).
Proof.
  induction l as [|y l IH]; intro a; simpl.
  - split; [apply Qle_refl | intros x []].
  - destruct (IH (Qmax a y)) as [H1 H2]. split.
    + apply Qle_trans with (Qmax a y); [apply Q.le_max_l | exact H1].
    + intros x [<- | Hx]; [|exact (H2 x Hx)].
      apply Qle_trans with (Qmax a y); [apply Q.le_max_r | exact H1].
Qed.

Lemma fold_min_le (l : list Q) :
  forall a, fold_left Qmin l a <= a /\ (forall x, In x l -> fold_left Qmin l a <= x).
Proof.
  induction l as [|y l IH]; intro a; simpl.
  - split; [apply Qle_refl | intros x []].
  - destruct (IH (Qmin a y)) as [H1 H2]. split.
    + apply Qle_trans with (Qmin a y); [exact H1 | apply Q.le_min_l].
    + intros x [<- | Hx]; [|exact (H2 x Hx)].
      apply Qle_trans with (Qmin a y); [exact H1 | apply Q.le_min_r].
Qed.

Lemma profile_range (b : Bar) (bs : list Bar) (bar : Bar) :
  In bar (b :: bs) ->
  profileLowOf b bs <= low bar /\ high bar <= profileHighOf b bs.
Proof.
  unfold profileLowOf, profileHighOf.
  destruct (fold_min_le (map low bs) (low b)) as [L1 L2].
  destruct (fold_max_ge (map high bs) (high b)) as [H1 H2].
  intros [<- | Hin]; [split; assumption|].
  split; [apply L2 | apply H2]; apply in_map; exact Hin.
Qed.

Lemma totalRangedVolume_all (bars : list Bar) :
  (forall bar, In bar bars -> low bar < high bar) ->
  totalRangedVolume bars == fold_right (fun bar sum => volume bar + sum) 0 bars.
Proof.
  induction bars as [|bar bars IH]; intro H; simpl; [reflexivity|].
  rewrite IH by (intros b Hb; apply H; right; exact Hb).
  unfold rangedVolume.
  pose proof (H bar (or_introl eq_refl)) as Hb. apply Qltb_lt in Hb. rewrite Hb.
  reflexivity.
Qed.

Lemma distributeVolume_flat (bars : list Bar) :
  (forall bar, In bar bars -> ~ low bar < high bar) ->
  forall rows,
    sumOver totalVolume (distributeVolume bars rows) == sumOver totalVolume rows
    /\ totalRangedVolume bars == 0.
Proof.
  unfold distributeVolume.
  induction bars as [|bar bars IH]; intros Hflat rows; simpl;
    [split; reflexivity|].
  pose proof (Hflat bar (or_introl eq_refl)) as Hb.
  destruct (IH (fun b Hin => Hflat b (or_intror Hin)) (map (addBarToRow bar) rows))
    as [E1 E2].
  split.
  - assert (Hz : sumOver (contribution bar) rows == 0).
    { rewrite (sumOver_ext (contribution bar) (fun _ => 0)).
      - clear. induction rows as [|r rows IH]; simpl; [lra | rewrite IH; lra].
      - intros r _. apply contribution_degenerate. exact Hb. }
    rewrite E1, sumOver_addBar, Hz. lra.
  - rewrite E2. unfold rangedVolume.
    assert (Hf : Qltb (low bar) (high bar) = false) by (apply Qltb_ge; lra).
    rewrite Hf. reflexivity.
Qed.

(** *** Conservation *)

(** C3 (amended).  For a non-empty bar array and the rows created for its
    range [min low, max high], the row volumes after [distributeVolume] sum to
    the volume of the bars with [low < high]; a bar without extent
    ([high <= low]) distributes nothing.  When every bar has [low < high] the
    sum is the total volume of the bars. *)
Theorem volume_conservation (b : Bar) (bs : list Bar) (settings : Config)
    (created : list Row) :
  createPriceLevelRows (profileLowOf b bs) (profileHighOf b bs) settings
    = Some created ->
  let rows := distributeVolume (b :: bs) created in
  sumTotalVolume rows == totalRangedVolume (b :: bs)
  /\ ((forall bar, In bar (b :: bs) -> low bar < high bar) ->
      sumTotalVolume rows == fold_right (fun bar sum => volume bar + sum) 0 (b :: bs)).
Proof.
  intros Hcreated rows.
  assert (Hmain : sumTotalVolume rows == totalRangedVolume (b :: bs)).
  { subst rows. rewrite sumTotalVolume_sumOver.
    destruct (createPriceLevelRows_tiles _ _ _ _ Hcreated) as [Hzero Htiles].
    destruct (existsb (fun bar => Qltb (low bar) (high bar)) (b :: bs)) eqn:E.
    - apply existsb_exists in E. destruct E as [bar [Hin Hlt]].
      apply Qltb_lt in Hlt.
      destruct (profile_range b bs bar Hin) as [HL HH].
      assert (Hrange : profileLowOf b bs < profileHighOf b bs) by lra.
      rewrite (distributeVolume_total (profileLowOf b bs) (profileHighOf b bs)).
      + rewrite Hzero. lra.
      + intros bar' Hin' _. exact (profile_range b bs bar' Hin').
      + exact (Htiles Hrange).
    - assert (Hflat : forall bar, In bar (b :: bs) -> ~ low bar < high bar).
      { intros bar Hin Hlt. apply Qltb_lt in Hlt.
        assert (Hex : existsb (fun bar => Qltb (low bar) (high bar)) (b :: bs) = true)
          by (apply existsb_exists; exists bar; split; assumption).
        congruence. }
      destruct (distributeVolume_flat (b :: bs) Hflat created) as [E1 E2].
      rewrite E1, E2. exact Hzero. }
  split; [exact Hmain|].
  intro Hall. rewrite Hmain. apply totalRangedVolume_all. exact Hall.
Qed.

Lemma volume_conservation_witness :
  exists created,
    createPriceLevelRows (profileLowOf rangeHead rangeTail)
      (profileHighOf rangeHead rangeTail) twoRows = Some created
    /\ (forall bar, In bar (rangeHead :: rangeTail) -> low bar < high bar)
    /\ sumTotalVolume (distributeVolume (rangeHead :: rangeTail) created)
       == fold_right (fun bar sum => volume bar + sum) 0 (rangeHead :: rangeTail).
Proof.
  eexists. split; [vm_compute; reflexivity|].
  assert (Hall : forall bar, In bar (rangeHead :: rangeTail) -> low bar < high bar).
  { intros bar [<- | [<- | []]]; reflexivity. }
  split; [exact Hall|].
  exact (proj2 (volume_conservation rangeHead rangeTail twoRows _ eq_refl) Hall).
Defined.

(** C3 as stated fails: the flat bar lies within the profile range [9, 12]
    but its overlap ratio is 0 in every row, so its volume 50 reaches no
    row: the rows sum to 100, the bars to 150. *)
Lemma flat_bar_volume_lost :
  exists created,
    createPriceLevelRows (profileLowOf (mkBar 0 10 12 9 11 100) [mkBar 60 11 11 11 11 50])
      (profileHighOf (mkBar 0 10 12 9 11 100) [mkBar 60 11 11 11 11 50]) twoRows
      = Some created
    /\ (forall bar, In bar mixedBars ->
          profileLowOf (mkBar 0 10 12 9 11 100) [mkBar 60 11 11 11 11 50] <= low bar
          /\ high bar
             <= profileHighOf (mkBar 0 10 12 9 11 100) [mkBar 60 11 11 11 11 50])
    /\ sumTotalVolume (distributeVolume mixedBars created) == 100
    /\ fold_right (fun bar sum => volume bar + sum) 0 mixedBars == 150
    /\ ~ sumTotalVolume (distributeVolume mixedBars created)
         == fold_right (fun bar sum => volume bar + sum) 0 mixedBars.
Proof.
  eexists. split; [vm_compute; reflexivity|].
  split; [intros bar Hin; exact (profile_range _ _ bar Hin)|].
  split; [vm_compute; reflexivity|]. split; [vm_compute; reflexivity|].
  vm_compute. discriminate.
Qed.

End VolumeProps.

(** ** FRVP: developing samples *)

Module DevelopingProps.
Import FRVP.

Lemma wantsDeveloping_flagsOff (self settings : Config) :
  wantsDeveloping (merge self (flagsOff settings)) = false.
Proof. reflexivity. Qed.

Lemma calculateProfileWith_ext
    (cd1 cd2 : list Bar -> Config -> Outcome (list DevPoint))
    (self : Config) (minuteBars : option (list Bar)) (config : Config) :
  (forall bars settings, cd1 bars settings = cd2 bars settings) ->
  calculateProfileWith cd1 self minuteBars config
  = calculateProfileWith cd2 self minuteBars config.
Proof.
  intro H. unfold calculateProfileWith.
  destruct minuteBars as [[|b bs]|]; try reflexivity.
  cbv zeta. rewrite H. reflexivity.
Qed.

(** With both flags forced off, [calculateProfile] does not call
    [calculateDeveloping]. *)
Lemma calculateProfileWith_flagsOff
    (cd1 cd2 : list Bar -> Config -> Outcome (list DevPoint))
    (self : Config) (minuteBars : option (list Bar)) (settings : Config) :
  calculateProfileWith cd1 self minuteBars (flagsOff settings)
  = calculateProfileWith cd2 self minuteBars (flagsOff settings)
  /\ calculateProfileWith cd1 self minuteBars (flagsOff settings) <> OutOfFuel.
Proof.
  unfold calculateProfileWith.
  destruct minuteBars as [[|b bs]|]; try (split; [reflexivity | discriminate]).
  cbv zeta. rewrite wantsDeveloping_flagsOff.
  split; [reflexivity|].
  destruct (createPriceLevelRows _ _ _); [|discriminate].
  destruct (calculatePOC _) as [poc | e | |] eqn:E; try discriminate.
  - destruct (calculateValueArea _ _ _) as [[vh|] [vl|] vm]; discriminate.
  - unfold calculatePOC in E. destruct (distributeVolume _ _); discriminate.
Qed.

Section Loop.

Variables cp1 cp2 : option (list Bar) -> Config -> Outcome Profile.
Variable minuteBars : list Bar.
Variable settings : Config.
Variable step : nat.

Hypothesis same_on_prefixes :
  forall bars, cp1 (Some bars) (flagsOff settings) = cp2 (Some bars) (flagsOff settings).

Lemma developingLoop_ext :
  forall budget i,
    developingLoop cp1 minuteBars settings step budget i
    = developingLoop cp2 minuteBars settings step budget i.
Proof.
  induction budget as [|budget IH]; intro i; simpl; [reflexivity|].
  unfold samplePrefix. rewrite same_on_prefixes, IH. reflexivity.
Qed.

Hypothesis step_positive : (1 <= step)%nat.
Hypothesis prefix_returns :
  forall bars, cp1 (Some bars) (flagsOff settings) <> OutOfFuel.

(** The budget of passes is never exhausted. *)
Lemma developingLoop_budget :
  forall budget i,
    (List.length minuteBars < i + budget)%nat ->
    developingLoop cp1 minuteBars settings step budget i <> OutOfFuel.
Proof.
  induction budget as [|budget IH]; intros i Hb; simpl.
  - destruct (Nat.leb_spec i (List.length minuteBars)); [lia | discriminate].
  - destruct (i <=? List.length minuteBars)%nat; [|discriminate].
    unfold samplePrefix.
    pose proof (prefix_returns (firstn i minuteBars)) as Hp.
    pose proof (IH (i + step)%nat ltac:(lia)) as Hnext.
    destruct (cp1 _ _) as [p | e | |]; try congruence; try discriminate.
    + destruct (last _ _);
        destruct (developingLoop cp1 minuteBars settings step budget (i + step));
        congruence || discriminate.
    + destruct (developingLoop cp1 minuteBars settings step budget (i + step));
        congruence || discriminate.
Qed.

End Loop.

Lemma stepOf_positive (n : nat) : (1 <= stepOf n)%nat.
Proof. unfold stepOf. lia. Qed.

(** Call depth 2 is enough: a deeper budget changes nothing, and the
    result is never the exhausted budget. *)
Lemma calculateProfile_depth (d : nat) (self : Config)
    (minuteBars : option (list Bar)) (config : Config) :
  calculateProfile (S (S d)) self minuteBars config
  = calculateProfile 2 self minuteBars config
  /\ calculateProfile 2 self minuteBars config <> OutOfFuel.
Proof.
  split.
  - cbn [calculateProfile]. apply calculateProfileWith_ext.
    intros bars settings. unfold calculateDevelopingWith.
    apply developingLoop_ext. intro prefix.
    destruct d as [|d]; [reflexivity|].
    cbn [calculateProfile].
    apply (proj1 (calculateProfileWith_flagsOff _ _ self (Some prefix) settings)).
  - cbn [calculateProfile]. unfold calculateProfileWith at 1.
    destruct minuteBars as [[|b bs]|]; try discriminate.
    cbv zeta.
    destruct (createPriceLevelRows _ _ _); [|discriminate].
    destruct (calculatePOC _) as [poc | e | |] eqn:E; try discriminate.
    + destruct (wantsDeveloping _).
      * destruct (calculateDevelopingWith _ _ _) as [dev | e | |] eqn:Ed;
          try discriminate.
        -- destruct (calculateValueArea _ _ _) as [[vh|] [vl|] vm]; discriminate.
        -- exfalso. unfold calculateDevelopingWith in Ed.
           revert Ed. apply developingLoop_budget.
           ++ apply stepOf_positive.
           ++ intro prefix.
              apply (proj2 (calculateProfileWith_flagsOff _
                              (fun _ _ => OutOfFuel) self (Some prefix) _)).
           ++ pose proof (stepOf_positive (List.length (b :: bs))). lia.
      * destruct (calculateValueArea _ _ _) as [[vh|] [vl|] vm]; discriminate.
    + unfold calculatePOC in E. destruct (distributeVolume _ _); discriminate.
Qed.

(** C9 fails on the code.  For 51 bars the step is
    [max(1, floor(51 / 50)) = 1], the loop samples every prefix and
    [calculateDeveloping] returns 51 points, more than the 50 that the
    source's own comment ("Sample 50 points max") announces. *)
Theorem developing_samples_exceed_fifty :
  List.length fiftyOneBars = 51%nat
  /\ stepOf (List.length fiftyOneBars) = 1%nat
  /\ (exists points,
        calculateDeveloping 1 emptyConfig fiftyOneBars developingOn = Returns points
        /\ List.length points = 51%nat)
  /\ (exists profile points,
        calculateProfile 2 emptyConfig (Some fiftyOneBars) developingOn
          = Returns profile
        /\ developing profile = Some points
        /\ List.length points = 51%nat).
Proof.
  split; [reflexivity|]. split; [reflexivity|]. split.
  - vm_compute. eexists. split; reflexivity.
  - vm_compute. eexists. eexists. split; [reflexivity|]. split; reflexivity.
Qed.

End DevelopingProps.

(** ** FRVP: the rows of a computed profile *)

Module ProfileProps.
Import FRVP ValueAreaProps VolumeProps POCProps.

Lemma makeRows_nth (low high size : Q) (n i : nat) (r : Row) :
  nth_error (map (makeRow low high size) (seq 0 n)) i = Some r ->
  r = makeRow low high size i /\ (i < n)%nat.
Proof.
  intro Hnth. rewrite nth_error_map in Hnth.
  destruct (nth_error (seq 0 n) i) as [j|] eqn:Ej; [|discriminate].
  injection Hnth as <-.
  assert (Hi : (i < List.length (seq 0 n))%nat)
    by (apply nth_error_Some; congruence).
  rewrite length_seq in Hi.
  apply (nth_error_nth _ _ 0%nat) in Ej. rewrite seq_nth in Ej by exact Hi.
  subst j. split; [reflexivity | exact Hi].
Qed.

(** The array built by [createPriceLevelRows]. *)
Lemma createPriceLevelRows_shape (low high : Q) (settings : Config)
    (rows : list Row) :
  createPriceLevelRows low high settings = Some rows ->
  rows = []
  \/ exists numRows,
      1 <= numRows
      /\ rows = map (makeRow low high ((high - low) / numRows))
                    (seq 0 (Z.to_nat (Qceiling numRows))).
Proof.
  unfold createPriceLevelRows.
  destruct (jsMax1 _) as [numRows| | |] eqn:E; try discriminate;
    intros [= <-]; [right | left; reflexivity | left; reflexivity].
  exists numRows. split; [exact (jsMax1_finite _ _ E) | reflexivity].
Qed.

Lemma created_wellIndexed (low high : Q) (settings : Config) (rows : list Row) :
  createPriceLevelRows low high settings = Some rows -> wellIndexed rows.
Proof.
  intros Hc i r Hnth.
  destruct (createPriceLevelRows_shape _ _ _ _ Hc) as [-> | [numRows [_ ->]]].
  - destruct i; discriminate.
  - apply makeRows_nth in Hnth. destruct Hnth as [-> _]. reflexivity.
Qed.

Lemma created_ascending (low high : Q) (settings : Config) (rows : list Row) :
  low < high ->
  createPriceLevelRows low high settings = Some rows -> ascendingPrice rows.
Proof.
  intros Hlh Hc i j ri rj Hi Hj Hij.
  destruct (createPriceLevelRows_shape _ _ _ _ Hc) as [-> | [numRows [Hn ->]]].
  - destruct i; discriminate.
  - apply makeRows_nth in Hi. destruct Hi as [-> _].
    apply makeRows_nth in Hj. destruct Hj as [-> _].
    pose proof (actualRowSize_positive low high numRows Hlh Hn) as Hs.
    assert (Hlt : inject_Z (Z.of_nat i) < inject_Z (Z.of_nat j))
      by (rewrite <- Zlt_Qlt; lia).
    pose proof (Qmult_lt_compat_r _ _ _ Hs Hlt) as Hm.
    unfold makeRow. cbn [priceLevel].
    set (s := (high - low) / numRows) in *.
    set (a := inject_Z (Z.of_nat i) * s) in *.
    set (b := inject_Z (Z.of_nat j) * s) in *.
    clearbody a b. clear Hc Hlt. clearbody s.
    unfold Qdiv. apply Qmult_lt_compat_r; [reflexivity|].
    minmax_lra.
Qed.

(** [distributeVolume] changes volumes only. *)
Lemma distributeVolume_nth (bars : list Bar) :
  forall rows i r,
    nth_error (distributeVolume bars rows) i = Some r ->
    exists r0, nth_error rows i = Some r0
               /\ index r = index r0 /\ priceLevel r = priceLevel r0.
Proof.
  unfold distributeVolume.
  induction bars as [|bar bars IH]; intros rows i r H; simpl in H.
  - exists r. repeat split. exact H.
  - destruct (IH _ _ _ H) as [r1 [H1 [E1 E2]]].
    rewrite nth_error_map in H1.
    destruct (nth_error rows i) as [r0|]; [|discriminate].
    injection H1 as <-. exists r0. split; [reflexivity|].
    destruct (addBarToRow_bounds bar r0) as [_ [_ [Ei Ep]]].
    split; congruence.
Qed.

(** What a returned profile was computed from. *)
Lemma calculateProfile_returns (depth : nat) (self config : Config)
    (minuteBars : option (list Bar)) (p : Profile) :
  calculateProfile (S depth) self minuteBars config = Returns p ->
  exists b bs created,
    minuteBars = Some (b :: bs)
    /\ createPriceLevelRows (profileLowOf b bs) (profileHighOf b bs)
         (merge self config) = Some created
    /\ p_rows p = distributeVolume (b :: bs) created
    /\ calculatePOC (p_rows p) = Returns (p_poc p)
    /\ vah (calculateValueArea (p_rows p) (p_poc p)
              (vaPercentageOf (merge self config))) = Some (p_vah p)
    /\ val (calculateValueArea (p_rows p) (p_poc p)
              (vaPercentageOf (merge self config))) = Some (p_val p)
    /\ valueAreaRows (calculateValueArea (p_rows p) (p_poc p)
                        (vaPercentageOf (merge self config)))
       = p_valueAreaRows p
    /\ md_totalVolume (metadata p) = sumTotalVolume (p_rows p).
Proof.
  cbn [calculateProfile]. unfold calculateProfileWith.
  destruct minuteBars as [[|b bs]|]; try discriminate.
  cbv zeta.
  destruct (createPriceLevelRows _ _ _) as [created|] eqn:Ec; [|discriminate].
  destruct (calculatePOC _) as [poc | e | |] eqn:Ep; try discriminate.
  intro H. exists b, bs, created.
  split; [reflexivity|]. split; [exact Ec|].
  destruct (wantsDeveloping _); [destruct (calculateDevelopingWith _ _ _)|];
    try discriminate;
    destruct (calculateValueArea _ _ _) as [[vh|] [vl|] vm] eqn:Ev;
    try discriminate;
    injection H as <-;
    cbn [p_rows p_poc p_vah p_val p_valueAreaRows metadata md_totalVolume];
    change (distributeVolume bs (map (addBarToRow b) created))
      with (distributeVolume (b :: bs) created);
    rewrite Ev; repeat split; exact Ep.
Qed.

(** A profile range that is a single price leaves every row empty. *)
Lemma flat_profile_empty (b : Bar) (bs : list Bar) (settings : Config)
    (created : list Row) :
  createPriceLevelRows (profileLowOf b bs) (profileHighOf b bs) settings
    = Some created ->
  ~ profileLowOf b bs < profileHighOf b bs ->
  sumTotalVolume (distributeVolume (b :: bs) created) == 0.
Proof.
  intros Hc Hflat.
  destruct (createPriceLevelRows_tiles _ _ _ _ Hc) as [Hzero _].
  assert (Hbars : forall bar, In bar (b :: bs) -> ~ low bar < high bar).
  { intros bar Hin Hlt. destruct (profile_range b bs bar Hin) as [HL HH].
    apply Hflat. lra. }
  destruct (distributeVolume_flat (b :: bs) Hbars created) as [E _].
  rewrite sumTotalVolume_sumOver, E. exact Hzero.
Qed.

(** The rows of a returned profile carry their positions, hold the POC, and
    either ascend in price or hold no volume; these are the conditions under
    which the value-area properties are stated. *)
Lemma profile_rows_wellformed (depth : nat) (self config : Config)
    (minuteBars : option (list Bar)) (p : Profile) :
  calculateProfile (S depth) self minuteBars config = Returns p ->
  wellIndexed (p_rows p) /\ In (p_poc p) (p_rows p)
  /\ (ascendingPrice (p_rows p) \/ sumTotalVolume (p_rows p) == 0).
Proof.
  intro H.
  destruct (calculateProfile_returns _ _ _ _ _ H)
    as [b [bs [created [_ [Hc [Hrows [Hpoc _]]]]]]].
  split; [|split].
  - rewrite Hrows. intros i r Hnth.
    destruct (distributeVolume_nth _ _ _ _ Hnth) as [r0 [H0 [-> _]]].
    exact (created_wellIndexed _ _ _ _ Hc i r0 H0).
  - exact (calculatePOC_member _ _ Hpoc).
  - rewrite Hrows.
    destruct (Qlt_le_dec (profileLowOf b bs) (profileHighOf b bs)) as [Hlt | Hge].
    + left. intros i j ri rj Hi Hj Hij.
      destruct (distributeVolume_nth _ _ _ _ Hi) as [ri0 [Hi0 [_ ->]]].
      destruct (distributeVolume_nth _ _ _ _ Hj) as [rj0 [Hj0 [_ ->]]].
      exact (created_ascending _ _ _ _ Hlt Hc i j ri0 rj0 Hi0 Hj0 Hij).
    + right. apply (flat_profile_empty b bs _ created Hc). lra.
Qed.

(** In every returned profile the value area is a band of consecutive rows
    around the POC whose top row is VAH and whose bottom row is VAL. *)
Lemma profile_value_area_band (depth : nat) (self config : Config)
    (minuteBars : option (list Bar)) (p : Profile) :
  calculateProfile (S depth) self minuteBars config = Returns p ->
  exists lo hi,
    (0 <= lo <= index (p_poc p) /\ index (p_poc p) <= hi < rowsLength (p_rows p))%Z
    /\ (forall i, In i (p_valueAreaRows p) <-> (lo <= i <= hi)%Z)
    /\ rowAt (p_rows p) hi = Some (p_vah p)
    /\ rowAt (p_rows p) lo = Some (p_val p).
Proof.
  intro H.
  destruct (profile_rows_wellformed _ _ _ _ _ H) as [Hwi [Hin Hshape]].
  destruct (calculateProfile_returns _ _ _ _ _ H)
    as [b [bs [created [_ [_ [_ [_ [Hvah [Hval [Hset _]]]]]]]]]].
  destruct (value_area_interval (p_rows p) (p_poc p)
              (vaPercentageOf (merge self config)) Hwi Hin) as [lo [hi [Hr Hiff]]].
  destruct (value_area_edges _ _ _ lo hi Hwi Hin Hr Hiff Hshape) as [Eh El].
  exists lo, hi. split; [exact Hr|].
  split; [intro i; rewrite <- Hset; apply Hiff|].
  split; congruence.
Qed.

End ProfileProps.

(** * Further properties of the indicator code

    Properties of the same functions beyond those the specification states,
    and of the code around them: the moving averages of the chart helpers
    ([calculateSMA], which [createRSIChart] applies to the RSI series, and
    [calculateEMA]), [getFormattedData], and [validateFRVPConfig] with the
    call of [calculateProfile] made by [calculateFRVP]. *)

(** ** CVD candles *)

Module CVDCandleProps.
Import CVD VolumeProps.

Lemma trackStep_enclosed (openCVD : Q) (st : Q * Q * Q) (d : DeltaPoint) :
  enclosed openCVD st -> enclosed openCVD (trackStep st d).
Proof.
  destruct st as [[h l] r]. unfold enclosed, trackStep.
  intros [H1 [H2 [H3 H4]]]. repeat split; minmax_lra.
Qed.

Lemma track_enclosed (openCVD : Q) (deltas : list DeltaPoint) :
  forall st, enclosed openCVD st ->
             enclosed openCVD (fold_left trackStep deltas st).
Proof.
  induction deltas as [|d deltas IH]; intros st H; simpl; [exact H|].
  apply IH. apply trackStep_enclosed. exact H.
Qed.

Lemma calculateCVDForCandle_ordered (candle : Bar) (oneMin : list Bar) (prev : Q) :
  let o := calculateCVDForCandle candle oneMin prev in
  lowCVD o <= openCVD o /\ openCVD o <= highCVD o
  /\ lowCVD o <= closeCVD o /\ closeCVD o <= highCVD o.
Proof.
  unfold calculateCVDForCandle. destruct oneMin as [|m ms].
  - cbn. repeat split; apply Qle_refl.
  - pose proof (track_enclosed prev (calculate1MinuteDeltas (m :: ms))
                  (prev, prev, prev)) as H.
    destruct (fold_left trackStep _ _) as [[h l] r]. cbn.
    apply H. cbn. repeat split; apply Qle_refl.
Qed.

(** X1.  The CVD candles are well-formed candles: the low is at most the open
    and the close, and the high at least both. *)
Theorem cvd_candles_ordered (getAnchorPeriodStart : Z -> string -> Z)
    (parseInt : string -> option Z) (candles oneMin : list Bar)
    (options : Options) :
  Forall (fun c => c_low c <= c_open c /\ c_open c <= c_high c
                   /\ c_low c <= c_close c /\ c_close c <= c_high c)
         (calculateCVD getAnchorPeriodStart parseInt candles oneMin options).
Proof.
  unfold calculateCVD. generalize 0 at 1 as cum. generalize (@None Z) as cur.
  induction candles as [|c rest IH]; intros cur cum; cbn [cvdLoop].
  - constructor.
  - constructor; [|apply IH].
    cbn [c_low c_open c_high c_close].
    apply calculateCVDForCandle_ordered.
Qed.

(** X2.  Each output candle carries the time and the OHLCV of the target candle
    at the same position. *)
Theorem cvd_candles_aligned (getAnchorPeriodStart : Z -> string -> Z)
    (parseInt : string -> option Z) (candles oneMin : list Bar)
    (options : Options) :
  map (fun c => (c_time c, underlyingCandle c))
      (calculateCVD getAnchorPeriodStart parseInt candles oneMin options)
  = map (fun b => (time b, mkUnderlying (open b) (high b) (low b) (close b)
                             (volume b)))
        candles.
Proof.
  unfold calculateCVD. generalize 0 at 1 as cum. generalize (@None Z) as cur.
  induction candles as [|c rest IH]; intros cur cum; cbn [cvdLoop map].
  - reflexivity.
  - rewrite IH. reflexivity.
Qed.

(** *** Deltas and their sums *)







(** *** The range of a candle *)




End CVDCandleProps.

(** ** RSI series *)

Module RSISeriesProps.
Import RSI RSIProps.

Lemma changes_length (data : list Bar) :
  List.length (changes data) = (List.length data - 1)%nat.
Proof.
  induction data as [|a [|b rest] IH]; [reflexivity | reflexivity |].
  change (changes (a :: b :: rest)) with ((close b - close a) :: changes (b :: rest)).
  cbn [List.length] in *. rewrite IH. lia.
Qed.

Lemma pushAt_time (data : list Bar) (k : nat) (rsi : Q) (d : Bar) :
  nth_error data k = Some d -> pushAt data k rsi = [mkPoint (time d) rsi].
Proof. intro H. unfold pushAt. rewrite H. reflexivity. Qed.

Lemma skipn_cons_nth (data : list Bar) (k : nat) (d : Bar) :
  nth_error data k = Some d -> skipn k data = d :: skipn (S k) data.
Proof.
  revert k. induction data as [|a data IH]; intros [|k] H; try discriminate.
  - injection H as ->. reflexivity.
  - cbn [skipn]. apply IH. exact H.
Qed.

Lemma smoothLoop_times (data : list Bar) (gains losses : list Q) (period : Q) :
  forall todo i avgGain avgLoss,
    (S i + todo = List.length data)%nat ->
    map p_time (smoothLoop data gains losses period todo i avgGain avgLoss)
    = map time (skipn (S i) data).
Proof.
  induction todo as [|todo IH]; intros i avgGain avgLoss Hlen.
  - cbn [smoothLoop map]. rewrite skipn_all2 by lia. reflexivity.
  - cbn [smoothLoop].
    destruct (nth_error data (S i)) as [d|] eqn:Ed.
    + rewrite (pushAt_time _ _ _ _ Ed), (skipn_cons_nth _ _ _ Ed).
      cbn [app map]. rewrite IH by lia. reflexivity.
    + apply nth_error_None in Ed. lia.
Qed.

(** X5.  [calculateRSI] returns nothing when there are no more bars than the
    period; otherwise it returns one point for every bar from position
    [period] on, in order and at that bar's time. *)
Theorem calculateRSI_aligned (data : list Bar) (period : positive) :
  ((List.length data <= Pos.to_nat period)%nat -> calculateRSI data period = [])
  /\ ((Pos.to_nat period < List.length data)%nat ->
      map p_time (calculateRSI data period)
      = map time (skipn (Pos.to_nat period) data)
      /\ List.length (calculateRSI data period)
         = (List.length data - Pos.to_nat period)%nat).
Proof.
  unfold calculateRSI. split; intro Hlen.
  - apply Nat.leb_le in Hlen. rewrite Hlen. reflexivity.
  - assert (Hgt : (List.length data <=? Pos.to_nat period)%nat = false)
      by (apply Nat.leb_gt; exact Hlen).
    rewrite Hgt.
    assert (Htimes :
      map p_time
        (pushAt data (Pos.to_nat period)
           (rsiOf (sum (firstn (Pos.to_nat period) (map gainOf (changes data)))
                   / inject_Z (Z.pos period))
                  (sum (firstn (Pos.to_nat period) (map lossOf (changes data)))
                   / inject_Z (Z.pos period)))
         ++ smoothLoop data (map gainOf (changes data)) (map lossOf (changes data))
              (inject_Z (Z.pos period))
              (List.length (map gainOf (changes data)) - Pos.to_nat period)
              (Pos.to_nat period)
              (sum (firstn (Pos.to_nat period) (map gainOf (changes data)))
               / inject_Z (Z.pos period))
              (sum (firstn (Pos.to_nat period) (map lossOf (changes data)))
               / inject_Z (Z.pos period)))
      = map time (skipn (Pos.to_nat period) data)).
    { destruct (nth_error data (Pos.to_nat period)) as [d|] eqn:Ed.
      - rewrite (pushAt_time _ _ _ _ Ed), (skipn_cons_nth _ _ _ Ed).
        rewrite map_app. cbn [map]. rewrite smoothLoop_times; [reflexivity|].
        rewrite length_map, changes_length. lia.
      - apply nth_error_None in Ed. lia. }
    split; [exact Htimes|].
    rewrite <- (length_map p_time), Htimes, length_map, length_skipn.
    reflexivity.
Qed.

Lemma calculateRSI_aligned_witness :
  (Pos.to_nat 14 < List.length risingBars)%nat
  /\ List.length (calculateRSI risingBars 14) = 6%nat.
Proof.
  assert (H : (Pos.to_nat 14 < List.length risingBars)%nat) by (vm_compute; lia).
  split; [exact H|].
  exact (proj2 (proj2 (calculateRSI_aligned risingBars 14) H)).
Defined.

(** *** Monotone and flat series *)

Lemma changes_Forall (R : Q -> Q -> Prop) (P : Q -> Prop) (data : list Bar) :
  (forall x y, R x y -> P (y - x)) ->
  consecutive R data -> Forall P (changes data).
Proof.
  intro HRP. induction data as [|a [|b rest] IH]; intro H; try constructor.
  - apply HRP. exact (proj1 H).
  - apply IH. exact (proj2 H).
Qed.

Lemma nth_Forall (P : Q -> Prop) (l : list Q) (i : nat) :
  Forall P l -> (i < List.length l)%nat -> P (nth i l 0).
Proof.
  intros H Hi. rewrite Forall_forall in H. apply H. apply nth_In. exact Hi.
Qed.

Lemma nth_all_zero (l : list Q) (i : nat) : Forall (eq 0) l -> nth i l 0 = 0.
Proof.
  intro H. destruct (Nat.lt_ge_cases i (List.length l)) as [Hi | Hi].
  - symmetry. exact (nth_Forall (eq 0) l i H Hi).
  - apply nth_overflow. exact Hi.
Qed.

Lemma fold_plus_zero (l : list Q) :
  Forall (eq 0) l -> forall acc, fold_left Qplus l acc == acc.
Proof.
  induction 1 as [|x l Hx _ IH]; intro acc; simpl; [reflexivity|].
  rewrite IH, <- Hx. lra.
Qed.

Lemma fold_plus_positive (l : list Q) :
  Forall (fun x => 0 < x) l ->
  forall acc, 0 <= acc -> l <> [] -> 0 < fold_left Qplus l acc.
Proof.
  induction 1 as [|x l Hx Hl IH]; intros acc Hacc Hne; [congruence|].
  simpl. destruct l as [|y l].
  - simpl. lra.
  - apply IH; [lra | discriminate].
Qed.

Lemma Forall_firstn_of (P : Q -> Prop) (n : nat) (l : list Q) :
  Forall P l -> Forall P (firstn n l).
Proof.
  intro H. rewrite Forall_forall in *. intros x Hx. apply H.
  rewrite <- (firstn_skipn n l). apply in_or_app. left. exact Hx.
Qed.

Lemma gain_of_rise (c : Q) : 0 < c -> 0 < gainOf c /\ 0 = lossOf c.
Proof.
  intro H. unfold gainOf, lossOf.
  assert (E1 : Qltb 0 c = true) by (apply Qltb_lt; exact H).
  assert (E2 : Qltb c 0 = false) by (apply Qltb_ge; lra).
  rewrite E1, E2. split; [exact H | reflexivity].
Qed.

Lemma loss_of_fall (c : Q) : c < 0 -> 0 = gainOf c /\ 0 < lossOf c.
Proof.
  intro H. unfold gainOf, lossOf.
  assert (E1 : Qltb 0 c = false) by (apply Qltb_ge; lra).
  assert (E2 : Qltb c 0 = true) by (apply Qltb_lt; exact H).
  rewrite E1, E2. split; [reflexivity|].
  rewrite Qabs_neg by lra. lra.
Qed.

Lemma no_change (c : Q) : c == 0 -> 0 = gainOf c /\ 0 = lossOf c.
Proof.
  intro H. unfold gainOf, lossOf.
  assert (E1 : Qltb 0 c = false) by (apply Qltb_ge; lra).
  assert (E2 : Qltb c 0 = false) by (apply Qltb_ge; lra).
  rewrite E1, E2. split; reflexivity.
Qed.

Lemma Forall_map_of (P R : Q -> Prop) (f : Q -> Q) (l : list Q) :
  (forall x, P x -> R (f x)) -> Forall P l -> Forall R (map f l).
Proof.
  intros H HP. induction HP; constructor; auto.
Qed.

Section Averages.

Variable data : list Bar.
Variable gains losses : list Q.
Variable period : positive.

Let periodQ : Q := inject_Z (Zpos period).

Lemma periodQ_ge_1 : 1 <= periodQ.
Proof.
  unfold periodQ. change 1 with (inject_Z 1). rewrite <- Zle_Qle. lia.
Qed.

Lemma smoothed_zero (avg : Q) : avg == 0 -> (avg * (periodQ - 1) + 0) / periodQ == 0.
Proof. intro H. rewrite H. unfold Qdiv. ring. Qed.

Lemma smoothed_positive (avg x : Q) :
  0 <= avg -> 0 < x -> 0 < (avg * (periodQ - 1) + x) / periodQ.
Proof.
  intros Havg Hx. pose proof periodQ_ge_1 as Hp.
  apply Qlt_shift_div_l; [lra|]. rewrite Qmult_0_l.
  assert (0 <= avg * (periodQ - 1)) by (apply Qmult_le_0_compat; lra).
  lra.
Qed.

Lemma rsiOf_flat (avgGain avgLoss : Q) :
  avgGain == 0 -> avgLoss == 0 -> rsiOf avgGain avgLoss = 50.
Proof.
  intros Hg Hl. unfold rsiOf.
  apply Qeq_bool_iff in Hg. apply Qeq_bool_iff in Hl. rewrite Hl, Hg. reflexivity.
Qed.

Lemma rsiOf_no_loss (avgGain avgLoss : Q) :
  0 < avgGain -> avgLoss == 0 -> rsiOf avgGain avgLoss = 100.
Proof.
  intros Hg Hl. unfold rsiOf. apply Qeq_bool_iff in Hl. rewrite Hl.
  assert (E : Qeq_bool avgGain 0 = false) by (apply Qeq_bool_false; lra).
  rewrite E. reflexivity.
Qed.

Lemma rsiOf_no_gain (avgGain avgLoss : Q) :
  avgGain == 0 -> 0 < avgLoss -> rsiOf avgGain avgLoss == 0.
Proof.
  intros Hg Hl. unfold rsiOf.
  assert (E : Qeq_bool avgLoss 0 = false) by (apply Qeq_bool_false; lra).
  rewrite E, Hg. unfold Qdiv. rewrite Qmult_0_l. reflexivity.
Qed.

Lemma smoothLoop_flat :
  Forall (eq 0) gains -> Forall (eq 0) losses ->
  forall todo i avgGain avgLoss,
    avgGain == 0 -> avgLoss == 0 ->
    Forall (fun p => value p = 50)
      (smoothLoop data gains losses periodQ todo i avgGain avgLoss).
Proof.
  intros Hg Hl. induction todo as [|todo IH]; intros i ag al Hag Hal.
  - constructor.
  - cbn [smoothLoop]. rewrite (nth_all_zero gains i Hg), (nth_all_zero losses i Hl).
    pose proof (smoothed_zero ag Hag) as Eg.
    pose proof (smoothed_zero al Hal) as El.
    apply Forall_app. split; [|exact (IH _ _ _ Eg El)].
    rewrite (rsiOf_flat _ _ Eg El). unfold pushAt.
    destruct (nth_error data (S i)); repeat constructor.
Qed.

Lemma smoothLoop_rising :
  Forall (fun x => 0 < x) gains -> Forall (eq 0) losses ->
  forall todo i avgGain avgLoss,
    (i + todo = List.length gains)%nat ->
    0 < avgGain -> avgLoss == 0 ->
    Forall (fun p => value p = 100)
      (smoothLoop data gains losses periodQ todo i avgGain avgLoss).
Proof.
  intros Hg Hl. induction todo as [|todo IH]; intros i ag al Hlen Hag Hal.
  - constructor.
  - cbn [smoothLoop]. rewrite (nth_all_zero losses i Hl).
    assert (Hx : 0 < nth i gains 0)
      by (apply (nth_Forall (fun x => 0 < x)); [exact Hg | lia]).
    pose proof (smoothed_positive ag _ (Qlt_le_weak _ _ Hag) Hx) as Eg.
    pose proof (smoothed_zero al Hal) as El.
    apply Forall_app. split; [|apply IH; [lia | exact Eg | exact El]].
    rewrite (rsiOf_no_loss _ _ Eg El). unfold pushAt.
    destruct (nth_error data (S i)); repeat constructor.
Qed.

Lemma smoothLoop_falling :
  Forall (eq 0) gains -> Forall (fun x => 0 < x) losses ->
  forall todo i avgGain avgLoss,
    (i + todo = List.length losses)%nat ->
    avgGain == 0 -> 0 < avgLoss ->
    Forall (fun p => value p == 0)
      (smoothLoop data gains losses periodQ todo i avgGain avgLoss).
Proof.
  intros Hg Hl. induction todo as [|todo IH]; intros i ag al Hlen Hag Hal.
  - constructor.
  - cbn [smoothLoop]. rewrite (nth_all_zero gains i Hg).
    assert (Hx : 0 < nth i losses 0)
      by (apply (nth_Forall (fun x => 0 < x)); [exact Hl | lia]).
    pose proof (smoothed_zero ag Hag) as Eg.
    pose proof (smoothed_positive al _ (Qlt_le_weak _ _ Hal) Hx) as El.
    apply Forall_app. split; [|apply IH; [lia | exact Eg | exact El]].
    pose proof (rsiOf_no_gain _ _ Eg El) as Er.
    unfold pushAt. destruct (nth_error data (S i)); repeat constructor.
    cbn [value]. unfold clamp. VolumeProps.minmax_lra.
Qed.

End Averages.

Lemma average_zero (l : list Q) (period : positive) :
  Forall (eq 0) l -> sum l / inject_Z (Zpos period) == 0.
Proof.
  intro H. unfold sum. rewrite (fold_plus_zero l H). unfold Qdiv. ring.
Qed.

Lemma average_positive (l : list Q) (period : positive) :
  Forall (fun x => 0 < x) l -> l <> [] -> 0 < sum l / inject_Z (Zpos period).
Proof.
  intros H Hne. apply Qlt_shift_div_l; [reflexivity|]. rewrite Qmult_0_l.
  unfold sum. apply fold_plus_positive; [exact H | apply Qle_refl | exact Hne].
Qed.

Lemma firstn_nonempty (n : nat) (l : list Q) :
  (1 <= n)%nat -> (1 <= List.length l)%nat -> firstn n l <> [].
Proof.
  destruct n as [|n]; [lia|]. destruct l as [|x l]; [simpl; lia|]. discriminate.
Qed.

(** X6.  On a series whose closes never change, every RSI value is 50. *)
Theorem calculateRSI_flat (data : list Bar) (period : positive) :
  consecutive Qeq data ->
  Forall (fun p => value p = 50) (calculateRSI data period).
Proof.
  intro Hflat. unfold calculateRSI.
  destruct (List.length data <=? Pos.to_nat period)%nat; [constructor|].
  assert (Hc : Forall (fun c => c == 0) (changes data)).
  { apply (changes_Forall Qeq); [|exact Hflat]. intros x y E. rewrite E. ring. }
  assert (Hg : Forall (eq 0) (map gainOf (changes data)))
    by (apply (Forall_map_of (fun c => c == 0)); [|exact Hc];
        intros x Hx; exact (proj1 (no_change x Hx))).
  assert (Hl : Forall (eq 0) (map lossOf (changes data)))
    by (apply (Forall_map_of (fun c => c == 0)); [|exact Hc];
        intros x Hx; exact (proj2 (no_change x Hx))).
  pose proof (average_zero _ period (Forall_firstn_of _ (Pos.to_nat period) _ Hg))
    as Eg.
  pose proof (average_zero _ period (Forall_firstn_of _ (Pos.to_nat period) _ Hl))
    as El.
  apply Forall_app. split.
  - rewrite (rsiOf_flat _ _ Eg El). unfold pushAt.
    destruct (nth_error data (Pos.to_nat period)); repeat constructor.
  - apply smoothLoop_flat; assumption.
Qed.

Lemma calculateRSI_flat_witness :
  consecutive Qeq [mkBar 0 5 5 5 5 1; mkBar 60 5 6 4 5 2; mkBar 120 5 5 5 5 3]
  /\ map value
       (calculateRSI [mkBar 0 5 5 5 5 1; mkBar 60 5 6 4 5 2; mkBar 120 5 5 5 5 3] 1)
     = [50; 50].
Proof.
  assert (H : consecutive Qeq
                [mkBar 0 5 5 5 5 1; mkBar 60 5 6 4 5 2; mkBar 120 5 5 5 5 3])
    by (cbn; repeat split; reflexivity).
  split; [exact H|].
  pose proof (calculateRSI_flat _ 1 H) as Hall.
  destruct (calculateRSI [mkBar 0 5 5 5 5 1; mkBar 60 5 6 4 5 2; mkBar 120 5 5 5 5 3] 1)
    as [|p1 [|p2 [|p3 rest]]] eqn:E; try (vm_compute in E; discriminate E).
  inversion Hall as [|? ? H1 Hrest]; subst.
  inversion Hrest as [|? ? H2 _]; subst.
  cbn [map]. rewrite H1, H2. reflexivity.
Defined.

(** X7.  On a series whose closes rise at every bar, every RSI value is 100; on
    one whose closes fall at every bar, every RSI value is 0. *)
Theorem calculateRSI_monotone (data : list Bar) (period : positive) :
  (consecutive Qlt data ->
   Forall (fun p => value p = 100) (calculateRSI data period))
  /\ (consecutive (fun a b => b < a) data ->
      Forall (fun p => value p == 0) (calculateRSI data period)).
Proof.
  unfold calculateRSI.
  destruct (Nat.leb_spec (List.length data) (Pos.to_nat period)) as [Hle | Hgt];
    [split; constructor|].
  assert (Hlen : (1 <= List.length (changes data))%nat)
    by (rewrite changes_length; lia).
  assert (Hn : (1 <= Pos.to_nat period)%nat) by lia.
  split; intro Hmono.
  - assert (Hc : Forall (fun c => 0 < c) (changes data)).
    { apply (changes_Forall Qlt); [|exact Hmono]. intros x y E. lra. }
    assert (Hg : Forall (fun x => 0 < x) (map gainOf (changes data)))
      by (apply (Forall_map_of (fun c => 0 < c)); [|exact Hc];
          intros x Hx; exact (proj1 (gain_of_rise x Hx))).
    assert (Hl : Forall (eq 0) (map lossOf (changes data)))
      by (apply (Forall_map_of (fun c => 0 < c)); [|exact Hc];
          intros x Hx; exact (proj2 (gain_of_rise x Hx))).
    assert (Eg : 0 < sum (firstn (Pos.to_nat period) (map gainOf (changes data)))
                     / inject_Z (Zpos period)).
    { apply average_positive; [apply Forall_firstn_of; exact Hg|].
      apply firstn_nonempty; [exact Hn | rewrite length_map; exact Hlen]. }
    pose proof (average_zero _ period (Forall_firstn_of _ (Pos.to_nat period) _ Hl))
      as El.
    apply Forall_app. split.
    + rewrite (rsiOf_no_loss _ _ Eg El). unfold pushAt.
      destruct (nth_error data (Pos.to_nat period)); repeat constructor.
    + apply smoothLoop_rising; try assumption.
      rewrite !length_map, changes_length. lia.
  - assert (Hc : Forall (fun c => c < 0) (changes data)).
    { apply (changes_Forall (fun a b => b < a)); [|exact Hmono]. intros x y E. lra. }
    assert (Hg : Forall (eq 0) (map gainOf (changes data)))
      by (apply (Forall_map_of (fun c => c < 0)); [|exact Hc];
          intros x Hx; exact (proj1 (loss_of_fall x Hx))).
    assert (Hl : Forall (fun x => 0 < x) (map lossOf (changes data)))
      by (apply (Forall_map_of (fun c => c < 0)); [|exact Hc];
          intros x Hx; exact (proj2 (loss_of_fall x Hx))).
    pose proof (average_zero _ period (Forall_firstn_of _ (Pos.to_nat period) _ Hg))
      as Eg.
    assert (El : 0 < sum (firstn (Pos.to_nat period) (map lossOf (changes data)))
                     / inject_Z (Zpos period)).
    { apply average_positive; [apply Forall_firstn_of; exact Hl|].
      apply firstn_nonempty; [exact Hn | rewrite length_map; exact Hlen]. }
    apply Forall_app. split.
    + pose proof (rsiOf_no_gain _ _ Eg El) as Er. unfold pushAt.
      destruct (nth_error data (Pos.to_nat period)); repeat constructor.
      exact Er.
    + apply smoothLoop_falling; try assumption.
      rewrite !length_map, changes_length. lia.
Qed.

Lemma calculateRSI_monotone_witness :
  consecutive Qlt risingBars
  /\ Forall (fun p => value p = 100) (calculateRSI risingBars 14)
  /\ consecutive (fun a b => b < a) (rev risingBars)
  /\ Forall (fun p => value p == 0) (calculateRSI (rev risingBars) 14).
Proof.
  assert (Hup : consecutive Qlt risingBars)
    by (vm_compute; repeat split).
  assert (Hdown : consecutive (fun a b => b < a) (rev risingBars))
    by (vm_compute; repeat split).
  split; [exact Hup|].
  split; [exact (proj1 (calculateRSI_monotone risingBars 14) Hup)|].
  split; [exact Hdown|].
  exact (proj2 (calculateRSI_monotone (rev risingBars) 14) Hdown).
Defined.

End RSISeriesProps.

(** ** Moving averages *)

Module SmoothingProps.
Import RSI Smoothing.

Lemma inject_nat_succ (k : nat) :
  inject_Z (Z.of_nat (S k)) == inject_Z (Z.of_nat k) + 1.
Proof. rewrite Nat2Z.inj_succ. unfold Z.succ. rewrite inject_Z_plus. reflexivity. Qed.

(** What the inner loop of [calculateSMA] computes over the offsets [js]:
    it counts the defined values and adds them up. *)
Lemma window_fold (data : list Sample) (i : nat) (lo hi : Q) :
  forall js s c,
  exists s' k,
    fold_left (windowStep data i) js (s, c) = (s', (c + k)%nat)
    /\ (k <= List.length js)%nat
    /\ (k = List.length js <-> forall j, In j js -> valueAt data (i - j) <> None)
    /\ ((forall k v, valueAt data k = Some v -> lo <= v /\ v <= hi) ->
        s + lo * inject_Z (Z.of_nat k) <= s'
        /\ s' <= s + hi * inject_Z (Z.of_nat k)).
Proof.
  induction js as [|j js IH]; intros s c.
  - exists s, 0%nat. cbn [fold_left List.length]. rewrite Nat.add_0_r.
    split; [reflexivity|]. split; [lia|].
    split; [split; [intros _ j [] | reflexivity]|].
    intros _. change (inject_Z (Z.of_nat 0)) with 0. split; lra.
  - cbn [fold_left]. unfold windowStep at 2.
    destruct (valueAt data (i - j)) as [v|] eqn:Ev.
    + destruct (IH (fst (s, c) + v) (S (snd (s, c)))) as [s' [k [E [Hk [Hiff HLU]]]]].
      cbn [fst snd] in *. exists s', (S k).
      split; [rewrite E; f_equal; lia|].
      split; [cbn; lia|].
      split.
      * cbn [List.length]. split.
        -- intros Heq j' [<- | Hin]; [congruence|].
           exact (proj1 Hiff ltac:(lia) j' Hin).
        -- intro Hall. f_equal. apply (proj2 Hiff).
           intros j' Hin. apply Hall. right. exact Hin.
      * intro Hb. destruct (HLU Hb) as [L U]. destruct (Hb _ _ Ev) as [Hlo Hhi].
        rewrite inject_nat_succ. split; lra.
    + destruct (IH s c) as [s' [k [E [Hk [Hiff HLU]]]]].
      exists s', k. split; [exact E|]. split; [cbn; lia|].
      split; [|exact HLU].
      cbn [List.length]. split; [lia|].
      intro Hall. exfalso. apply (Hall j); [left; reflexivity | exact Ev].
Qed.

(** The windows [calculateSMA] emits a point for, and the value it emits. *)
Lemma smaAt_spec (data : list Sample) (period : positive) (i : nat) (lo hi : Q) :
  (smaAt data period i = []
   /\ ((i < Pos.to_nat period - 1)%nat \/ (List.length data <= i)%nat
       \/ exists j, (j < Pos.to_nat period)%nat /\ valueAt data (i - j) = None))
  \/ (exists d v,
        smaAt data period i = [mkPoint (s_time d) v]
        /\ nth_error data i = Some d
        /\ (Pos.to_nat period - 1 <= i)%nat
        /\ (forall j, (j < Pos.to_nat period)%nat -> valueAt data (i - j) <> None)
        /\ ((forall k v, valueAt data k = Some v -> lo <= v /\ v <= hi) ->
            lo <= v /\ v <= hi)).
Proof.
  unfold smaAt.
  destruct (Nat.ltb_spec i (Pos.to_nat period - 1)) as [Hlt | Hge];
    [left; split; [reflexivity | left; exact Hlt]|].
  destruct (window_fold data i lo hi (seq 0 (Pos.to_nat period)) 0 0%nat)
    as [s' [k [E [Hk [Hiff HLU]]]]].
  rewrite E. rewrite length_seq in *. cbn [Nat.add].
  destruct (Nat.eqb_spec k (Pos.to_nat period)) as [Heq | Hne].
  - pose proof (proj1 Hiff Heq) as Hall.
    assert (Hdef : forall j, (j < Pos.to_nat period)%nat ->
                             valueAt data (i - j) <> None).
    { intros j Hj. apply Hall. apply in_seq. lia. }
    destruct (nth_error data i) as [d|] eqn:Ed.
    + right. exists d, (s' / inject_Z (Z.pos period)).
      split; [reflexivity|]. split; [reflexivity|]. split; [exact Hge|].
      split; [exact Hdef|].
      intro Hb. destruct (HLU Hb) as [L U].
      rewrite Heq, positive_nat_Z in L, U.
      assert (Hp : 0 < inject_Z (Z.pos period)) by reflexivity.
      split.
      * apply Qle_shift_div_l; [exact Hp | lra].
      * apply Qle_shift_div_r; [exact Hp | lra].
    + left. split; [reflexivity|]. right. left.
      apply nth_error_None. exact Ed.
  - left. split; [reflexivity|]. right. right.
    assert (Hex : ~ forall j, In j (seq 0 (Pos.to_nat period)) ->
                              valueAt data (i - j) <> None)
      by (intro Hall; apply Hne; apply (proj2 Hiff); exact Hall).
    clear - Hex.
    assert (Hdec : forall n,
               (forall j, (j < n)%nat -> valueAt data (i - j) <> None)
               \/ exists j, (j < n)%nat /\ valueAt data (i - j) = None).
    { induction n as [|n [IH | [j [Hj Hn]]]].
      - left. intros j Hj. lia.
      - destruct (valueAt data (i - n)) eqn:En.
        + left. intros j Hj.
          destruct (Nat.eq_dec j n) as [-> | Hjn]; [congruence | apply IH; lia].
        + right. exists n. split; [lia | exact En].
      - right. exists j. split; [lia | exact Hn]. }
    destruct (Hdec (Pos.to_nat period)) as [Hall | Hsome]; [|exact Hsome].
    exfalso. apply Hex. intros j Hj. apply Hall. apply in_seq in Hj. lia.
Qed.

(** X8.  [calculateSMA] emits a point at position [i] exactly when the window of
    [period] values ending at [i] lies inside the series and holds no
    undefined value: a window with a gap is skipped, not averaged as if the
    gap were zero. *)
Theorem calculateSMA_windows (data : list Sample) (period : positive) (i : nat) :
  (exists pt, smaAt data period i = [pt])
  <-> ((Pos.to_nat period - 1 <= i < List.length data)%nat
       /\ forall j, (j < Pos.to_nat period)%nat -> valueAt data (i - j) <> None).
Proof.
  split.
  - intros [pt Hpt].
    destruct (smaAt_spec data period i 0 0)
      as [[E _] | [d [v [E [Hd [Hge [Hdef _]]]]]]]; [congruence|].
    split; [|exact Hdef].
    split; [exact Hge | apply nth_error_Some; congruence].
  - intros [[Hge Hlt] Hdef].
    destruct (smaAt_spec data period i 0 0)
      as [[E [H | [H | [j [Hj Hn]]]]] | [d [v [E _]]]];
      [lia | lia | exfalso; exact (Hdef j Hj Hn) | exists (mkPoint (s_time d) v); exact E].
Qed.

Lemma calculateSMA_windows_witness :
  (exists pt,
      smaAt [mkSample 0 (Some 1); mkSample 60 (Some 2); mkSample 120 (Some 6)] 2 2
      = [pt])
  /\ smaAt [mkSample 0 (Some 1); mkSample 60 None; mkSample 120 (Some 6)] 2 2 = [].
Proof.
  split.
  - apply (proj2 (calculateSMA_windows _ 2 2)).
    split; [cbn; lia|]. intros [|[|j]] Hj; [discriminate | discriminate | lia].
  - destruct (smaAt [mkSample 0 (Some 1); mkSample 60 None; mkSample 120 (Some 6)] 2 2)
      as [|pt rest] eqn:E; [reflexivity|].
    exfalso. vm_compute in E. discriminate E.
Defined.

Lemma valueAt_In (data : list Sample) (k : nat) (v : Q) :
  valueAt data k = Some v -> exists d, In d data /\ s_value d = Some v.
Proof.
  unfold valueAt. destruct (nth_error data k) as [d|] eqn:E; [|discriminate].
  intro H. exists d. split; [eapply nth_error_In; exact E | exact H].
Qed.

Lemma smaAt_within (data : list Sample) (period : positive) (lo hi : Q) (i : nat) :
  (forall d v, In d data -> s_value d = Some v -> lo <= v /\ v <= hi) ->
  Forall (within lo hi) (smaAt data period i).
Proof.
  intro Hb.
  assert (Hb' : forall k v, valueAt data k = Some v -> lo <= v /\ v <= hi).
  { intros k v Hv. destruct (valueAt_In _ _ _ Hv) as [d [Hin Hd]].
    exact (Hb d v Hin Hd). }
  destruct (smaAt_spec data period i lo hi)
    as [[-> _] | [d [v [-> [_ [_ [_ Hv]]]]]]]; [constructor|].
  constructor; [exact (Hv Hb') | constructor].
Qed.



(** The RSI points are within [0, 100] (as the first part of the file
    shows); restated here on the points themselves. *)
Lemma rsi_points_inRange (data : list Bar) (period : positive) :
  Forall RSI.inRange (calculateRSI data period).
Proof.
  unfold calculateRSI.
  destruct (List.length data <=? Pos.to_nat period)%nat; [constructor|].
  apply Forall_app. split; [|apply RSIProps.smoothLoop_inRange].
  apply RSIProps.pushAt_inRange. apply RSIProps.rsiOf_bounds.
  - apply RSIProps.average_nonneg. apply RSIProps.sum_firstn_nonneg.
    apply Forall_forall. intros x Hx. apply in_map_iff in Hx.
    destruct Hx as [c [<- _]]. apply RSIProps.gainOf_nonneg.
  - apply RSIProps.average_nonneg. apply RSIProps.sum_firstn_nonneg.
    apply Forall_forall. intros x Hx. apply in_map_iff in Hx.
    destruct Hx as [c [<- _]]. apply RSIProps.lossOf_nonneg.
Qed.

Lemma skipn_cons_sample (data : list Sample) (k : nat) (d : Sample) :
  nth_error data k = Some d -> skipn k data = d :: skipn (S k) data.
Proof.
  revert k. induction data as [|a data IH]; intros [|k] H; try discriminate.
  - injection H as ->. reflexivity.
  - cbn [skipn]. apply IH. exact H.
Qed.

(** On a series without gaps the windows from position [period - 1] on all
    emit, in order. *)
Lemma sma_times (data : list Sample) (period : positive) :
  (forall d, In d data -> s_value d <> None) ->
  forall len start,
    (start + len = List.length data)%nat ->
    map p_time (flat_map (smaAt data period) (seq start len))
    = map s_time (skipn (Nat.max start (Pos.to_nat period - 1)) data).
Proof.
  intro Hdef.
  assert (Hval : forall k, (k < List.length data)%nat -> valueAt data k <> None).
  { intros k Hk. unfold valueAt.
    destruct (nth_error data k) as [d|] eqn:E.
    - apply Hdef. eapply nth_error_In. exact E.
    - apply nth_error_None in E. lia. }
  induction len as [|len IH]; intros start Hlen.
  - cbn. rewrite skipn_all2 by lia. reflexivity.
  - cbn [seq flat_map]. rewrite map_app, (IH (S start)) by lia.
    destruct (smaAt_spec data period start 0 0)
      as [[E [H | [H | [j [Hj Hn]]]]] | [d [v [E [Hd [Hge _]]]]]].
    + rewrite E. cbn [map app]. f_equal. f_equal. lia.
    + lia.
    + exfalso. apply (Hval (start - j)%nat); [lia | exact Hn].
    + rewrite E. cbn [map app p_time].
      replace (Nat.max start (Pos.to_nat period - 1)) with start by lia.
      replace (Nat.max (S start) (Pos.to_nat period - 1)) with (S start) by lia.
      rewrite (skipn_cons_sample _ _ _ Hd). reflexivity.
Qed.

(** X10.  On a series without undefined values [calculateSMA] returns one point
    for every entry from position [period - 1] on, in order and at that
    entry's time: the first [period - 1] entries are the warm-up. *)
Theorem calculateSMA_aligned (data : list Sample) (period : positive) :
  (forall d, In d data -> s_value d <> None) ->
  map p_time (calculateSMA data period)
  = map s_time (skipn (Pos.to_nat period - 1) data)
  /\ List.length (calculateSMA data period)
     = (List.length data - (Pos.to_nat period - 1))%nat.
Proof.
  intro Hdef.
  assert (Htimes : map p_time (calculateSMA data period)
                   = map s_time (skipn (Pos.to_nat period - 1) data)).
  { unfold calculateSMA.
    rewrite (sma_times data period Hdef (List.length data) 0%nat eq_refl).
    reflexivity. }
  split; [exact Htimes|].
  rewrite <- (length_map p_time), Htimes, length_map, length_skipn. reflexivity.
Qed.

Lemma calculateSMA_aligned_witness :
  (forall d,
      In d [mkSample 0 (Some 1); mkSample 60 (Some 2); mkSample 120 (Some 6)] ->
      s_value d <> None)
  /\ map p_time
       (calculateSMA [mkSample 0 (Some 1); mkSample 60 (Some 2); mkSample 120 (Some 6)] 2)
     = [60; 120]%Z.
Proof.
  assert (H : forall d,
             In d [mkSample 0 (Some 1); mkSample 60 (Some 2); mkSample 120 (Some 6)] ->
             s_value d <> None)
    by (intros d [<- | [<- | [<- | []]]]; discriminate).
  split; [exact H|].
  exact (proj1 (calculateSMA_aligned _ 2 H)).
Defined.

(** X11.  The optional SMA line that [createRSIChart] draws over the RSI series
    stays between 0 and 100, and has one point per RSI point from position
    [smaPeriod - 1] on, at that point's time. *)
Theorem rsi_sma_line (data : list Bar) (rsiPeriod smaPeriod : positive) :
  let rsiData := calculateRSI data rsiPeriod in
  Forall (within 0 100) (calculateSMA (samplesOf rsiData) smaPeriod)
  /\ map p_time (calculateSMA (samplesOf rsiData) smaPeriod)
     = map p_time (skipn (Pos.to_nat smaPeriod - 1) rsiData).
Proof.
  intro rsiData. split.
  - unfold calculateSMA. apply Forall_flat_map. apply Forall_forall.
    intros i _. apply smaAt_within.
    intros d v Hin Hv. unfold samplesOf in Hin. apply in_map_iff in Hin.
    destruct Hin as [pt [<- Hpt]]. cbn in Hv. injection Hv as <-.
    pose proof (rsi_points_inRange data rsiPeriod) as Hr.
    rewrite Forall_forall in Hr. exact (Hr pt Hpt).
  - unfold calculateSMA.
    rewrite (sma_times (samplesOf rsiData) smaPeriod); [| |reflexivity].
    + cbn [Nat.max]. unfold samplesOf. rewrite skipn_map, map_map. reflexivity.
    + intros d Hin. unfold samplesOf in Hin. apply in_map_iff in Hin.
      destruct Hin as [pt [<- _]]. discriminate.
Qed.

(** *** Exponential moving average *)

Lemma emaLoop_times (k : Q) (rest : list Bar) :
  forall ema, map p_time (emaLoop k rest ema) = map time rest.
Proof.
  induction rest as [|d rest IH]; intro ema; simpl; [reflexivity|].
  rewrite IH. reflexivity.
Qed.

Lemma skipn_cons_bar (data : list Bar) (k : nat) (d : Bar) :
  nth_error data k = Some d -> skipn k data = d :: skipn (S k) data.
Proof.
  revert k. induction data as [|a data IH]; intros [|k] H; try discriminate.
  - injection H as ->. reflexivity.
  - cbn [skipn]. apply IH. exact H.
Qed.

(** X12.  [calculateEMA] returns nothing for fewer bars than the period;
    otherwise one point for every bar from position [period - 1] on, in order
    and at that bar's time. *)
Theorem calculateEMA_aligned (data : list Bar) (period : positive) :
  ((List.length data < Pos.to_nat period)%nat -> calculateEMA data period = [])
  /\ ((Pos.to_nat period <= List.length data)%nat ->
      map p_time (calculateEMA data period)
      = map time (skipn (Pos.to_nat period - 1) data)
      /\ List.length (calculateEMA data period)
         = (List.length data - (Pos.to_nat period - 1))%nat).
Proof.
  unfold calculateEMA. split; intro Hlen.
  - apply Nat.ltb_lt in Hlen. rewrite Hlen. reflexivity.
  - assert (Hge : (List.length data <? Pos.to_nat period)%nat = false)
      by (apply Nat.ltb_ge; exact Hlen).
    rewrite Hge.
    destruct (nth_error data (Pos.to_nat period - 1)) as [d|] eqn:Ed.
    + assert (Htimes :
        map p_time
          (mkPoint (time d)
             (fold_left (fun sum d0 => sum + close d0)
                (firstn (Pos.to_nat period) data) 0 / inject_Z (Z.pos period))
           :: emaLoop (2 / (inject_Z (Z.pos period) + 1))
                (skipn (Pos.to_nat period) data)
                (fold_left (fun sum d0 => sum + close d0)
                   (firstn (Pos.to_nat period) data) 0 / inject_Z (Z.pos period)))
        = map time (skipn (Pos.to_nat period - 1) data)).
      { cbn [map p_time]. rewrite emaLoop_times, (skipn_cons_bar _ _ _ Ed).
        cbn [map]. replace (S (Pos.to_nat period - 1)) with (Pos.to_nat period) by lia.
        reflexivity. }
      split; [exact Htimes|].
      rewrite <- (length_map p_time), Htimes, length_map, length_skipn.
      reflexivity.
    + apply nth_error_None in Ed. lia.
Qed.

Lemma calculateEMA_aligned_witness :
  (Pos.to_nat 12 <= List.length risingBars)%nat
  /\ List.length (calculateEMA risingBars 12) = 9%nat.
Proof.
  assert (H : (Pos.to_nat 12 <= List.length risingBars)%nat) by (vm_compute; lia).
  split; [exact H|].
  exact (proj2 (proj2 (calculateEMA_aligned risingBars 12) H)).
Defined.







End SmoothingProps.

(** ** FRVP: the rows and what they hold *)

Module RowProps.
Import FRVP VolumeProps ProfileProps.

(** *** Overlap *)

Lemma overlapRatio_range (low1 high1 low2 high2 : Q) :
  0 <= calculateOverlapRatio low1 high1 low2 high2
  /\ calculateOverlapRatio low1 high1 low2 high2 <= 1.
Proof.
  unfold calculateOverlapRatio.
  destruct (Qltb 0 (high1 - low1)) eqn:Et; [|split; lra].
  apply Qltb_lt in Et.
  assert (H0 : 0 <= Qmax 0 (Qmin high1 high2 - Qmax low1 low2))
    by apply Q.le_max_l.
  assert (H1 : Qmax 0 (Qmin high1 high2 - Qmax low1 low2) <= high1 - low1)
    by minmax_lra.
  split; [apply Qle_shift_div_l | apply Qle_shift_div_r]; try exact Et; lra.
Qed.

Lemma overlapRatio_disjoint (low1 high1 low2 high2 : Q) :
  rangesOverlap low1 high1 low2 high2 = false ->
  calculateOverlapRatio low1 high1 low2 high2 == 0.
Proof.
  unfold calculateOverlapRatio, rangesOverlap. intro Hno.
  destruct (Qltb 0 (high1 - low1)); [|reflexivity].
  apply andb_false_iff in Hno.
  assert (Hz : Qmax 0 (Qmin high1 high2 - Qmax low1 low2) == 0).
  { destruct Hno as [Hno | Hno].
    - assert (Hlt : ~ low1 <= high2)
        by (intro Hle; apply Qle_bool_iff in Hle; rewrite Hle in Hno;
            discriminate Hno).
      minmax_lra.
    - assert (Hlt : ~ low2 <= high1)
        by (intro Hle; apply Qle_bool_iff in Hle; rewrite Hle in Hno;
            discriminate Hno).
      minmax_lra. }
  rewrite Hz. unfold Qdiv. lra.
Qed.

(** X14.  The overlap ratio is a fraction of the bar: it lies in [[0, 1]] for all
    arguments, and it is 0 for two ranges that [rangesOverlap] rejects, so
    the test in [distributeVolume] skips only rows that would receive
    nothing. *)
Theorem overlap_ratio_unit (low1 high1 low2 high2 : Q) :
  0 <= calculateOverlapRatio low1 high1 low2 high2
  /\ calculateOverlapRatio low1 high1 low2 high2 <= 1
  /\ (rangesOverlap low1 high1 low2 high2 = false ->
      calculateOverlapRatio low1 high1 low2 high2 == 0).
Proof.
  destruct (overlapRatio_range low1 high1 low2 high2) as [H0 H1].
  split; [exact H0|]. split; [exact H1|]. apply overlapRatio_disjoint.
Qed.

(** *** What [distributeVolume] keeps *)

Lemma distributeVolume_Forall (P : Row -> Prop) (bars : list Bar) :
  (forall bar r, In bar bars -> P r -> P (addBarToRow bar r)) ->
  forall rows, Forall P rows -> Forall P (distributeVolume bars rows).
Proof.
  unfold distributeVolume.
  induction bars as [|bar bars IH]; intros Hstep rows Hrows; simpl; [exact Hrows|].
  apply IH.
  - intros bar' r Hin. apply Hstep. right. exact Hin.
  - rewrite Forall_forall in *. intros r Hr. apply in_map_iff in Hr.
    destruct Hr as [r0 [<- Hr0]]. apply Hstep; [left; reflexivity | auto].
Qed.

Lemma created_zero (low high : Q) (settings : Config) (rows : list Row) :
  createPriceLevelRows low high settings = Some rows ->
  Forall (fun r => upVolume r = 0 /\ downVolume r = 0
                   /\ totalVolume r = 0 /\ delta r = 0) rows.
Proof.
  intro Hc.
  destruct (createPriceLevelRows_shape _ _ _ _ Hc) as [-> | [numRows [_ ->]]];
    [constructor|].
  rewrite Forall_forall. intros r Hr. apply in_map_iff in Hr.
  destruct Hr as [i [<- _]]. repeat split.
Qed.

Lemma addBarToRow_balanced (bar : Bar) (r : Row) :
  totalVolume r == upVolume r + downVolume r /\ delta r == upVolume r - downVolume r ->
  totalVolume (addBarToRow bar r)
  == upVolume (addBarToRow bar r) + downVolume (addBarToRow bar r)
  /\ delta (addBarToRow bar r)
     == upVolume (addBarToRow bar r) - downVolume (addBarToRow bar r).
Proof.
  intros [Ht Hd]. unfold addBarToRow.
  destruct (rangesOverlap _ _ _ _); [|split; assumption].
  destruct (Qle_bool (open bar) (close bar));
    cbn [totalVolume upVolume downVolume delta]; split; lra.
Qed.

Lemma addBarToRow_nonneg (bar : Bar) (r : Row) :
  0 <= volume bar ->
  0 <= upVolume r /\ 0 <= downVolume r ->
  0 <= upVolume (addBarToRow bar r) /\ 0 <= downVolume (addBarToRow bar r).
Proof.
  intros Hv [Hu Hd]. unfold addBarToRow.
  destruct (rangesOverlap _ _ _ _); [|split; assumption].
  destruct (overlapRatio_range (low bar) (high bar) (priceLow r) (priceHigh r))
    as [H0 _].
  pose proof (Qmult_le_0_compat _ _ Hv H0) as Hm.
  destruct (Qle_bool (open bar) (close bar));
    cbn [upVolume downVolume]; split; lra.
Qed.



(** *** The rows of [createPriceLevelRows] *)

Lemma count_positive (numRows : Q) :
  1 <= numRows -> (1 <= Z.to_nat (Qceiling numRows))%nat.
Proof.
  intro Hn. pose proof (Qle_ceiling numRows) as Hc.
  assert (H1 : inject_Z 1 <= inject_Z (Qceiling numRows))
    by (change (inject_Z 1) with 1; lra).
  rewrite <- Zle_Qle in H1. lia.
Qed.






Lemma created_length (low high numRows : Q) :
  List.length (map (makeRow low high ((high - low) / numRows))
                   (seq 0 (Z.to_nat (Qceiling numRows))))
  = Z.to_nat (Qceiling numRows).
Proof. rewrite length_map, length_seq. reflexivity. Qed.





End RowProps.

(** ** FRVP: what a call of [calculateProfile] does *)

Module OutcomeProps.
Import FRVP POCProps ValueAreaProps VolumeProps DevelopingProps ProfileProps RowProps.



(** *** The number of rows *)

Lemma numRowsOf_number (range size : Q) (layout : string) :
  layout <> "Tick"%string -> layout <> "Percentage"%string ->
  numRowsOf range size layout = Finite size.
Proof.
  intros Ht Hp. unfold numRowsOf.
  destruct (String.eqb layout "Number"); [reflexivity|].
  destruct (String.eqb_spec layout "Tick"); [contradiction|].
  destruct (String.eqb_spec layout "Percentage"); [contradiction | reflexivity].
Qed.

(** X19.  In the Number layout, which is also the default and the fallback for an
    unknown layout, the number of rows is the row size rounded up, at least
    one, whatever the price range is; without a row size it is 200. *)
Theorem number_layout_count (low high : Q) (settings : Config) :
  rowsLayoutOf settings <> "Tick"%string ->
  rowsLayoutOf settings <> "Percentage"%string ->
  exists rows,
    createPriceLevelRows low high settings = Some rows
    /\ Z.of_nat (List.length rows) = Qceiling (Qmax 1 (rowSizeOf settings))
    /\ (1 <= List.length rows)%nat
    /\ (rowSize settings = None -> List.length rows = 200%nat).
Proof.
  intros Ht Hp. unfold createPriceLevelRows.
  rewrite (numRowsOf_number _ _ _ Ht Hp). cbn [jsMax1].
  eexists. split; [reflexivity|]. rewrite created_length.
  pose proof (count_positive (Qmax 1 (rowSizeOf settings)) (Q.le_max_l _ _)) as Hc.
  split; [lia|]. split; [exact Hc|].
  intro Hnone. unfold rowSizeOf. rewrite Hnone. reflexivity.
Qed.

Lemma number_layout_count_witness :
  exists rows,
    createPriceLevelRows 5 5 emptyConfig = Some rows
    /\ List.length rows = 200%nat.
Proof.
  assert (Ht : rowsLayoutOf emptyConfig <> "Tick"%string) by discriminate.
  assert (Hp : rowsLayoutOf emptyConfig <> "Percentage"%string) by discriminate.
  destruct (number_layout_count 5 5 emptyConfig Ht Hp) as [rows [Hc [_ [_ Hd]]]].
  exists rows. split; [exact Hc | exact (Hd eq_refl)].
Defined.

(** *** Row heights that are zero *)

Lemma distributeVolume_nil (bars : list Bar) : distributeVolume bars [] = [].
Proof.
  unfold distributeVolume. induction bars as [|bar bars IH]; simpl; [reflexivity|].
  exact IH.
Qed.

Lemma jsDiv_by_zero (a b : Q) :
  b == 0 ->
  (0 < a -> jsDiv a b = PosInfinity) /\ (a == 0 -> jsDiv a b = NotANumber).
Proof.
  intro Hb. unfold jsDiv.
  assert (E : Qeq_bool b 0 = true) by (apply Qeq_bool_iff; exact Hb).
  rewrite E. split; intro Ha.
  - apply Qltb_lt in Ha. rewrite Ha. reflexivity.
  - assert (E1 : Qltb 0 a = false) by (apply Qltb_ge; lra).
    assert (E2 : Qltb a 0 = false) by (apply Qltb_ge; lra).
    rewrite E1, E2. reflexivity.
Qed.

Lemma numRowsOf_zero_height (range size : Q) (layout : string) :
  (layout = "Tick"%string /\ size == 0)
  \/ (layout = "Percentage"%string /\ (size == 0 \/ range == 0)) ->
  (0 < range -> numRowsOf range size layout = PosInfinity)
  /\ (range == 0 -> numRowsOf range size layout = NotANumber).
Proof.
  intros [[-> Hs] | [-> Hs]]; unfold numRowsOf;
    cbn [String.eqb Ascii.eqb Bool.eqb andb].
  - destruct (jsDiv_by_zero range size Hs) as [Hpos Hzero].
    split; intro Hr; [rewrite (Hpos Hr) | rewrite (Hzero Hr)]; reflexivity.
  - assert (Hh : range * size / 100 == 0).
    { destruct Hs as [Hs | Hs]; rewrite Hs; unfold Qdiv; ring. }
    destruct (jsDiv_by_zero range _ Hh) as [Hpos Hzero].
    split; intro Hr; [rewrite (Hpos Hr) | rewrite (Hzero Hr)]; reflexivity.
Qed.

(** X20.  A row height of zero: Tick layout with row size 0, or Percentage layout
    with row size 0 or over a single price.  Over a range with extent the
    row loop of [createPriceLevelRows] never ends; over a single price no
    row is created and [calculatePOC] throws. *)
Theorem zero_row_height_outcomes (d : nat) (self config : Config)
    (b : Bar) (bs : list Bar) :
  let settings := merge self config in
  (rowsLayoutOf settings = "Tick"%string /\ rowSizeOf settings == 0)
  \/ (rowsLayoutOf settings = "Percentage"%string
      /\ (rowSizeOf settings == 0 \/ profileHighOf b bs - profileLowOf b bs == 0)) ->
  (profileLowOf b bs < profileHighOf b bs ->
   calculateProfile (S d) self (Some (b :: bs)) config = Diverges)
  /\ (profileLowOf b bs == profileHighOf b bs ->
      calculateProfile (S d) self (Some (b :: bs)) config
      = Throws (Error "No rows provided for POC calculation")).
Proof.
  intros settings Hz.
  destruct (numRowsOf_zero_height (profileHighOf b bs - profileLowOf b bs)
              (rowSizeOf settings) (rowsLayoutOf settings) Hz) as [Hpos Hzero].
  cbn [calculateProfile]. unfold calculateProfileWith. cbv zeta.
  fold settings. unfold createPriceLevelRows.
  split; intro Hr.
  - rewrite Hpos by lra. reflexivity.
  - rewrite Hzero by lra. cbn [jsMax1].
    change (distributeVolume (b :: bs) []) with (distributeVolume bs []) .
    rewrite distributeVolume_nil. reflexivity.
Qed.

Lemma zero_row_height_outcomes_witness :
  calculateProfile 2 emptyConfig (Some (rangeHead :: rangeTail))
    (mkConfig (Some 0) (Some "Tick"%string) None None None) = Diverges
  /\ calculateProfile 2 emptyConfig (Some [mkBar 0 11 11 11 11 50])
       (mkConfig (Some 10) (Some "Percentage"%string) None None None)
     = Throws (Error "No rows provided for POC calculation").
Proof.
  split.
  - apply (zero_row_height_outcomes 1 emptyConfig
             (mkConfig (Some 0) (Some "Tick"%string) None None None)
             rangeHead rangeTail).
    + left. split; reflexivity.
    + reflexivity.
  - apply (zero_row_height_outcomes 1 emptyConfig
             (mkConfig (Some 10) (Some "Percentage"%string) None None None)
             (mkBar 0 11 11 11 11 50) []).
    + right. split; [reflexivity | right; reflexivity].
    + reflexivity.
Defined.

(** *** Row sizes that are not zero *)

Lemma numRowsOf_finite (range size : Q) (layout : string) :
  ~ size == 0 ->
  numRowsOf range size layout <> PosInfinity
  /\ ((layout = "Percentage"%string -> ~ range == 0) ->
      jsMax1 (numRowsOf range size layout) <> NotANumber).
Proof.
  intro Hs. unfold numRowsOf.
  assert (Es : Qeq_bool size 0 = false) by (apply Qeq_bool_false; exact Hs).
  destruct (String.eqb layout "Number"); [split; discriminate|].
  destruct (String.eqb layout "Tick").
  { unfold jsDiv. rewrite Es. split; discriminate. }
  destruct (String.eqb_spec layout "Percentage") as [-> | _]; [|split; discriminate].
  unfold jsDiv.
  destruct (Qeq_bool (range * size / 100) 0) eqn:Eh; [|split; discriminate].
  apply Qeq_bool_iff in Eh.
  assert (Hr : range == 0).
  { assert (Hm : range * size == 0).
    { assert (E : range * size == range * size / 100 * 100) by (field; lra).
      rewrite E, Eh. ring. }
    destruct (Qmult_integral _ _ Hm) as [H0 | H0]; [exact H0 | contradiction]. }
  assert (E1 : Qltb 0 range = false) by (apply Qltb_ge; lra).
  assert (E2 : Qltb range 0 = false) by (apply Qltb_ge; lra).
  rewrite E1, E2. split; [discriminate|].
  intro Hp. exfalso. exact (Hp eq_refl Hr).
Qed.

(** With a row size other than zero the row loop always ends. *)
Lemma created_defined (low high : Q) (settings : Config) :
  ~ rowSizeOf settings == 0 -> createPriceLevelRows low high settings <> None.
Proof.
  intro Hs. unfold createPriceLevelRows.
  destruct (numRowsOf_finite (high - low) (rowSizeOf settings) (rowsLayoutOf settings) Hs)
    as [Hinf _].
  destruct (numRowsOf _ _ _) as [q| | |]; cbn [jsMax1]; try discriminate.
  contradiction.
Qed.



(** A nested call with both flags off does not hang when the row size is
    not zero. *)
Lemma nested_profile_ends
    (cd : list Bar -> Config -> Outcome (list DevPoint))
    (self settings : Config) (bars : list Bar) :
  ~ rowSizeOf (merge self (flagsOff settings)) == 0 ->
  calculateProfileWith cd self (Some bars) (flagsOff settings) <> Diverges.
Proof.
  intro Hs. unfold calculateProfileWith.
  destruct bars as [|b bs]; [discriminate|].
  cbv zeta. rewrite wantsDeveloping_flagsOff.
  pose proof (created_defined (profileLowOf b bs) (profileHighOf b bs) _ Hs) as Hd.
  destruct (createPriceLevelRows _ _ _) as [created|]; [|contradiction].
  destruct (calculatePOC _) as [poc | e | |] eqn:E; try discriminate.
  - destruct (calculateValueArea _ _ _) as [[vh|] [vl|] vm]; discriminate.
  - unfold calculatePOC in E. destruct (distributeVolume _ _); discriminate.
Qed.

Lemma developingLoop_ends
    (cp : option (list Bar) -> Config -> Outcome Profile)
    (bars : list Bar) (settings : Config) (step : nat) :
  (forall prefix, cp (Some prefix) (flagsOff settings) <> Diverges) ->
  forall budget i, developingLoop cp bars settings step budget i <> Diverges.
Proof.
  intro Hcp. induction budget as [|budget IH]; intro i; simpl.
  - destruct (i <=? List.length bars)%nat; discriminate.
  - destruct (i <=? List.length bars)%nat; [|discriminate].
    unfold samplePrefix.
    pose proof (Hcp (firstn i bars)) as Hp.
    pose proof (IH (i + step)%nat) as Hnext.
    destruct (cp _ _) as [p | e | |]; try congruence; try discriminate.
    + destruct (last _ _);
        destruct (developingLoop cp bars settings step budget (i + step));
        congruence || discriminate.
    + destruct (developingLoop cp bars settings step budget (i + step));
        congruence || discriminate.
Qed.

Lemma developing_returns (d : nat) (self : Config) (bars : list Bar)
    (settings : Config) :
  ~ rowSizeOf (merge self (flagsOff settings)) == 0 ->
  exists points,
    calculateDevelopingWith (calculateProfile (S d) self) bars settings
    = Returns points.
Proof.
  intro Hs. unfold calculateDevelopingWith.
  destruct (developingLoop _ _ _ _ _ _) as [points | e | |] eqn:E.
  - exists points. reflexivity.
  - exfalso. exact (developingLoop_never_throws _ _ _ _ _ _ e E).
  - exfalso. revert E. apply developingLoop_ends. intro prefix.
    cbn [calculateProfile]. apply nested_profile_ends. exact Hs.
  - exfalso. revert E. apply developingLoop_budget.
    + apply stepOf_positive.
    + intro prefix. cbn [calculateProfile].
      apply (proj2 (calculateProfileWith_flagsOff _ (fun _ _ => OutOfFuel)
                      self (Some prefix) _)).
    + pose proof (stepOf_positive (List.length bars)). lia.
Qed.




(** *** Developing samples *)

Lemma last_defined (l : list Bar) (x : Bar) :
  last (map Some l) None = Some x -> In x l.
Proof.
  induction l as [|a l IH]; [discriminate|].
  destruct l as [|a' l'].
  - cbn. intros [= ->]. left. reflexivity.
  - intro H. right. apply IH. exact H.
Qed.

Lemma samplePrefix_pushes
    (cp : option (list Bar) -> Config -> Outcome Profile)
    (bars : list Bar) (settings : Config) (i : nat) (pushed : list DevPoint) :
  samplePrefix cp bars settings i = Returns pushed ->
  (List.length pushed <= 1)%nat
  /\ Forall (fun pt => In (timestamp pt) (map time bars)) pushed.
Proof.
  unfold samplePrefix.
  destruct (cp _ _) as [p | e | |]; try discriminate.
  - destruct (last _ _) as [lastBar|] eqn:El; intros [= <-].
    + split; [cbn; lia|]. constructor; [|constructor].
      cbn [timestamp]. apply in_map. apply last_defined in El.
      rewrite <- (firstn_skipn i bars). apply in_or_app. left. exact El.
    + split; [cbn; lia | constructor].
  - intros [= <-]. split; [cbn; lia | constructor].
Qed.

Lemma developingLoop_points
    (cp : option (list Bar) -> Config -> Outcome Profile)
    (bars : list Bar) (settings : Config) (step : nat) :
  forall budget i points,
    developingLoop cp bars settings step budget i = Returns points ->
    (List.length points * step <= List.length bars + step - i)%nat
    /\ Forall (fun pt => In (timestamp pt) (map time bars)) points.
Proof.
  induction budget as [|budget IH]; intros i points; simpl.
  - destruct (i <=? List.length bars)%nat; [discriminate|].
    intros [= <-]. split; [cbn; lia | constructor].
  - destruct (Nat.leb_spec i (List.length bars)) as [Hi | Hi].
    + destruct (samplePrefix cp bars settings i) as [pushed | e | |] eqn:Es;
        try discriminate.
      destruct (developingLoop cp bars settings step budget (i + step))
        as [more | e | |] eqn:Em; try discriminate.
      intros [= <-].
      destruct (samplePrefix_pushes _ _ _ _ _ Es) as [Hone Ht1].
      destruct (IH _ _ Em) as [Hmore Ht2].
      split; [|apply Forall_app; split; assumption].
      rewrite length_app.
      assert (Hmul : ((List.length pushed + List.length more) * step
                      <= step + List.length more * step)%nat).
      { rewrite Nat.mul_add_distr_r.
        apply Nat.add_le_mono_r.
        destruct pushed as [|x [|y pushed]]; cbn in *; lia. }
      lia.
    + intros [= <-]. split; [cbn; lia | constructor].
Qed.

Lemma samples_below_hundred (n : nat) : (n / stepOf n <= 99)%nat.
Proof.
  unfold stepOf.
  destruct (Nat.lt_ge_cases n 50) as [Hlt | Hge].
  - rewrite (Nat.div_small n 50) by exact Hlt.
    change (Nat.max 1 0) with 1%nat. rewrite Nat.div_1_r. lia.
  - assert (Hs : (1 <= n / 50)%nat)
      by (apply Nat.div_le_lower_bound; lia).
    rewrite Nat.max_r by exact Hs.
    pose proof (Nat.div_mod_eq n 50) as Hdm.
    pose proof (Nat.mod_upper_bound n 50 ltac:(lia)) as Hm.
    assert (Hlt : (n / (n / 50) < 100)%nat)
      by (apply Nat.Div0.div_lt_upper_bound; lia).
    lia.
Qed.

(** X22.  [calculateDeveloping] never throws: what a nested profile throws is
    caught.  It returns at most one point per sampled position, which is
    never more than 99, each stamped with the time of one of the bars; with a
    row size other than zero it does return. *)
Theorem developing_samples_bounded (d : nat) (self : Config) (bars : list Bar)
    (settings : Config) :
  (forall e, calculateDeveloping (S d) self bars settings <> Throws e)
  /\ calculateDeveloping (S d) self bars settings <> OutOfFuel
  /\ (forall points,
        calculateDeveloping (S d) self bars settings = Returns points ->
        (List.length points <= List.length bars / stepOf (List.length bars))%nat
        /\ (List.length points <= 99)%nat
        /\ Forall (fun pt => In (timestamp pt) (map time bars)) points)
  /\ (~ rowSizeOf (merge self (flagsOff settings)) == 0 ->
      exists points, calculateDeveloping (S d) self bars settings = Returns points).
Proof.
  unfold calculateDeveloping.
  split; [|split; [|split]].
  - intro e. unfold calculateDevelopingWith. apply developingLoop_never_throws.
  - unfold calculateDevelopingWith. apply developingLoop_budget.
    + apply stepOf_positive.
    + intro prefix. cbn [calculateProfile].
      apply (proj2 (calculateProfileWith_flagsOff _ (fun _ _ => OutOfFuel)
                      self (Some prefix) _)).
    + pose proof (stepOf_positive (List.length bars)). lia.
  - intros points E. unfold calculateDevelopingWith in E.
    destruct (developingLoop_points _ _ _ _ _ _ _ E) as [Hlen Ht].
    pose proof (stepOf_positive (List.length bars)) as Hs.
    assert (Hdiv : (List.length points
                    <= List.length bars / stepOf (List.length bars))%nat).
    { apply Nat.div_le_lower_bound; [lia|].
      rewrite Nat.mul_comm. lia. }
    split; [exact Hdiv|]. split; [|exact Ht].
    pose proof (samples_below_hundred (List.length bars)). lia.
  - apply developing_returns.
Qed.

Lemma developing_samples_bounded_witness :
  exists points,
    calculateDeveloping 1 emptyConfig mixedBars twoRows = Returns points
    /\ (List.length points <= 99)%nat.
Proof.
  destruct (developing_samples_bounded 0 emptyConfig mixedBars twoRows)
    as [_ [_ [Hb Hr]]].
  destruct (Hr ltac:(discriminate)) as [points E].
  exists points. split; [exact E | exact (proj1 (proj2 (Hb points E)))].
Defined.

End OutcomeProps.

(** ** FRVP: the volume of the value area *)

Module AreaVolumeProps.
Import FRVP POCProps ValueAreaProps VolumeProps.

Lemma setAdd_fresh (i : Z) (s : list Z) : ~ In i s -> setAdd i s = s ++ [i].
Proof.
  intro Hn. unfold setAdd.
  destruct (existsb (Z.eqb i) s) eqn:E; [|reflexivity].
  exfalso. apply existsb_exists in E. destruct E as [j [Hj Heq]].
  apply Z.eqb_eq in Heq. subst j. contradiction.
Qed.

Lemma memberVolume_snoc (rows : list Row) (s : list Z) (i : Z) (r : Row) :
  rowAt rows i = Some r ->
  memberVolume rows (s ++ [i]) == memberVolume rows s + totalVolume r.
Proof.
  intro Hr. induction s as [|j s IH]; cbn [app memberVolume].
  - rewrite Hr. lra.
  - rewrite IH. lra.
Qed.

(** The running total is the volume of the member rows. *)
Lemma accumulated_step (rows : list Row) (pocIndex : Z) (targetVolume : Q)
    (st st' : VAState) :
  wellIndexed rows -> spans rows pocIndex st ->
  accumulatedVolume st == memberVolume rows (members st) ->
  expandStep rows pocIndex targetVolume st = Some st' ->
  accumulatedVolume st' == memberVolume rows (members st').
Proof.
  intros Hwi [Ha [Hb Hm]] Hacc H. apply expandStep_cursor in H.
  destruct H as [r [-> [-> [[Hr _] | [Hr _]]]]];
    pose proof (rowAt_index _ _ _ Hwi Hr) as Hidx;
    (rewrite setAdd_fresh by (rewrite Hm, Hidx; lia));
    rewrite Hidx, (memberVolume_snoc _ _ _ _ Hr), Hacc; reflexivity.
Qed.

Lemma accumulated_final (rows : list Row) (poc : Row) (vaPercentage : Q) :
  wellIndexed rows -> In poc rows ->
  accumulatedVolume (finalState rows poc vaPercentage)
  == memberVolume rows (members (finalState rows poc vaPercentage)).
Proof.
  intros Hwi Hin.
  assert (H : spans rows (indexOf rows poc) (finalState rows poc vaPercentage)
              /\ accumulatedVolume (finalState rows poc vaPercentage)
                 == memberVolume rows (members (finalState rows poc vaPercentage))).
  { unfold finalState.
    apply (expandLoop_ind rows (indexOf rows poc) (targetVolumeOf rows vaPercentage)
             (fun st => spans rows (indexOf rows poc) st
                        /\ accumulatedVolume st == memberVolume rows (members st))).
    - intros st st' [Hs Hacc] Hstep. split.
      + exact (spans_step _ _ _ _ _ Hwi Hs Hstep).
      + exact (accumulated_step _ _ _ _ _ Hwi Hs Hacc Hstep).
    - split; [apply spans_initial; assumption|].
      destruct (indexOf_poc rows poc Hwi Hin) as [Hr Hidx].
      unfold initialState. cbn [accumulatedVolume members memberVolume].
      rewrite Hidx, Hr. lra. }
  exact (proj2 H).
Qed.

Lemma chooseRow_none (pocIndex aboveIndex belowIndex : Z)
    (aboveRow belowRow : option Row) :
  chooseRow pocIndex aboveIndex belowIndex aboveRow belowRow = None ->
  aboveRow = None /\ belowRow = None.
Proof.
  unfold chooseRow. destruct aboveRow as [a|], belowRow as [b|];
    try discriminate; [|split; reflexivity].
  destruct (Qltb _ _); [discriminate|].
  destruct (Qltb _ _); [discriminate|].
  destruct (_ <? _)%Z; [discriminate|].
  destruct (_ <? _)%Z; discriminate.
Qed.

(** Why the loop was left. *)
Lemma exit_reason (rows : list Row) (pocIndex : Z) (targetVolume : Q)
    (st : VAState) :
  spans rows pocIndex st ->
  expandStep rows pocIndex targetVolume st = None ->
  targetVolume <= accumulatedVolume st
  \/ (aboveIndex st = -1 /\ belowIndex st = rowsLength rows)%Z
  \/ exists r side,
       chooseRow pocIndex (aboveIndex st) (belowIndex st)
         (aboveRowOf rows st) (belowRowOf rows st) = Some (r, side)
       /\ targetVolume < accumulatedVolume st + totalVolume r.
Proof.
  intros [Ha [Hb _]] H. unfold expandStep in H.
  destruct (continues rows targetVolume st) eqn:Ec.
  - unfold continues in Ec. apply andb_true_iff in Ec. destruct Ec as [_ Ec].
    destruct (chooseRow _ _ _ _ _) as [[r side]|] eqn:Ech.
    + destruct (Qltb targetVolume (accumulatedVolume st + totalVolume r)) eqn:Eq;
        [|discriminate].
      right. right. exists r, side. split; [reflexivity|].
      apply Qltb_lt. exact Eq.
    + exfalso. apply chooseRow_none in Ech. destruct Ech as [Eabove Ebelow].
      unfold aboveRowOf in Eabove. unfold belowRowOf in Ebelow.
      apply orb_true_iff in Ec. destruct Ec as [Ec | Ec]; rewrite Ec in *.
      * apply Z.leb_le in Ec.
        destruct (rowAt_in_range rows (aboveIndex st)) as [r Hr]; [lia|].
        congruence.
      * apply Z.ltb_lt in Ec.
        destruct (rowAt_in_range rows (belowIndex st)) as [r Hr]; [lia|].
        congruence.
  - unfold continues in Ec. apply andb_false_iff in Ec.
    destruct Ec as [Ec | Ec].
    + left. apply Qltb_ge. exact Ec.
    + right. left. apply orb_false_iff in Ec. destruct Ec as [E1 E2].
      apply Z.leb_gt in E1. apply Z.ltb_ge in E2. lia.
Qed.

(** X23.  The accumulated volume that [calculateValueArea] compares with the
    target is the total volume of the rows in the value area, and the value
    area cannot grow: when the loop is left the target is reached, or every
    row is in the value area, or the row the loop would take next would
    push the volume over the target. *)
Theorem value_area_maximal (rows : list Row) (poc : Row) (vaPercentage : Q) :
  wellIndexed rows -> In poc rows ->
  let st := finalState rows poc vaPercentage in
  let target := targetVolumeOf rows vaPercentage in
  (Qeq_bool (sumTotalVolume rows) 0 = false ->
   valueAreaRows (calculateValueArea rows poc vaPercentage) = members st)
  /\ accumulatedVolume st == memberVolume rows (members st)
  /\ (target <= memberVolume rows (members st)
      \/ (forall i, (0 <= i < rowsLength rows)%Z -> In i (members st))
      \/ exists r side,
           chooseRow (indexOf rows poc) (aboveIndex st) (belowIndex st)
             (aboveRowOf rows st) (belowRowOf rows st) = Some (r, side)
           /\ target < memberVolume rows (members st) + totalVolume r).
Proof.
  intros Hwi Hin st target.
  pose proof (accumulated_final rows poc vaPercentage Hwi Hin) as Hacc.
  pose proof (spans_final rows poc vaPercentage Hwi Hin) as Hs.
  fold st in Hacc, Hs.
  split; [|split; [exact Hacc|]].
  - intro Ez. unfold calculateValueArea. rewrite Ez. reflexivity.
  - destruct (exit_reason rows (indexOf rows poc) target st Hs
                (expandLoop_exits rows poc vaPercentage))
      as [Hreached | [[Ea Eb] | [r [side [Ech Hover]]]]].
    + left. rewrite <- Hacc. exact Hreached.
    + right. left. intros i Hi. destruct Hs as [_ [_ Hm]]. apply Hm. lia.
    + right. right. exists r, side. split; [exact Ech|].
      rewrite <- Hacc. exact Hover.
Qed.

Lemma value_area_maximal_witness :
  wellIndexed skewedRows /\ In skewedPoc skewedRows
  /\ valueAreaRows (calculateValueArea skewedRows skewedPoc 80)
     = members (finalState skewedRows skewedPoc 80)
  /\ accumulatedVolume (finalState skewedRows skewedPoc 80)
     == memberVolume skewedRows (members (finalState skewedRows skewedPoc 80)).
Proof.
  assert (Hwi : wellIndexed skewedRows) by exact skewedRows_wellIndexed.
  assert (Hin : In skewedPoc skewedRows) by (right; left; reflexivity).
  destruct (value_area_maximal skewedRows skewedPoc 80 Hwi Hin) as [Hset [Hacc _]].
  split; [exact Hwi|]. split; [exact Hin|].
  split; [apply Hset; vm_compute; reflexivity | exact Hacc].
Defined.

End AreaVolumeProps.

(** ** FRVP: the returned profile and its rendering *)

Module RenderingProps.
Import FRVP Formatting POCProps ValueAreaProps VolumeProps ProfileProps RowProps.
Import OutcomeProps.





(** *** Formatted rows *)

Lemma poc_maximal (rows : list Row) (poc : Row) :
  calculatePOC rows = Returns poc ->
  forall r, In r rows -> totalVolume r <= totalVolume poc.
Proof.
  destruct rows as [|first rest]; [discriminate|].
  cbn [calculatePOC fold_left]. rewrite pickMax_self. intros [= <-].
  assert (H0 : firstMaxOf [first] first 0).
  { split; [reflexivity|]. split.
    - intros r [<- | []]. apply Qle_refl.
    - intros j r Hj. lia. }
  destruct (fold_pickMax_firstMax rest [first] first 0%nat H0) as [k [_ [Hmax _]]].
  exact Hmax.
Qed.

Lemma fold_max_bound (l : list Q) (bound : Q) :
  forall a, a <= bound -> (forall x, In x l -> x <= bound) ->
            fold_left Qmax l a <= bound.
Proof.
  induction l as [|y l IH]; intros a Ha Hl; simpl; [exact Ha|].
  apply IH.
  - apply Q.max_lub; [exact Ha | apply Hl; left; reflexivity].
  - intros x Hx. apply Hl. right. exact Hx.
Qed.

(** The greatest volume is the volume of the POC. *)
Lemma maxVolume_poc (rows : list Row) (poc : Row) :
  calculatePOC rows = Returns poc ->
  exists m, maxVolumeOf rows = Some m /\ m == totalVolume poc
            /\ (forall r, In r rows -> totalVolume r <= m).
Proof.
  intro Hpoc.
  pose proof (poc_maximal rows poc Hpoc) as Hmax.
  pose proof (calculatePOC_member rows poc Hpoc) as Hin.
  destruct rows as [|first rest]; [destruct Hin|].
  eexists. split; [reflexivity|].
  destruct (fold_max_ge (map totalVolume rest) (totalVolume first)) as [Hfirst Hrest].
  assert (Hall : forall r, In r (first :: rest) ->
            totalVolume r <= fold_left Qmax (map totalVolume rest) (totalVolume first)).
  { intros r [<- | Hr]; [exact Hfirst | apply Hrest; apply in_map; exact Hr]. }
  split; [|exact Hall].
  apply Qle_antisym; [|apply Hall; exact Hin].
  apply fold_max_bound.
  - apply Hmax. left. reflexivity.
  - intros x Hx. apply in_map_iff in Hx. destruct Hx as [r [<- Hr]].
    apply Hmax. right. exact Hr.
Qed.

Lemma same_index (rows : list Row) (r r' : Row) :
  wellIndexed rows -> In r rows -> In r' rows -> index r = index r' -> r = r'.
Proof.
  intros Hwi Hr Hr' E.
  apply In_nth_error in Hr. destruct Hr as [i Hi].
  apply In_nth_error in Hr'. destruct Hr' as [j Hj].
  pose proof (Hwi _ _ Hi) as Ei. pose proof (Hwi _ _ Hj) as Ej.
  assert (i = j) by lia. subst j. congruence.
Qed.

Lemma rowAt_In (rows : list Row) (i : Z) (r : Row) :
  rowAt rows i = Some r -> In r rows.
Proof.
  intro H. apply rowAt_Some in H. destruct H as [_ H].
  exact (nth_error_In _ _ H).
Qed.

Lemma has_index (i : Z) (s : list Z) : existsb (Z.eqb i) s = true <-> In i s.
Proof.
  rewrite existsb_exists. split.
  - intros [j [Hj E]]. apply Z.eqb_eq in E. subst j. exact Hj.
  - intro H. exists i. split; [exact H | apply Z.eqb_refl].
Qed.

(** X25.  [getFormattedData] on a returned profile keeps the rows in order and
    flags exactly the POC row as POC, the VAH row as VAH and the VAL row as
    VAL; these rows are flagged as inside the value area, and the rows
    flagged as inside form one band of consecutive rows. *)
Theorem formatted_flags (depth : nat) (self config : Config)
    (minuteBars : option (list Bar)) (p : Profile)
    (volumeProfile : option VolumeProfileStyle) :
  calculateProfile (S depth) self minuteBars config = Returns p ->
  let formatted := getFormattedData p volumeProfile in
  map row formatted = p_rows p
  /\ (exists f, In f formatted /\ isPOC f = true)
  /\ (forall f, In f formatted ->
        (isPOC f = true <-> row f = p_poc p)
        /\ (isVAH f = true <-> row f = p_vah p)
        /\ (isVAL f = true <-> row f = p_val p)
        /\ (isPOC f = true \/ isVAH f = true \/ isVAL f = true ->
            isInValueArea f = true)
        /\ f_placement f = placementOf volumeProfile)
  /\ exists lo hi,
       forall f, In f formatted ->
         (isInValueArea f = true <-> (lo <= index (row f) <= hi)%Z).
Proof.
  intros H formatted.
  destruct (profile_rows_wellformed _ _ _ _ _ H) as [Hwi [Hpoc _]].
  destruct (profile_value_area_band _ _ _ _ _ H)
    as [lo [hi [Hrange [Hband [Hvah Hval]]]]].
  pose proof (rowAt_index _ _ _ Hwi Hvah) as Ehi.
  pose proof (rowAt_index _ _ _ Hwi Hval) as Elo.
  pose proof (rowAt_In _ _ _ Hvah) as Hinh.
  pose proof (rowAt_In _ _ _ Hval) as Hinl.
  assert (Hf : forall f, In f formatted ->
            In (row f) (p_rows p)
            /\ isPOC f = (index (row f) =? index (p_poc p))%Z
            /\ isVAH f = (index (row f) =? index (p_vah p))%Z
            /\ isVAL f = (index (row f) =? index (p_val p))%Z
            /\ isInValueArea f
               = existsb (Z.eqb (index (row f))) (p_valueAreaRows p)
            /\ f_placement f = placementOf volumeProfile).
  { intros f Hin. unfold formatted, getFormattedData in Hin.
    apply in_map_iff in Hin. destruct Hin as [r [<- Hr]].
    cbn [row isPOC isVAH isVAL isInValueArea f_placement].
    repeat split. exact Hr. }
  assert (Hflag : forall f r, In f formatted -> In r (p_rows p) ->
            ((index (row f) =? index r)%Z = true <-> row f = r)).
  { intros f r Hin Hr. destruct (Hf f Hin) as [Hrow _].
    rewrite Z.eqb_eq.
    split; [apply (same_index (p_rows p)); assumption | intros ->; reflexivity]. }
  split; [|split; [|split]].
  - unfold formatted, getFormattedData. rewrite map_map. cbn [row]. apply map_id.
  - exists (mkFormattedRow (p_poc p)
              (volumeRatio (maxVolumeOf (p_rows p)) (p_poc p) * widthOf volumeProfile)
              (index (p_poc p) =? index (p_poc p))%Z
              (index (p_poc p) =? index (p_vah p))%Z
              (index (p_poc p) =? index (p_val p))%Z
              (existsb (Z.eqb (index (p_poc p))) (p_valueAreaRows p))
              (placementOf volumeProfile)).
    split; [|cbn [isPOC]; apply Z.eqb_refl].
    unfold formatted, getFormattedData.
    apply in_map_iff. exists (p_poc p). split; [reflexivity | exact Hpoc].
  - intros f Hin.
    destruct (Hf f Hin) as [Hrow [Ep [Eh [El [Ea Epl]]]]].
    rewrite Ep, Eh, El, Ea.
    split; [apply Hflag; assumption|].
    split; [apply Hflag; assumption|].
    split; [apply Hflag; assumption|].
    split; [|exact Epl].
    rewrite has_index, Hband, !Z.eqb_eq. lia.
  - exists lo, hi. intros f Hin.
    destruct (Hf f Hin) as [_ [_ [_ [_ [Ea _]]]]].
    rewrite Ea, has_index. apply Hband.
Qed.

Lemma formatted_flags_witness :
  exists p,
    calculateProfile 2 emptyConfig (Some mixedBars) twoRows = Returns p
    /\ map row (getFormattedData p None) = p_rows p
    /\ exists f, In f (getFormattedData p None) /\ isPOC f = true.
Proof.
  destruct (calculateProfile 2 emptyConfig (Some mixedBars) twoRows) as [p | e | |]
    eqn:E; try (vm_compute in E; discriminate E).
  exists p. split; [reflexivity|].
  destruct (formatted_flags 1 emptyConfig twoRows (Some mixedBars) p None E)
    as [Hrows [Hex _]].
  split; [exact Hrows | exact Hex].
Defined.

Lemma distributed_nonneg (low high : Q) (settings : Config) (created : list Row)
    (bars : list Bar) :
  createPriceLevelRows low high settings = Some created ->
  Forall (fun bar => 0 <= volume bar) bars ->
  forall r, In r (distributeVolume bars created) -> 0 <= totalVolume r.
Proof.
  intros Hc Hvol r Hr.
  assert (Hall : Forall (fun r => (totalVolume r == upVolume r + downVolume r
                                   /\ delta r == upVolume r - downVolume r)
                                  /\ 0 <= upVolume r /\ 0 <= downVolume r)
                   (distributeVolume bars created)).
  { apply distributeVolume_Forall.
    - intros bar r0 Hin [Hb Hn]. split.
      + apply addBarToRow_balanced. exact Hb.
      + apply addBarToRow_nonneg; [|exact Hn].
        rewrite Forall_forall in Hvol. exact (Hvol bar Hin).
    - eapply Forall_impl; [|exact (created_zero _ _ _ _ Hc)].
      intros r0 [-> [-> [-> ->]]]. repeat split; lra. }
  rewrite Forall_forall in Hall. destruct (Hall r Hr) as [[Ht _] [Hu Hd]]. lra.
Qed.

(** X26.  For bars without negative volume and a non-negative width setting, every
    bar width of [getFormattedData] lies between 0 and the width; the POC
    row gets the full width when it holds volume, and every width is 0 when
    it holds none. *)
Theorem formatted_bar_widths (depth : nat) (self config : Config)
    (bars : list Bar) (p : Profile) (volumeProfile : option VolumeProfileStyle) :
  calculateProfile (S depth) self (Some bars) config = Returns p ->
  Forall (fun bar => 0 <= volume bar) bars ->
  0 <= widthOf volumeProfile ->
  forall f, In f (getFormattedData p volumeProfile) ->
    0 <= barWidth f /\ barWidth f <= widthOf volumeProfile
    /\ (isPOC f = true -> 0 < totalVolume (p_poc p) ->
        barWidth f == widthOf volumeProfile)
    /\ (totalVolume (p_poc p) == 0 -> barWidth f == 0).
Proof.
  intros H Hvol Hw f Hin.
  destruct (profile_rows_wellformed _ _ _ _ _ H) as [Hwi [Hpoc _]].
  destruct (calculateProfile_returns _ _ _ _ _ H)
    as [b [bs [created [Hbars [Hc [Hrows [Ep _]]]]]]].
  injection Hbars as ->.
  destruct (maxVolume_poc _ _ Ep) as [m [Em [Hm Hle]]].
  unfold getFormattedData in Hin. rewrite Em in Hin.
  apply in_map_iff in Hin. destruct Hin as [r [<- Hr]].
  cbn [barWidth isPOC]. unfold volumeRatio.
  assert (Hr0 : 0 <= totalVolume r).
  { rewrite Hrows in Hr. exact (distributed_nonneg _ _ _ _ _ Hc Hvol r Hr). }
  pose proof (Hle r Hr) as Hrm.
  set (w := widthOf volumeProfile) in *. clearbody w.
  destruct (Qltb 0 m) eqn:E0.
  - apply Qltb_lt in E0.
    assert (Hq0 : 0 <= totalVolume r / m)
      by (apply Qle_shift_div_l; [exact E0 | lra]).
    assert (Hq1 : totalVolume r / m <= 1)
      by (apply Qle_shift_div_r; [exact E0 | lra]).
    pose proof (Qmult_le_0_compat _ _ Hq0 Hw) as H0.
    pose proof (Qmult_le_compat_r _ _ w Hq1 Hw) as H1.
    split; [exact H0|]. split; [lra|]. split.
    + intros Eidx _. apply Z.eqb_eq in Eidx.
      rewrite (same_index _ _ _ Hwi Hr Hpoc Eidx), <- Hm.
      assert (E1 : m / m == 1) by (field; lra).
      rewrite E1. ring.
    + intro Hz. exfalso. lra.
  - apply Qltb_ge in E0.
    split; [lra|]. split; [lra|]. split; [|intros _; ring].
    intros _ Hpos. exfalso. lra.
Qed.

Lemma formatted_bar_widths_witness :
  exists p,
    calculateProfile 2 emptyConfig (Some mixedBars) twoRows = Returns p
    /\ forall f, In f (getFormattedData p None) ->
         0 <= barWidth f /\ barWidth f <= 30.
Proof.
  destruct (calculateProfile 2 emptyConfig (Some mixedBars) twoRows) as [p | e | |]
    eqn:E; try (vm_compute in E; discriminate E).
  exists p. split; [reflexivity|]. intros f Hf.
  assert (Hvol : Forall (fun bar => 0 <= volume bar) mixedBars)
    by (repeat constructor; discriminate).
  assert (Hw : 0 <= widthOf None) by discriminate.
  destruct (formatted_bar_widths 1 emptyConfig twoRows mixedBars p None E Hvol Hw f Hf)
    as [H0 [H1 _]].
  split; [exact H0 | exact H1].
Defined.

End RenderingProps.

(** ** FRVP settings: validation *)

Module SettingsProps.
Import FRVP Formatting Settings OutcomeProps.

Section Validated.

Variable parseInt : Q -> option Z.

Lemma validRowSize_whole (v : Q) :
  exists z, validRowSize parseInt v = inject_Z z /\ (1 <= z)%Z.
Proof. eexists. split; [reflexivity | lia]. Qed.

Lemma validPercent_whole (fallback : Z) (v : Q) :
  wholeBetween 0 100 (validPercent parseInt fallback v).
Proof. eexists. split; [reflexivity | lia]. Qed.

Lemma validOpacities_whole (fallback : Z) (entries : list (string * option Q)) :
  map fst (validOpacities parseInt fallback entries) = map fst entries
  /\ forall key opacity,
       In (key, Some opacity) (validOpacities parseInt fallback entries) ->
       wholeBetween 0 100 opacity.
Proof.
  unfold validOpacities. split.
  - rewrite map_map. reflexivity.
  - intros key opacity Hin. apply in_map_iff in Hin.
    destruct Hin as [[k o] [E _]]. cbn [fst snd] in E.
    destruct o as [o|]; [|discriminate].
    injection E as _ <-. apply validPercent_whole.
Qed.


(** X27.  Whatever [parseInt] makes of the fields, a validated row size is a whole
    number of at least 1, and a validated value-area volume, width or
    opacity is a whole number from 0 to 100; a field that is absent stays
    absent, and the layout, the placement and the flags are not touched.  The
    percentage the calculator then uses is positive, because it reads 0 as
    70. *)
Theorem validated_ranges (config : FRVPConfig) :
  let validated := validateFRVPConfig parseInt config in
  (forall s, rowSize (inputs validated) = Some s ->
             exists z, s = inject_Z z /\ (1 <= z)%Z)
  /\ (forall v, valueAreaVolume (inputs validated) = Some v -> wholeBetween 0 100 v)
  /\ (forall vp w, volumeProfile validated = Some vp -> width vp = Some w ->
                   wholeBetween 0 100 w)
  /\ (forall entries key opacity,
        colors validated = Some entries \/ indicators validated = Some entries ->
        In (key, Some opacity) entries -> wholeBetween 0 100 opacity)
  /\ (rowSize (inputs validated) = None <-> rowSize (inputs config) = None)
  /\ (valueAreaVolume (inputs validated) = None
      <-> valueAreaVolume (inputs config) = None)
  /\ rowsLayout (inputs validated) = rowsLayout (inputs config)
  /\ wantsDeveloping (inputs validated) = wantsDeveloping (inputs config)
  /\ placementOf (volumeProfile validated) = placementOf (volumeProfile config)
  /\ 0 < vaPercentageOf (inputs validated)
  /\ vaPercentageOf (inputs validated) <= 100.
Proof.
  intro validated. subst validated. unfold validateFRVPConfig.
  cbn [inputs volumeProfile colors indicators rowSize valueAreaVolume rowsLayout].
  split; [|split; [|split; [|split; [|split; [|split; [|split; [|split; [|split]]]]]]]].
  - intros s E. destruct (rowSize (inputs config)) as [v|]; [|discriminate].
    injection E as <-. apply validRowSize_whole.
  - intros v E. destruct (valueAreaVolume (inputs config)) as [v0|]; [|discriminate].
    injection E as <-. apply validPercent_whole.
  - intros vp w E Ew. destruct (volumeProfile config) as [vp0|]; [|discriminate].
    injection E as <-. cbn [width] in Ew.
    destruct (width vp0) as [w0|]; [|discriminate].
    injection Ew as <-. apply validPercent_whole.
  - intros entries key opacity [E | E] Hin.
    + destruct (colors config) as [entries0|]; [|discriminate].
      injection E as <-.
      exact (proj2 (validOpacities_whole 80 entries0) key opacity Hin).
    + destruct (indicators config) as [entries0|]; [|discriminate].
      injection E as <-.
      exact (proj2 (validOpacities_whole 50 entries0) key opacity Hin).
  - destruct (rowSize (inputs config)); split; intro; reflexivity || discriminate.
  - destruct (valueAreaVolume (inputs config)); split; intro;
      reflexivity || discriminate.
  - reflexivity.
  - reflexivity.
  - destruct (volumeProfile config) as [vp|]; reflexivity.
  - unfold vaPercentageOf. cbn [valueAreaVolume].
    destruct (valueAreaVolume (inputs config)) as [v|]; cbn [option_map].
    + destruct (Qeq_bool (validPercent parseInt 70 v) 0) eqn:E.
      * split; [reflexivity | discriminate].
      * apply Qeq_bool_false in E. unfold validPercent in *.
        set (z := Z.max 0 (Z.min 100 (parsedOr parseInt 70 v))) in *.
        assert (Hz : (0 <= z <= 100)%Z) by (unfold z; lia).
        assert (Hnz : z <> 0%Z) by (intros ->; apply E; reflexivity).
        split.
        -- change 0 with (inject_Z 0). rewrite <- Zlt_Qlt. lia.
        -- change 100 with (inject_Z 100). rewrite <- Zle_Qle. lia.
    + split; [reflexivity | discriminate].
Qed.



End Validated.

Lemma validated_ranges_witness :
  rowSize (inputs (validateFRVPConfig parseWhole rawSettings)) = Some 200
  /\ valueAreaVolume (inputs (validateFRVPConfig parseWhole rawSettings)) = Some 0
  /\ vaPercentageOf (inputs (validateFRVPConfig parseWhole rawSettings)) = 70
  /\ exists z, 200 = inject_Z z /\ (1 <= z)%Z.
Proof.
  split; [reflexivity|]. split; [reflexivity|]. split; [reflexivity|].
  exact (proj1 (validated_ranges parseWhole rawSettings) 200 eq_refl).
Defined.


End SettingsProps.
